(** * R-YOLOv4: rotated-box geometry, target assignment, loss and rotated NMS

    A shallow embedding of [lib/post_process.py] and [lib/loss.py].

    Tensors of single-precision floats are idealised as exact real numbers
    ([R]): every arithmetic operation is the exact one, so rounding,
    overflow, infinities and NaN are outside that model, and the
    properties stated in it say which formula the code evaluates.  Where
    a property turns on rounding (the merge of the suppression), the
    formula is also read in IEEE 754 binary32.  Where Python raises an
    exception the embedding returns [Err]. *)

From Stdlib Require Import Reals Lra Lia List Bool Arith PeanoNat Sorted ZArith.
From Stdlib Require Floats.SpecFloat.
Import ListNotations.
Open Scope R_scope.

(** ** Exceptions and the error monad *)

Inductive error : Type :=
| AssertionError
| ZeroDivisionError
| IndexError
| ValueError
| RuntimeError.

Inductive result (A : Type) : Type :=
| Ok (a : A)
| Err (e : error).
Arguments Ok {A} a.
Arguments Err {A} e.

Definition bind {A B : Type} (m : result A) (k : A -> result B) : result B :=
  match m with
  | Ok a => k a
  | Err e => Err e
  end.

Notation "x <- m ;; k" := (bind m (fun x => k))
  (at level 61, m at next level, right associativity).

(** ** Comparisons of tensor elements, as booleans *)

Definition Rgtb (x y : R) : bool := if Rlt_dec y x then true else false.
Definition Rgeb (x y : R) : bool := if Rle_dec y x then true else false.
Definition Rltb (x y : R) : bool := Rgtb y x.

(** [torch.clamp(x, min=0)] *)
Definition clamp_min0 (x : R) : R := Rmax x 0.

(** [t.sum()] of a one-dimensional tensor *)
Definition Rsum (l : list R) : R := fold_right Rplus 0 l.

(** Boolean-mask indexing [t[mask]]. *)
Fixpoint select {A : Type} (mask : list bool) (l : list A) : list A :=
  match mask, l with
  | m :: mask', x :: l' => if m then x :: select mask' l' else select mask' l'
  | _, _ => []
  end.

(** Masked assignment [t[mask] = vals] into the tensor [t]. *)
Fixpoint scatter {A : Type} (mask : list bool) (t vals : list A) : list A :=
  match mask, t with
  | m :: mask', x :: t' =>
      if m then
        match vals with
        | v :: vals' => v :: scatter mask' t' vals'
        | [] => x :: scatter mask' t' []
        end
      else x :: scatter mask' t' vals
  | _, _ => t
  end.

(** ** Oriented boxes *)

(** A row [(x, y, w, h, theta)]. *)
Record rbox : Type := mkbox { bx : R; by_ : R; bw : R; bh : R; ba : R }.

Abbreviation point := (R * R)%type (only parsing).
Abbreviation polygon := (list (R * R)) (only parsing).

(** [cv.boxPoints(((x, y), (w, h), angle))], the four corners of the
    rotated rectangle; [angle] is in degrees (OpenCV's
    [RotatedRect::points]). *)
Definition boxPoints (x y w h angle : R) : polygon :=
  let _angle := angle * PI / 180 in
  let b := cos _angle * 0.5 in
  let a := sin _angle * 0.5 in
  let p0 := (x - a * h - b * w, y + b * h - a * w) in
  let p1 := (x + a * h - b * w, y - b * h - a * w) in
  [ p0; p1; (2 * x - fst p0, 2 * y - snd p0); (2 * x - fst p1, 2 * y - snd p1) ].

(** The operations of [shapely.geometry.Polygon] used by [skewiou]. *)
Record Shapely : Type := {
  is_valid : polygon -> bool;
  intersects : polygon -> polygon -> bool;
  intersection_area : polygon -> polygon -> R;
  union_area : polygon -> polygon -> R
}.

Module PostProcess.

(** [xywh2xyxy]: only the first four entries of the result are written. *)
Definition xywh2xyxy (x : rbox) : R * R * R * R :=
  (bx x - bw x / 2, by_ x - bh x / 2, bx x + bw x / 2, by_ x + bh x / 2).

Section Geometry.

Variable G : Shapely.

Definition rbox2polygon (box : rbox) : polygon :=
  boxPoints (bx box) (by_ box) (bw box) (bh box) (ba box / PI * 180).

(** [get_iou]: the quotient of two Python floats raises on a zero divisor. *)
Definition get_iou (polygon1 polygon2 : polygon) : result R :=
  if intersects G polygon1 polygon2 then
    let intersect := intersection_area G polygon1 polygon2 in
    let union := union_area G polygon1 polygon2 in
    if Req_dec_T union 0 then Err ZeroDivisionError else Ok (intersect / union)
  else Ok 0.

(** The [for] loop of [skewiou], filling the list [iou]. *)
Fixpoint skewiou_loop (g : polygon) (box2 : list rbox) : result (list R) :=
  match box2 with
  | [] => Ok []
  | b :: rest =>
      let p := rbox2polygon b in
      if negb (is_valid G g) || negb (is_valid G p) then Err AssertionError
      else
        v <- get_iou g p ;;
        vs <- skewiou_loop g rest ;;
        Ok (v :: vs)
  end.

(** [skewiou(box1, box2)]; [torch.stack] of an empty list raises. *)
Definition skewiou (box1 : rbox) (box2 : list rbox) : result (list R) :=
  iou <- skewiou_loop (rbox2polygon box1) box2 ;;
  match iou with
  | [] => Err RuntimeError
  | _ => Ok iou
  end.

(** The axis-aligned overlap ratio computed at the head of [iou]. *)
Definition aa_iou (box1 box2 : rbox) : R :=
  let area1 := bw box1 * bh box1 in
  let area2 := bw box2 * bh box2 in
  let '(a1, b1, c1, d1) := xywh2xyxy box1 in
  let '(a2, b2, c2, d2) := xywh2xyxy box2 in
  let inter_min_x := Rmax a1 a2 in
  let inter_min_y := Rmax b1 b2 in
  let inter_max_x := Rmin c1 c2 in
  let inter_max_y := Rmin d1 d2 in
  let inter_area :=
    clamp_min0 (inter_max_x - inter_min_x) * clamp_min0 (inter_max_y - inter_min_y) in
  let union := area1 + area2 - inter_area in
  inter_area / (union + 1e-15).

(** [iou(box1, box2, nms_thres)]: the gated overlap test. *)
Definition iou (box1 : rbox) (box2 : list rbox) (nms_thres : R) : result (list bool) :=
  match box2 with
  | [] => Err IndexError
  | _ =>
      let iou := map (aa_iou box1) box2 in
      let mask := map (fun v => Rgtb v 0.3) iou in
      let large_overlap := map (fun _ => false) box2 in
      if existsb (fun m => m) mask then
        s <- skewiou box1 (select mask box2) ;;
        Ok (scatter mask large_overlap (map (fun v => Rgtb v nms_thres) s))
      else Ok large_overlap
  end.

(** The same test without the prefilter: exact skew-IoU on every candidate. *)
Definition iou_ungated (box1 : rbox) (box2 : list rbox) (nms_thres : R) : result (list bool) :=
  s <- skewiou box1 box2 ;;
  Ok (map (fun v => Rgtb v nms_thres) s).

End Geometry.

End PostProcess.

(** ** A computational model of the polygon operations on convex rings

    [cv.boxPoints] only produces (possibly collapsed) rectangles, so the
    polygon operations are modelled on convex rings: the intersection is
    obtained by clipping the first ring against every edge of the second
    one (Sutherland-Hodgman), areas by the shoelace formula. *)

Module Convex.

Definition cross (a b p : point) : R :=
  (fst b - fst a) * (snd p - snd a) - (snd b - snd a) * (fst p - fst a).

Fixpoint shoelace (first : point) (p : polygon) : R :=
  match p with
  | [] => 0
  | a :: rest =>
      let b := match rest with [] => first | b :: _ => b end in
      (fst a * snd b - fst b * snd a) + shoelace first rest
  end.

(** Twice the signed area of the ring. *)
Definition signed_area2 (p : polygon) : R :=
  match p with
  | [] => 0
  | first :: _ => shoelace first p
  end.

Definition area (p : polygon) : R := Rabs (signed_area2 p) / 2.

(** The ring in counter-clockwise order. *)
Definition ccw (p : polygon) : polygon :=
  if Rlt_dec (signed_area2 p) 0 then rev p else p.

Definition inside (a b p : point) : bool := Rgeb (cross a b p) 0.

(** Where the segment [s e] meets the line through [a] and [b]. *)
Definition meet (a b s e : point) : point :=
  let ds := cross a b s in
  let de := cross a b e in
  let t := ds / (ds - de) in
  (fst s + t * (fst e - fst s), snd s + t * (snd e - snd s)).

Fixpoint clip_edge (a b s : point) (subject : polygon) : polygon :=
  match subject with
  | [] => []
  | e :: rest =>
      (if inside a b e then
         if inside a b s then [e] else [meet a b s e; e]
       else if inside a b s then [meet a b s e] else [])
      ++ clip_edge a b e rest
  end.

Definition clip_by (subject : polygon) (edge : point * point) : polygon :=
  clip_edge (fst edge) (snd edge) (last subject (0, 0)) subject.

Definition edges (p : polygon) : list (point * point) :=
  match p with
  | [] => []
  | first :: rest => combine p (rest ++ [first])
  end.

Definition intersection (p q : polygon) : polygon :=
  fold_left clip_by (edges (ccw q)) p.

Definition nonempty (p : polygon) : bool :=
  match p with [] => false | _ => true end.

(** A ring of [cv.boxPoints] is a valid polygon unless it is collapsed
    (zero area): GEOS rejects rings that enclose no area. *)
Definition shapely : Shapely := {|
  is_valid := fun p => if Req_dec_T (signed_area2 p) 0 then false else true;
  intersects := fun p q => nonempty (intersection p q);
  intersection_area := fun p q => area (intersection p q);
  union_area := fun p q => area p + area q - area (intersection p q)
|}.

End Convex.

(** The rows handled by [post_process]. *)

(** A candidate row [(x, y, w, h, a, conf, class scores ...)]. *)
Record candidate : Type := mkcand { cbox : rbox; cconf : R; ccls : list R }.

(** A row of [detections]:
    [(x, y, w, h, a, object_conf, class_conf, class_pred)]. *)
Record detection : Type := mkdet {
  dbox : rbox; dconf : R; dcls_conf : R; dcls_pred : nat
}.

(** A raw row of one scale, [(x, y, w, h, a, _, conf, class scores ...)]:
    column 5 is dropped by [post_process]. *)
Record raw_row : Type := mkraw { rbox_ : rbox; rcol5 : R; rconf : R; rcls : list R }.

(** One scale of [predictions]: [grid] is [pred.size(2)], [images] the rows
    of every image of the batch. *)
Record scale_pred : Type := mkscale { grid : nat; images : list (list raw_row) }.

(** [t.max(dim)] on one row: the maximum and the index of its first
    occurrence. *)
Fixpoint max_from (best : R) (bi i : nat) (l : list R) : R * nat :=
  match l with
  | [] => (best, bi)
  | x :: rest =>
      if Rgtb x best then max_from x i (S i) rest else max_from best bi (S i) rest
  end.

Definition max_dim (l : list R) : result (R * nat) :=
  match l with
  | [] => Err IndexError
  | x :: rest => Ok (max_from x 0 1 rest)
  end.

Fixpoint mapM {A B : Type} (f : A -> result B) (l : list A) : result (list B) :=
  match l with
  | [] => Ok []
  | x :: rest => y <- f x ;; ys <- mapM f rest ;; Ok (y :: ys)
  end.

(** [t[key.argsort(descending=True)]]: rows by descending key; rows of equal
    key keep their order (torch leaves the order of ties open). *)
Fixpoint insert_desc {A : Type} (key : A -> R) (x : A) (l : list A) : list A :=
  match l with
  | [] => [x]
  | y :: rest => if Rgeb (key x) (key y) then x :: l else y :: insert_desc key x rest
  end.

Definition sort_desc {A : Type} (key : A -> R) (l : list A) : list A :=
  fold_right (insert_desc key) [] l.

(** [t.unique()]: the distinct labels in ascending order. *)
Fixpoint insert_label (n : nat) (l : list nat) : list nat :=
  match l with
  | [] => [n]
  | m :: rest =>
      if (n <? m)%nat then n :: l
      else if (n =? m)%nat then l
      else m :: insert_label n rest
  end.

Definition unique (l : list nat) : list nat := fold_right insert_label [] l.

Module NMS.

Import PostProcess.

Definition max_nms : nat := 500.
Definition max_det : nat := 300.

(** [best_bbox[:4] = best_bbox[:4] * best_bbox[5] + (weights * throwayay[:, :4]).sum(0)]
    followed by [best_bbox[:4] /= (best_bbox[5] + weights.sum())], on one
    of the four columns [f]. *)
Definition merge_col (f : rbox -> R) (best_bbox : detection) (throwayay : list detection) : R :=
  let weights := map dconf throwayay in
  (f (dbox best_bbox) * dconf best_bbox
   + Rsum (map (fun t => dconf t * f (dbox t)) throwayay))
  / (dconf best_bbox + Rsum weights).

Definition merge (best_bbox : detection) (throwayay : list detection) : detection :=
  {| dbox := {| bx := merge_col bx best_bbox throwayay;
                by_ := merge_col by_ best_bbox throwayay;
                bw := merge_col bw best_bbox throwayay;
                bh := merge_col bh best_bbox throwayay;
                ba := ba (dbox best_bbox) |};
     dconf := dconf best_bbox;
     dcls_conf := dcls_conf best_bbox;
     dcls_pred := dcls_pred best_bbox |}.

Section Suppression.

Variable G : Shapely.
Variable nms_thres : R.

(** One pass through the body of the [while] loop, after
    [best_bbox = detect[0]; detect = detect[1:]]: the kept box and the
    remaining candidates. *)
Definition nms_iter (best_bbox : detection) (detect : list detection)
  : result (detection * list detection) :=
  match detect with
  | [] => Ok (best_bbox, [])
  | _ =>
      large_overlap <- iou G (dbox best_bbox) (map dbox detect) nms_thres ;;
      let throwayay := select large_overlap detect in
      let detect' := select (map negb large_overlap) detect in
      Ok (merge best_bbox throwayay, detect')
  end.

(** The [while len(detect)] loop.  [fuel] bounds the number of passes;
    every pass removes a row, so [length detect] passes are enough. *)
Fixpoint nms_while (fuel : nat) (detect : list detection) : result (list detection) :=
  match fuel, detect with
  | S fuel', best_bbox :: detect1 =>
      r <- nms_iter best_bbox detect1 ;;
      keep <- nms_while fuel' (snd r) ;;
      Ok (fst r :: keep)
  | _, _ => Ok []
  end.

Definition nms_label (detections : list detection) (label : nat) : result (list detection) :=
  let detect := filter (fun d => (dcls_pred d =? label)%nat) detections in
  nms_while (length detect) detect.

(** The [for label in labels] loop, appending to [keep_boxes]. *)
Fixpoint nms_labels (detections : list detection) (labels : list nat) : result (list detection) :=
  match labels with
  | [] => Ok []
  | label :: rest =>
      k <- nms_label detections label ;;
      ks <- nms_labels detections rest ;;
      Ok (k ++ ks)
  end.

(** The non-maximum suppression of one image, from [detections] on. *)
Definition nms (detections : list detection) : result (list detection) :=
  let labels := unique (map dcls_pred detections) in
  keep_boxes <- nms_labels detections labels ;;
  Ok (firstn max_det keep_boxes).

Variable conf_thres : R.

Definition score (c : candidate) : result R :=
  m <- max_dim (ccls c) ;; Ok (cconf c * fst m).

Definition to_detection (c : candidate) : result detection :=
  m <- max_dim (ccls c) ;;
  Ok {| dbox := cbox c; dconf := cconf c; dcls_conf := fst m; dcls_pred := snd m |}.

(** The rows that passed the confidence filter, up to the start of the
    suppression: sort by score, cap, class maximum. *)
Definition prepare (image_pred : list candidate) : result (list detection) :=
  scored <- mapM (fun c => s <- score c ;; Ok (c, s)) image_pred ;;
  let image_pred := map fst (sort_desc snd scored) in
  let image_pred := firstn max_nms image_pred in
  mapM to_detection image_pred.

(** The body of [for batch, image_pred in enumerate(predictions)]; an image
    with no row left keeps the empty [output[batch]]. *)
Definition post_process_image (image_pred : list candidate) : result (list detection) :=
  let image_pred := filter (fun c => Rgeb (cconf c) conf_thres) image_pred in
  match image_pred with
  | [] => Ok []
  | _ => detections <- prepare image_pred ;; nms detections
  end.

(** The first loop: rescale the box of every row to the image size, drop
    column 5, and regroup the rows of each scale by
    [pred.view(batch_size, -1, pred_dim)]. *)
Definition rescale (img_size : R) (g : nat) (r : raw_row) : candidate :=
  let k := img_size / INR g in
  {| cbox := {| bx := bx (rbox_ r) * k; by_ := by_ (rbox_ r) * k;
                bw := bw (rbox_ r) * k; bh := bh (rbox_ r) * k;
                ba := ba (rbox_ r) |};
     cconf := rconf r; ccls := rcls r |}.

(** [n] consecutive groups of [k] rows. *)
Fixpoint chunks {A : Type} (k n : nat) (l : list A) : list (list A) :=
  match n with
  | O => []
  | S n' => firstn k l :: chunks k n' (skipn k l)
  end.

(** [t.view(batch_size, -1, pred_dim)] on the rows of one scale: the rows
    in memory order, cut into [batch_size] groups of equal length; it
    raises when there is no such cut. *)
Definition view {A : Type} (batch_size : nat) (rows : list A) : result (list (list A)) :=
  if (batch_size =? 0)%nat then Err RuntimeError
  else if negb (length rows mod batch_size =? 0)%nat then Err RuntimeError
  else Ok (chunks (length rows / batch_size) batch_size rows).

Definition scale_rows (img_size : R) (batch_size : nat) (s : scale_pred)
  : result (list (list candidate)) :=
  view batch_size (map (rescale img_size (grid s)) (concat (images s))).

(** [torch.cat(predictions_, 1)[batch]] *)
Definition image_rows (scales : list (list (list candidate))) (batch : nat) : list candidate :=
  concat (map (fun rows => nth batch rows []) scales).

Definition post_process (predictions : list scale_pred) (img_size : R)
  : result (list (list detection)) :=
  match predictions with
  | [] => Err IndexError
  | first :: _ =>
      let batch_size := length (images first) in
      scales <- mapM (scale_rows img_size batch_size) predictions ;;
      mapM (fun batch => post_process_image (image_rows scales batch)) (seq 0 batch_size)
  end.

End Suppression.

End NMS.

(** ** [lib/loss.py] *)

(** Indices [(batch, anchor, grid_y, grid_x)] of the dense tensors of
    [build_targets], and the tensors as functions of the index. *)
Definition idx : Type := (nat * nat * nat * nat)%type.

Definition idx_eqb (i j : idx) : bool :=
  let '(a, b, c, d) := i in
  let '(a', b', c', d') := j in
  ((a =? a') && (b =? b') && (c =? c') && (d =? d'))%nat.

Definition upd {A : Type} (t : idx -> A) (i : idx) (v : A) : idx -> A :=
  fun j => if idx_eqb j i then v else t j.

(** [t[b, n, gj, gi] = vals] with index tensors: the rows are written in
    order, so that the last of two colliding rows stays. *)
Fixpoint index_put {A : Type} (t : idx -> A) (idxs : list idx) (vals : list A) : idx -> A :=
  match idxs, vals with
  | i :: idxs', v :: vals' => index_put (upd t i v) idxs' vals'
  | _, _ => t
  end.

(** [x.long()]: truncation towards zero. *)
Definition Rtrunc (x : R) : Z :=
  if Rlt_dec x 0 then (- Int_part (- x))%Z else Int_part x.

(** A row [(batch_index, class_id, cx, cy, w, h, theta)] of [target]; the
    two indices are stored as integral floats and read back by [.long()]. *)
Record gt : Type := mkgt { gb : nat; glabel : nat; gx : R; gy : R; gw : R; gh : R; ga : R }.

(** A row [(w, h, theta)] of [masked_anchors]. *)
Record anchor : Type := mkanchor { aw : R; ah : R; aa : R }.

Fixpoint map2 {A B C : Type} (f : A -> B -> C) (l : list A) (l' : list B) : list C :=
  match l, l' with
  | x :: r, y :: r' => f x y :: map2 f r r'
  | _, _ => []
  end.

Fixpoint set_nth {A : Type} (n : nat) (v : A) (l : list A) : list A :=
  match n, l with
  | O, _ :: r => v :: r
  | S n', x :: r => x :: set_nth n' v r
  | _, [] => []
  end.

Module Loss.

Inductive reduction : Type := none | mean | sum.

(** What a loss function returns: a 0-dimensional tensor after a
    reduction, a 1-dimensional one otherwise. *)
Inductive tensor : Type :=
| Scalar (v : R)
| Vector (l : list R).

Definition reduce (r : reduction) (l : list R) : tensor :=
  match r with
  | none => Vector l
  | mean => Scalar (Rsum l / INR (length l))
  | sum => Scalar (Rsum l)
  end.

(** [acc += x] for [acc] of shape [1]: the right-hand side must broadcast
    to that shape. *)
Definition iadd (acc : R) (x : tensor) : result R :=
  match x with
  | Scalar v => Ok (acc + v)
  | Vector [v] => Ok (acc + v)
  | Vector _ => Err RuntimeError
  end.

(** [F.binary_cross_entropy(inputs, targets, reduction='none')]; the
    logarithms are clamped at [-100]. *)
Definition log_clamp (x : R) : R :=
  if Rle_dec x 0 then -100 else Rmax (ln x) (-100).

Definition bce (x t : R) : R := - (t * log_clamp x + (1 - t) * log_clamp (1 - x)).

Definition binary_cross_entropy (inputs targets : list R) : result (list R) :=
  if negb (length inputs =? length targets)%nat then Err ValueError
  else if negb (forallb (fun x => Rgeb x 0 && Rgeb 1 x) inputs) then Err RuntimeError
  else Ok (map2 bce inputs targets).

(** [F.smooth_l1_loss(x, y, reduction="none")] on one element. *)
Definition smooth_l1 (x y : R) : R :=
  let d := Rabs (x - y) in
  if Rlt_dec d 1 then 0.5 * d * d else d - 0.5.

Record FocalLoss : Type := mkFocal { alpha : R; gamma : nat; reduction_ : reduction }.

(** [FocalLoss.forward] *)
Definition forward (self : FocalLoss) (inputs targets : list R) : result tensor :=
  loss <- binary_cross_entropy inputs targets ;;
  let scaled :=
    map2 (fun l xt =>
            let '(x, t) := xt in
            let p_t := t * x + (1 - t) * (1 - x) in
            let alpha_factor := t * alpha self + (1 - t) * (1 - alpha self) in
            let modulating_factor := (1.0 - p_t) ^ gamma self in
            l * (alpha_factor * modulating_factor))
         loss (combine inputs targets) in
  Ok (reduce (reduction_ self) scaled).

(** [torch.clamp(x, min=-1.0, max=1.0)] *)
Definition clamp11 (x : R) : R := Rmin (Rmax x (-1)) 1.

(** [bbox_xywha_ciou] on one pair of rows. *)
Definition ciou_pair (pred_box target_box : rbox) : R * R :=
  (* xywha -> xyxya *)
  let px1 := bx pred_box - bw pred_box / 2 in
  let py1 := by_ pred_box - bh pred_box / 2 in
  let px2 := bx pred_box + bw pred_box / 2 in
  let py2 := by_ pred_box + bh pred_box / 2 in
  let tx1 := bx target_box - bw target_box / 2 in
  let ty1 := by_ target_box - bh target_box / 2 in
  let tx2 := bx target_box + bw target_box / 2 in
  let ty2 := by_ target_box + bh target_box / 2 in
  let w1 := px2 - px1 in
  let h1 := py2 - py1 in
  let w2 := tx2 - tx1 in
  let h2 := ty2 - ty1 in
  let area1 := w1 * h1 in
  let area2 := w2 * h2 in
  let center_x1 := (px2 + px1) / 2 in
  let center_y1 := (py2 + py1) / 2 in
  let center_x2 := (tx2 + tx1) / 2 in
  let center_y2 := (ty2 + ty1) / 2 in
  let inter_x := clamp_min0 (Rmin px2 tx2 - Rmax px1 tx1) in
  let inter_y := clamp_min0 (Rmin py2 ty2 - Rmax py1 ty1) in
  let inter_area := inter_x * inter_y in
  let inter_diag := (center_x2 - center_x1) ^ 2 + (center_y2 - center_y1) ^ 2 in
  let outer_x := clamp_min0 (Rmax px2 tx2 - Rmin px1 tx1) in
  let outer_y := clamp_min0 (Rmax py2 ty2 - Rmin py1 ty1) in
  let outer_diag := outer_x ^ 2 + outer_y ^ 2 in
  let union := area1 + area2 - inter_area in
  let u := inter_diag / (outer_diag + 1e-15) in
  let iou := inter_area / (union + 1e-15) in
  let v := (4 / (PI ^ 2)) * (atan (w2 / h2) - atan (w1 / h1)) ^ 2 in
  let S := 1 - iou in
  let alpha := v / (S + v) in
  let ciou_loss := clamp11 (iou - (u + alpha * v)) in
  let angle_factor := Rabs (cos (ba pred_box - ba target_box)) in
  let skew_iou := iou * angle_factor in
  (skew_iou, ciou_loss).

(** [bbox_xywha_ciou(pred_boxes, target_boxes)]: the pair of tensors
    [(skew_iou, ciou_loss)]. *)
Definition bbox_xywha_ciou (pred_boxes target_boxes : list rbox) : result (list R * list R) :=
  if negb (length pred_boxes =? length target_boxes)%nat then Err AssertionError
  else
    let rows := map2 ciou_pair pred_boxes target_boxes in
    Ok (map fst rows, map snd rows).

(** The tensors returned by [build_targets]. *)
Record targets : Type := mktargets {
  iou_scores : idx -> R;
  skew_iou : idx -> R;
  ciou_loss : idx -> R;
  class_mask : idx -> R;
  obj_mask : idx -> bool;
  noobj_mask : idx -> bool;
  ta : idx -> R;
  tcls : idx -> list R;
  tconf : idx -> R
}.

Record loss_items : Type := mkitems {
  item_loss : R; item_reg_loss : R; item_conf_loss : R; item_cls_loss : R
}.

Section ComputeLoss.

(** [anchor_wh_iou] of [lib/utils.py]. *)
Variable anchor_wh_iou : R * R -> R * R -> R.

(** The fields of [self] and the shape [nB, nA, nG, nG, nC] of [pred_cls];
    [nA] is the number of rows of [masked_anchors]. *)
Variable masked_anchors : list anchor.
Variable stride : R.
Variable ignore_thresh : R.
Variables nB nG nC : nat.
Variable self_reduction : reduction.
Variables lambda_coord lambda_conf_scale lambda_cls_scale : R.

Definition nA : nat := length masked_anchors.

Definition in_bounds (i : idx) : bool :=
  let '(b, n, gj, gi) := i in
  ((b <? nB) && (n <? nA) && (gj <? nG) && (gi <? nG))%nat.

(** A row of [target_boxes]. *)
Definition target_box (t : gt) : rbox :=
  {| bx := gx t * INR nG; by_ := gy t * INR nG;
     bw := gw t * INR nG; bh := gh t * INR nG; ba := ga t |}.

(** The column of [arious] and of [offset] of one ground truth. *)
Definition anchor_ious (tb : rbox) : list R :=
  map (fun a => anchor_wh_iou (aw a, ah a) (bw tb, bh tb) * Rabs (cos (aa a - ba tb)))
      masked_anchors.

Definition angle_offset (tb : rbox) : list R :=
  map (fun a => Rabs (aa a - ba tb)) masked_anchors.

(** [arious.max(0)] on one column. *)
Definition best_n (tb : rbox) : nat :=
  match anchor_ious tb with
  | [] => O
  | x :: rest => snd (max_from x 0 1 rest)
  end.

(** [torch.clamp(x.long(), 0, nG - 1)] *)
Definition cell (x : R) : nat :=
  Z.to_nat (Z.min (Z.max (Rtrunc x) 0) (Z.of_nat nG - 1)).

(** The index [(b, best_n, gj, gi)] of one ground truth. *)
Definition gt_idx (t : gt) : idx :=
  let tb := target_box t in
  (gb t, best_n tb, cell (by_ tb), cell (bx tb)).

(** [t[b, mask, gj, gi] = v] with a boolean mask over the anchors. *)
Definition mask_put {A : Type} (t : idx -> A) (b : nat) (mask : list bool) (gj gi : nat) (v : A)
  : idx -> A :=
  let rows := map (fun n => (b, n, gj, gi)) (select mask (seq 0 (length mask))) in
  index_put t rows (map (fun _ => v) rows).

(** One pass of the loop over [zip(arious.t(), offset.t())]. *)
Definition ignore_step (noobj_mask : idx -> R) (t : gt) : idx -> R :=
  let tb := target_box t in
  let '(b, _, gj, gi) := gt_idx t in
  let anchor_ious := anchor_ious tb in
  let angle_offset := angle_offset tb in
  let noobj_mask :=
    mask_put noobj_mask b (map (fun v => Rgtb v ignore_thresh) anchor_ious) gj gi 0 in
  mask_put noobj_mask b
    (map2 (fun v o => Rgtb v 0.4 && Rltb o (PI / 12)) anchor_ious angle_offset) gj gi 0.

Definition to_bool (t : idx -> R) : idx -> bool :=
  fun i => if Req_dec_T (t i) 0 then false else true.

(** [build_targets]; [argmax] over an empty class dimension raises, also
    for an empty [target]. *)
Definition build_targets (pred_boxes : idx -> rbox) (pred_cls : idx -> list R)
  (target : list gt) : result targets :=
  match masked_anchors with
  | [] => Err RuntimeError
  | _ =>
      let target_boxes := map target_box target in
      let idxs := map gt_idx target in
      if negb (forallb in_bounds idxs) then Err IndexError
      else if negb (forallb (fun t => (glabel t <? nC)%nat) target) then Err IndexError
      else
        let ones := map (fun _ => 1) target in
        let zeros := map (fun _ => 0) target in
        let obj_mask := index_put (fun _ => 0) idxs ones in
        let noobj_mask := index_put (fun _ => 1) idxs zeros in
        let noobj_mask := fold_left ignore_step target noobj_mask in
        let ta := index_put (fun _ => 0) idxs
                    (map (fun t => ga t - aa (nth (best_n (target_box t)) masked_anchors
                                                  (mkanchor 0 0 0))) target) in
        let tcls := fold_left (fun tcls t => upd tcls (gt_idx t)
                                               (set_nth (glabel t) 1 (tcls (gt_idx t))))
                              target (fun _ => repeat 0 nC) in
        let tconf := obj_mask in
        r <- bbox_xywha_ciou (map pred_boxes idxs) target_boxes ;;
        let '(iou, ciou) := r in
        let img_size := stride * INR nG in
        let bbox_loss_scale :=
          map (fun t => 2.0 - 1.0 * (gw t * INR nG) * (gh t * INR nG) / (img_size ^ 2)) target in
        let ciou := map2 (fun s c => s * (1.0 - c)) bbox_loss_scale ciou in
        let skew_iou := index_put (fun _ => 0) idxs (map (fun v => exp (1 - v) - 1) iou) in
        let ciou_loss := index_put (fun _ => 0) idxs ciou in
        cm <- (if (nC =? 0)%nat then Err IndexError
               else mapM (fun t => m <- max_dim (pred_cls (gt_idx t)) ;;
                                   Ok (if (snd m =? glabel t)%nat then 1 else 0)) target) ;;
        let class_mask := index_put (fun _ => 0) idxs cm in
        let iou_scores := index_put (fun _ => 0) idxs iou in
        Ok {| iou_scores := iou_scores; skew_iou := skew_iou; ciou_loss := ciou_loss;
              class_mask := class_mask; obj_mask := to_bool obj_mask;
              noobj_mask := to_bool noobj_mask; ta := ta; tcls := tcls; tconf := tconf |}
  end.

(** The indices of a tensor of shape [nB, nA, nG, nG] in row-major order,
    and [t[mask]]. *)
Definition cells : list idx :=
  flat_map (fun b => flat_map (fun n => flat_map (fun gj => map (fun gi => (b, n, gj, gi))
    (seq 0 nG)) (seq 0 nG)) (seq 0 nA)) (seq 0 nB).

Definition masked {A : Type} (t : idx -> A) (mask : idx -> bool) : list A :=
  map t (filter mask cells).

(** [ComputeLoss.__call__], from the call of [build_targets] on: the total
    loss and [loss_items]. *)
Definition ComputeLoss_call (pred_boxes : idx -> rbox) (pred_a pred_conf : idx -> R)
  (pred_cls : idx -> list R) (target : list gt) : result (R * loss_items) :=
  T <- build_targets pred_boxes pred_cls target ;;
  let FOCAL := {| alpha := 0.25; gamma := 2; reduction_ := self_reduction |} in
  terms <-
    (if (0 <? length target)%nat then
       let iou_const := masked (skew_iou T) (obj_mask T) in
       let angle_loss := map2 smooth_l1 (masked pred_a (obj_mask T)) (masked (ta T) (obj_mask T)) in
       let reg_vector := map2 Rplus angle_loss (masked (ciou_loss T) (obj_mask T)) in
       let reg_magnitude := map2 Rdiv iou_const reg_vector in
       reg_loss <- iadd 0 (reduce mean (map2 Rmult reg_magnitude reg_vector)) ;;
       f <- forward FOCAL (masked pred_conf (obj_mask T)) (masked (tconf T) (obj_mask T)) ;;
       conf_loss <- iadd 0 f ;;
       c <- binary_cross_entropy (concat (masked pred_cls (obj_mask T)))
                                 (concat (masked (tcls T) (obj_mask T))) ;;
       cls_loss <- iadd 0 (reduce self_reduction c) ;;
       Ok (reg_loss, conf_loss, cls_loss)
     else Ok (0, 0, 0)) ;;
  let '(reg_loss, conf_loss, cls_loss) := terms in
  f <- forward FOCAL (masked pred_conf (noobj_mask T)) (masked (tconf T) (noobj_mask T)) ;;
  conf_loss <- iadd conf_loss f ;;
  let reg_loss := lambda_coord * reg_loss in
  let conf_loss := lambda_conf_scale * conf_loss in
  let cls_loss := lambda_cls_scale * cls_loss in
  let loss := reg_loss + conf_loss + cls_loss in
  Ok (loss, {| item_loss := loss; item_reg_loss := reg_loss;
               item_conf_loss := conf_loss; item_cls_loss := cls_loss |}).

End ComputeLoss.

End Loss.

(** ** Notions used to state the properties *)

(** The verdict of the gated overlap test on one candidate: it passes the
    prefilter and its exact ratio exceeds the threshold. *)
Definition flagged (G : Shapely) (nms_thres : R) (best d : rbox) : bool :=
  Rgtb (PostProcess.aa_iou best d) 0.3 &&
  match PostProcess.get_iou G (PostProcess.rbox2polygon best) (PostProcess.rbox2polygon d) with
  | Ok v => Rgtb v nms_thres
  | Err _ => false
  end.

(** The gated test of [best] against [rest] runs and reports no overlap. *)
Definition quiet (G : Shapely) (nms_thres : R) (best : detection) (rest : list detection) : Prop :=
  rest = [] \/
  PostProcess.iou G (dbox best) (map dbox rest) nms_thres = Ok (map (fun _ => false) rest).

(** No row of the list is reported as overlapping a row before it. *)
Fixpoint settled (G : Shapely) (nms_thres : R) (l : list detection) : Prop :=
  match l with
  | [] => True
  | d :: rest => quiet G nms_thres d rest /\ settled G nms_thres rest
  end.

(** The sort key of a detection, and the order of the rows kept for one
    image: by ascending class, rows of one class by descending score. *)
Definition dscore (d : detection) : R := dconf d * dcls_conf d.

Definition ordered (a b : detection) : Prop :=
  (dcls_pred a <= dcls_pred b)%nat /\ (dcls_pred a = dcls_pred b -> dscore b <= dscore a).

(** Two rows with the same confidence and class entries. *)
Definition same_tag (a b : detection) : Prop :=
  dconf a = dconf b /\ dcls_conf a = dcls_conf b /\ dcls_pred a = dcls_pred b.

(** The complete-IoU term as the specification words it, on the centre
    form of the two boxes: overlap ratio, squared centre distance over the
    squared diagonal of the enclosing box, and aspect-ratio term. *)
Definition ciou_spec (p t : rbox) : R :=
  let iou := PostProcess.aa_iou p t in
  let center_distance2 := (bx t - bx p) ^ 2 + (by_ t - by_ p) ^ 2 in
  let '(px1, py1, px2, py2) := PostProcess.xywh2xyxy p in
  let '(tx1, ty1, tx2, ty2) := PostProcess.xywh2xyxy t in
  let enclosing_diagonal2 :=
    clamp_min0 (Rmax px2 tx2 - Rmin px1 tx1) ^ 2
    + clamp_min0 (Rmax py2 ty2 - Rmin py1 ty1) ^ 2 in
  let u := center_distance2 / (enclosing_diagonal2 + 1e-15) in
  let v := (4 / (PI ^ 2)) * (atan (bw t / bh t) - atan (bw p / bh p)) ^ 2 in
  let alpha := v / ((1 - iou) + v) in
  Loss.clamp11 (iou - (u + alpha * v)).

(** The polygon operations when every ring is accepted as valid. *)
Definition lenient : Shapely := {|
  is_valid := fun _ => true;
  intersects := intersects Convex.shapely;
  intersection_area := intersection_area Convex.shapely;
  union_area := union_area Convex.shapely
|}.

(** Modelled from the spec: [anchor_wh_iou] of [lib/utils.py] is not among
    the sources; it is the axis-aligned overlap ratio of an anchor and a
    ground truth given by width and height, both centred at the origin,
    the denominator guarded by 1e-15. *)
Definition anchor_wh_iou_model (wh1 wh2 : R * R) : R :=
  PostProcess.aa_iou (mkbox 0 0 (fst wh1) (snd wh1) 0) (mkbox 0 0 (fst wh2) (snd wh2) 0).

(** The tensors before any assignment. *)
Definition empty_targets : Loss.targets := {|
  Loss.iou_scores := fun _ => 0; Loss.skew_iou := fun _ => 0; Loss.ciou_loss := fun _ => 0;
  Loss.class_mask := fun _ => 0; Loss.obj_mask := fun _ => false;
  Loss.noobj_mask := fun _ => true; Loss.ta := fun _ => 0; Loss.tcls := fun _ => [];
  Loss.tconf := fun _ => 0
|}.

(** The focal term of one cell whose target is 0. *)
Definition noobj_term (p : R) : R :=
  Loss.bce p 0 * ((0 * 0.25 + (1 - 0) * (1 - 0.25)) * (1.0 - (0 * p + (1 - 0) * (1 - p))) ^ 2).

(** A candidate row whose decoding is the detection [d]. *)
Definition encodes (c : candidate) (d : detection) : Prop :=
  cbox c = dbox d /\ cconf c = dconf d /\ max_dim (ccls c) = Ok (dcls_conf d, dcls_pred d).

(** ** Closed inputs used in the examples *)

(** A 10 x 2 box, the same rectangle given as a 2 x 10 box turned by a
    quarter, and a box far from both. *)
Definition boxA : rbox := mkbox 0 0 10 2 0.
Definition boxB : rbox := mkbox 0 0 2 10 (PI / 2).
Definition boxFar : rbox := mkbox 100 0 10 2 0.

Definition detA : detection := mkdet boxA 0.9 1 0.
Definition detA' : detection := mkdet boxA 0.6 1 0.
Definition detB : detection := mkdet boxB 0.8 1 0.
Definition detFar : detection := mkdet boxFar 0.8 1 0.

(** The axis-parallel 10 x 10 square centred at [(x, 0)] and its corners
    in the order of [cv.boxPoints]. *)
Definition sq (x : R) : rbox := mkbox x 0 10 10 0.

Definition sq_polygon (x : R) : polygon :=
  [(x - 5, 5); (x - 5, -5); (x + 5, -5); (x + 5, 5)].

(** Candidates of a single class and the detections they decode to. *)
Definition candA : candidate := mkcand (sq 0) 1 [0.9].
Definition candB : candidate := mkcand (sq 4) 1 [0.8].
Definition candC : candidate := mkcand (sq 6) 1 [0.7].
Definition candM : candidate := mkcand (sq 2) 1 [0.9].
Definition candFar : candidate := mkcand (sq 100) 1 [0.8].

Definition dA : detection := mkdet (sq 0) 1 0.9 0.
Definition dB : detection := mkdet (sq 4) 1 0.8 0.
Definition dC : detection := mkdet (sq 6) 1 0.7 0.
Definition dM : detection := mkdet (sq 2) 1 0.9 0.
Definition dM2 : detection := mkdet (sq 4) 1 0.9 0.
Definition dFar : detection := mkdet (sq 100) 1 0.8 0.

(** Two upright 2 x 4 rectangles side by side, given as 4 x 2 boxes
    turned by a quarter. *)
Definition boxP : rbox := mkbox 0 0 4 2 (PI / 2).
Definition boxT : rbox := mkbox 3 0 4 2 (PI / 2).

(** Degenerate boxes: a point and a segment. *)
Definition boxZ : rbox := mkbox 0 0 0 0 0.
Definition boxW : rbox := mkbox 0 0 0 10 0.

(** One image, one anchor, a 1 x 1 grid, one class and one ground truth;
    the prediction of the cell lies away from the ground truth. *)
Definition anchors1 : list anchor := [mkanchor 1 1 0].
Definition gt1 : gt := mkgt 0 0 0.5 0.5 1 1 0.
Definition pred_boxes1 : idx -> rbox := fun _ => mkbox 10 10 1 1 0.
Definition pred_cls1 : idx -> list R := fun _ => [1].

Definition build1 : result Loss.targets :=
  Loss.build_targets anchor_wh_iou_model anchors1 32 0.5 1 1 1 pred_boxes1 pred_cls1 [gt1].

Definition targets1 : Loss.targets :=
  match build1 with
  | Ok T => T
  | Err _ => empty_targets
  end.

(** ** Further functions of the two files and of [train.py] *)

(** [skewiou_2(box1, box2)]: the matrix of the pairwise ratios; the
    assertion reads [box1[0]] and [box2[0]]. *)
Definition skewiou_2 (G : Shapely) (box1 box2 : list rbox) : result (list (list R)) :=
  match box1, box2 with
  | [], _ => Err IndexError
  | _, [] => Err IndexError
  | _, _ => mapM (fun b1 => PostProcess.skewiou G b1 box2) box1
  end.

Module Train.

(** [fitness(x)]: [(x * w).sum(0)] for a one-dimensional [x]; an array of
    one entry is broadcast against the four weights, any other length
    than 1 or 4 cannot be. *)
Definition w : list R := [0.0; 0.0; 0.1; 0.9].

Definition fitness (x : list R) : result R :=
  match x with
  | [x0] => Ok (Rsum (map (fun wi => x0 * wi) w))
  | [_; _; _; _] => Ok (Rsum (map2 Rmult x w))
  | _ => Err ValueError
  end.

End Train.

(** The ignore band of [build_targets]: anchor [n] at the cell of the
    ground truth [t] has combined overlap above [ignore_thresh], or above
    0.4 with an angle offset below pi/12. *)
Definition in_band (anchor_wh_iou : R * R -> R * R -> R) (masked_anchors : list anchor)
  (ignore_thresh : R) (nG : nat) (t : gt) (i : idx) : Prop :=
  exists n a,
    nth_error masked_anchors n = Some a /\
    i = (gb t, n, Loss.cell nG (by_ (Loss.target_box nG t)),
         Loss.cell nG (bx (Loss.target_box nG t))) /\
    let tb := Loss.target_box nG t in
    let anchor_iou := anchor_wh_iou (aw a, ah a) (bw tb, bh tb) * Rabs (cos (aa a - ba tb)) in
    anchor_iou > ignore_thresh \/ (anchor_iou > 0.4 /\ Rabs (aa a - ba tb) < PI / 12).

(** The decoding of a candidate carries the entries of the detection [d]
    that the suppression leaves alone: angle, confidence, class. *)
Definition decoded_from (cands : list candidate) (d : detection) : Prop :=
  exists c d0, In c cands /\ NMS.to_detection c = Ok d0 /\
               same_tag d d0 /\ ba (dbox d) = ba (dbox d0).

(** The call of [build1] on a batch of two images: no ground truth lies in
    the second image. *)
Definition build2 : result Loss.targets :=
  Loss.build_targets anchor_wh_iou_model anchors1 32 0.5 2 1 1 pred_boxes1 pred_cls1 [gt1].

Definition targets2 : Loss.targets :=
  match build2 with
  | Ok T => T
  | Err _ => empty_targets
  end.

(** ** The arithmetic of the merge

    Lines 148-150 of [post_process] are given once for an arithmetic and
    read in two: the exact one of the real numbers, and IEEE 754 binary32
    with rounding to nearest even, the arithmetic of a float32 tensor. *)
Record Arith : Type := {
  carrier : Type;
  a_zero : carrier;
  a_add : carrier -> carrier -> carrier;
  a_mul : carrier -> carrier -> carrier;
  a_div : carrier -> carrier -> carrier
}.

Definition exact : Arith :=
  {| carrier := R; a_zero := 0; a_add := Rplus; a_mul := Rmult; a_div := Rdiv |}.

Definition binary32 : Arith :=
  {| carrier := SpecFloat.spec_float;
     a_zero := SpecFloat.S754_zero false;
     a_add := SpecFloat.SFadd 24 128;
     a_mul := SpecFloat.SFmul 24 128;
     a_div := SpecFloat.SFdiv 24 128 |}.

(** [t.sum()]: the entries in order (torch leaves the order of a reduction
    open; the sum of no entry and of one entry do not depend on it). *)
Definition a_sum (A : Arith) (l : list (carrier A)) : carrier A :=
  fold_left (a_add A) l (a_zero A).

(** One of the four entries of [best_bbox] after
    [best_bbox[:4] = best_bbox[:4] * best_bbox[5] + (weights * throwayay[:, :4]).sum(0)]
    and [best_bbox[:4] /= (best_bbox[5] + weights.sum())]: [x] is the
    entry, [c] the confidence [best_bbox[5]], [throwayay] the rows as
    pairs (entry, confidence). *)
Definition merge_entry (A : Arith) (x c : carrier A)
  (throwayay : list (carrier A * carrier A)) : carrier A :=
  let weights := map snd throwayay in
  a_div A (a_add A (a_mul A x c)
                   (a_sum A (map (fun t => a_mul A (snd t) (fst t)) throwayay)))
          (a_add A c (a_sum A weights)).

(** The float32 numbers 3.0 = 12582912 * 2^-22 and the one nearest to 0.9,
    15099494 * 2^-24. *)
Definition three32 : carrier binary32 := SpecFloat.S754_finite false 12582912 (-22).
Definition nine_tenths32 : carrier binary32 := SpecFloat.S754_finite false 15099494 (-24).

(** A second run on rows that no overlap test flags: the last row of a
    class is stored as it is, every other row passes through the merge
    with no suppressed row. *)
Fixpoint rerun (l : list detection) : list detection :=
  match l with
  | [] => []
  | d :: rest =>
      match rest with
      | d' :: _ => if (dcls_pred d' =? dcls_pred d)%nat then NMS.merge d [] else d
      | [] => d
      end :: rerun rest
  end.

(** * Theorems *)

(** ** Comparisons and masks *)

Lemma Rgtb_true (x y : R) : Rgtb x y = true <-> y < x.
Proof. unfold Rgtb; destruct (Rlt_dec y x); split; intros; try easy; lra. Qed.

Lemma Rgtb_false (x y : R) : Rgtb x y = false <-> x <= y.
Proof. unfold Rgtb; destruct (Rlt_dec y x); split; intros; try easy; lra. Qed.

Lemma Rgeb_true (x y : R) : Rgeb x y = true <-> y <= x.
Proof. unfold Rgeb; destruct (Rle_dec y x); split; intros; try easy; lra. Qed.

Lemma Rgeb_false (x y : R) : Rgeb x y = false <-> x < y.
Proof. unfold Rgeb; destruct (Rle_dec y x); split; intros; try easy; lra. Qed.

(** Decide the comparisons of closed real expressions in the goal,
    innermost first. *)
Ltac no_dec t :=
  lazymatch t with
  | context [Rle_dec _ _] => fail
  | context [Rlt_dec _ _] => fail
  | context [Req_dec_T _ _] => fail
  | _ => idtac
  end.

Ltac rdec :=
  repeat match goal with
  | |- context [Rlt_dec ?a ?b] =>
      no_dec a; no_dec b;
      destruct (Rlt_dec a b); [ try (exfalso; lra) | try (exfalso; lra) ]
  | |- context [Rle_dec ?a ?b] =>
      no_dec a; no_dec b;
      destruct (Rle_dec a b); [ try (exfalso; lra) | try (exfalso; lra) ]
  | |- context [Req_dec_T ?a ?b] =>
      no_dec a; no_dec b;
      destruct (Req_dec_T a b); [ try (exfalso; lra) | try (exfalso; lra) ]
  end.

(** Evaluate the boolean comparisons of closed real expressions. *)
Ltac rbool :=
  repeat match goal with
  | |- context [Rgtb ?a ?b] =>
      first [ replace (Rgtb a b) with true by (symmetry; apply Rgtb_true; lra)
            | replace (Rgtb a b) with false by (symmetry; apply Rgtb_false; lra) ]
  | |- context [Rgeb ?a ?b] =>
      first [ replace (Rgeb a b) with true by (symmetry; apply Rgeb_true; lra)
            | replace (Rgeb a b) with false by (symmetry; apply Rgeb_false; lra) ]
  end.

Lemma select_map {A B : Type} (f : A -> B) (mask : list bool) (l : list A) :
  select mask (map f l) = map f (select mask l).
Proof.
  revert l; induction mask as [|m mask IH]; intros [|x l]; simpl; auto.
  destruct m; simpl; now rewrite IH.
Qed.

Lemma select_all_false {A : Type} (mask : list bool) (l : list A) :
  existsb (fun m => m) mask = false -> select mask l = [].
Proof.
  revert l; induction mask as [|m mask IH]; intros [|x l]; simpl; auto.
  destruct m; simpl; try discriminate. auto.
Qed.

Lemma select_negb_all_false {A : Type} (mask : list bool) (l : list A) :
  length mask = length l ->
  existsb (fun m => m) mask = false -> select (map negb mask) l = l.
Proof.
  revert l; induction mask as [|m mask IH]; intros [|x l]; simpl; auto; try discriminate.
  intros Hl. destruct m; simpl; try discriminate. intros H. f_equal. apply IH; auto.
Qed.

Lemma existsb_false_in (mask : list bool) :
  existsb (fun m => m) mask = false -> forall m, In m mask -> m = false.
Proof.
  intros H m Hm. destruct m; [|reflexivity].
  assert (E : existsb (fun m => m) mask = true) by (apply existsb_exists; now exists true).
  congruence.
Qed.

Lemma select_filter {A : Type} (f : A -> bool) (l : list A) :
  select (map f l) l = filter f l.
Proof. induction l as [|x l IH]; simpl; auto. destruct (f x); now rewrite IH. Qed.

(** The masked assignment of [iou]: the entries outside the mask stay
    [false], the others take the successive values. *)
Lemma scatter_false (mask : list bool) {A : Type} (l : list A) (vals : list bool) :
  length mask = length l -> length mask = length vals ->
  scatter mask (map (fun _ => false) l) (select mask vals) = map2 andb mask vals.
Proof.
  revert l vals; induction mask as [|m mask IH]; intros [|x l] [|v vals]; simpl;
    auto; try discriminate.
  intros Hl Hv. injection Hl as Hl. injection Hv as Hv.
  destruct m; simpl; f_equal; apply IH; auto.
Qed.

(** ** The polygons of [cv.boxPoints] *)

Lemma rbox2polygon_eq (b : rbox) :
  PostProcess.rbox2polygon b =
  let c := cos (ba b) / 2 in
  let s := sin (ba b) / 2 in
  let p0 := (bx b - s * bh b - c * bw b, by_ b + c * bh b - s * bw b) in
  let p1 := (bx b + s * bh b - c * bw b, by_ b - c * bh b - s * bw b) in
  [ p0; p1; (2 * bx b - fst p0, 2 * by_ b - snd p0); (2 * bx b - fst p1, 2 * by_ b - snd p1) ].
Proof.
  unfold PostProcess.rbox2polygon, boxPoints.
  replace (ba b / PI * 180 * PI / 180) with (ba b) by (field; apply PI_neq0).
  replace (cos (ba b) * 0.5) with (cos (ba b) / 2) by lra.
  replace (sin (ba b) * 0.5) with (sin (ba b) / 2) by lra.
  reflexivity.
Qed.

(** ** The overlap test of [iou] *)

Section GatedOverlap.

Variable G : Shapely.

Lemma skewiou_loop_length (g : polygon) (box2 : list rbox) (s : list R) :
  PostProcess.skewiou_loop G g box2 = Ok s -> length s = length box2.
Proof.
  revert s; induction box2 as [|b box2 IH]; simpl; intros s H.
  - now inversion H.
  - destruct (negb (is_valid G g) || negb (is_valid G (PostProcess.rbox2polygon b))); try discriminate.
    destruct (PostProcess.get_iou G g (PostProcess.rbox2polygon b)); try discriminate. simpl in H.
    destruct (PostProcess.skewiou_loop G g box2); try discriminate. simpl in H.
    inversion H; subst. simpl. f_equal. now apply IH.
Qed.

Lemma skewiou_loop_select (g : polygon) (mask : list bool) (box2 : list rbox) (s : list R) :
  PostProcess.skewiou_loop G g box2 = Ok s ->
  PostProcess.skewiou_loop G g (select mask box2) = Ok (select mask s).
Proof.
  revert mask s; induction box2 as [|b box2 IH]; intros mask s H.
  - simpl in H. inversion H; subst. destruct mask as [|[]]; reflexivity.
  - simpl in H.
    destruct (negb (is_valid G g) || negb (is_valid G (PostProcess.rbox2polygon b))) eqn:Hv;
      try discriminate.
    destruct (PostProcess.get_iou G g (PostProcess.rbox2polygon b)) eqn:Hi; try discriminate.
    simpl in H.
    destruct (PostProcess.skewiou_loop G g box2) eqn:Hr; try discriminate. simpl in H.
    inversion H; subst.
    destruct mask as [|m mask]; [reflexivity|].
    destruct m; simpl.
    + rewrite Hv, Hi. simpl. now rewrite (IH mask a0 eq_refl).
    + now apply IH.
Qed.

Lemma skewiou_ok (box1 : rbox) (box2 : list rbox) (s : list R) :
  PostProcess.skewiou G box1 box2 = Ok s ->
  PostProcess.skewiou_loop G (PostProcess.rbox2polygon box1) box2 = Ok s /\ s <> [].
Proof.
  unfold PostProcess.skewiou.
  destruct (PostProcess.skewiou_loop G _ box2) as [l|e]; simpl; try discriminate.
  destruct l; try discriminate. intros H; inversion H; subst. split; [reflexivity|discriminate].
Qed.

Lemma existsb_select_nonempty {A : Type} (mask : list bool) (l : list A) :
  length mask = length l -> existsb (fun m => m) mask = true -> select mask l <> [].
Proof.
  revert l; induction mask as [|m mask IH]; intros [|x l]; simpl; try discriminate.
  intros Hl. destruct m; simpl; [discriminate|]. intros H. apply IH; auto.
Qed.

End GatedOverlap.

Section GatedOverlapSpec.

Variable G : Shapely.

Lemma map2_andb_all_false (mask u : list bool) :
  length mask = length u ->
  existsb (fun m => m) mask = false -> map2 andb mask u = map (fun _ => false) u.
Proof.
  revert u; induction mask as [|m mask IH]; intros [|v u]; simpl; auto; try discriminate.
  intros Hl. injection Hl as Hl. destruct m; simpl; try discriminate.
  intros H. f_equal. now apply IH.
Qed.

Lemma map_const_length {A B C : Type} (c : C) (l : list A) (l' : list B) :
  length l = length l' -> map (fun _ => c) l = map (fun _ => c) l'.
Proof.
  revert l'; induction l as [|x l IH]; intros [|y l']; simpl; auto; try discriminate.
  intros H. injection H as H. f_equal. now apply IH.
Qed.

(** C2 (as amended): when the exact test can be evaluated on all
    candidates, the gated vector is the conjunction of the prefilter
    [aa_iou > 0.3] with the ungated vector: a candidate is reported as
    overlapping iff it passes the prefilter and the exact test. *)
Theorem iou_gated_is_prefilter_and_exact (box1 : rbox) (box2 : list rbox) (nms_thres : R)
  (u : list bool) :
  PostProcess.iou_ungated G box1 box2 nms_thres = Ok u ->
  PostProcess.iou G box1 box2 nms_thres
  = Ok (map2 andb (map (fun b => Rgtb (PostProcess.aa_iou box1 b) 0.3) box2) u).
Proof.
  unfold PostProcess.iou_ungated. intros H.
  destruct (PostProcess.skewiou G box1 box2) as [s|e] eqn:Hs; simpl in H; try discriminate.
  inversion H; subst u; clear H.
  destruct (skewiou_ok G _ _ _ Hs) as [Hloop Hne].
  pose proof (skewiou_loop_length G _ _ _ Hloop) as Hlen.
  unfold PostProcess.iou.
  destruct box2 as [|b0 rest]; [destruct s; [congruence|discriminate]|].
  set (box2 := b0 :: rest) in *.
  rewrite map_map.
  set (mask := map (fun x => Rgtb (PostProcess.aa_iou box1 x) 0.3) box2).
  assert (Hm : length mask = length box2) by (unfold mask; now rewrite length_map).
  destruct (existsb (fun m => m) mask) eqn:He.
  - unfold PostProcess.skewiou.
    rewrite (skewiou_loop_select G _ mask _ _ Hloop). cbn [bind].
    assert (Hsel : select mask s <> []).
    { apply existsb_select_nonempty; auto. congruence. }
    destruct (select mask s) eqn:Hss; [congruence|]. cbn [bind].
    rewrite <- Hss, <- select_map. f_equal.
    apply scatter_false; auto. rewrite length_map. congruence.
  - f_equal. rewrite map2_andb_all_false; auto.
    + apply map_const_length. rewrite length_map. congruence.
    + rewrite length_map. congruence.
Qed.

End GatedOverlapSpec.

(** ** The convex model of the polygon operations *)

Lemma clip_edge_all_inside (a b s : point) (subject : polygon) :
  Convex.inside a b s = true ->
  forallb (Convex.inside a b) subject = true ->
  Convex.clip_edge a b s subject = subject.
Proof.
  revert s; induction subject as [|e rest IH]; intros s Hs H; simpl in *; auto.
  apply andb_true_iff in H as [He Hr]. rewrite He, Hs. simpl. f_equal. now apply IH.
Qed.

Lemma clip_edge_all_outside (a b s : point) (subject : polygon) :
  Convex.inside a b s = false ->
  forallb (fun p => negb (Convex.inside a b p)) subject = true ->
  Convex.clip_edge a b s subject = [].
Proof.
  revert s; induction subject as [|e rest IH]; intros s Hs H; simpl in *; auto.
  apply andb_true_iff in H as [He Hr]. apply negb_true_iff in He.
  rewrite He, Hs. simpl. now apply IH.
Qed.

Lemma forallb_last {A : Type} (f : A -> bool) (l : list A) (d : A) :
  l <> [] -> forallb f l = true -> f (last l d) = true.
Proof.
  induction l as [|x l IH]; [congruence|]. intros _ H. simpl in H.
  apply andb_true_iff in H as [Hx Hl].
  destruct l as [|y l]; [exact Hx|]. apply IH; [discriminate|exact Hl].
Qed.

Lemma clip_by_all_inside (subject : polygon) (e : point * point) :
  forallb (Convex.inside (fst e) (snd e)) subject = true ->
  Convex.clip_by subject e = subject.
Proof.
  intros H. unfold Convex.clip_by. destruct subject as [|p rest]; [reflexivity|].
  apply clip_edge_all_inside; auto. apply forallb_last; [discriminate|exact H].
Qed.

Lemma clip_by_all_outside (subject : polygon) (e : point * point) :
  forallb (fun p => negb (Convex.inside (fst e) (snd e) p)) subject = true ->
  Convex.clip_by subject e = [].
Proof.
  intros H. unfold Convex.clip_by. destruct subject as [|p rest]; [reflexivity|].
  apply clip_edge_all_outside; auto.
  apply negb_true_iff.
  apply (forallb_last (fun p => negb (Convex.inside (fst e) (snd e) p))); [discriminate|exact H].
Qed.

Lemma fold_clip_nil (es : list (point * point)) : fold_left Convex.clip_by es [] = [].
Proof. induction es as [|e es IH]; simpl; auto. Qed.

Lemma point_eq (a b c d : R) : a = c -> b = d -> (a, b) = (c, d).
Proof. congruence. Qed.

Lemma cons_eq {A : Type} (x y : A) (l l' : list A) : x = y -> l = l' -> x :: l = y :: l'.
Proof. congruence. Qed.

(** Equality of two polygons with closed coordinates. *)
Ltac poly_eq := repeat (apply cons_eq; [apply point_eq; lra|]); reflexivity.

(** Evaluate the side tests of a closed polygon against a closed edge. *)
Ltac sides :=
  cbn [forallb fst snd]; unfold Convex.inside, Convex.cross, Rgeb; cbn [fst snd];
  rdec; reflexivity.

(** Clip a closed polygon that lies on one side of the edge. *)
Ltac clip_trivial :=
  repeat match goal with
  | |- context [Convex.clip_by (?p :: ?l) ?e] =>
      first [ rewrite (clip_by_all_inside (p :: l) e) by sides
            | rewrite (clip_by_all_outside (p :: l) e) by sides ]
  | |- context [Convex.clip_by [] ?e] => change (Convex.clip_by [] e) with (@nil point)
  end.

(** Rewrite the polygon of a closed box with a known angle. *)
Ltac polygon_of :=
  rewrite rbox2polygon_eq; cbn [bx by_ bw bh ba fst snd];
  rewrite ?cos_0, ?sin_0, ?cos_PI2, ?sin_PI2; poly_eq.

Lemma polygon_boxA : PostProcess.rbox2polygon boxA = [(-5, 1); (-5, -1); (5, -1); (5, 1)].
Proof. unfold boxA. polygon_of. Qed.

Lemma polygon_boxB : PostProcess.rbox2polygon boxB = [(-5, -1); (5, -1); (5, 1); (-5, 1)].
Proof. unfold boxB. polygon_of. Qed.

Lemma intersection_boxA_boxB :
  Convex.intersection [(-5, 1); (-5, -1); (5, -1); (5, 1)] [(-5, -1); (5, -1); (5, 1); (-5, 1)]
  = [(-5, 1); (-5, -1); (5, -1); (5, 1)].
Proof.
  unfold Convex.intersection, Convex.ccw, Convex.signed_area2.
  cbn [Convex.shoelace fst snd]. rdec.
  cbn [Convex.edges combine app fold_left].
  clip_trivial. reflexivity.
Qed.

Lemma skewiou_boxA_boxB : PostProcess.skewiou Convex.shapely boxA [boxB] = Ok [1].
Proof.
  unfold PostProcess.skewiou, PostProcess.skewiou_loop, PostProcess.get_iou.
  rewrite polygon_boxA, polygon_boxB.
  cbn [is_valid intersects intersection_area union_area Convex.shapely].
  rewrite intersection_boxA_boxB.
  unfold Convex.area, Convex.signed_area2. cbn [Convex.shoelace Convex.nonempty fst snd].
  replace (-5 * -1 - -5 * 1 + (-5 * -1 - 5 * -1 + (5 * 1 - 5 * -1 + (5 * 1 - -5 * 1 + 0))))
    with 40 by lra.
  replace (-5 * -1 - 5 * -1 + (5 * 1 - 5 * -1 + (5 * 1 - -5 * 1 + (-5 * -1 - -5 * 1 + 0))))
    with 40 by lra.
  rewrite (Rabs_pos_eq 40) by lra.
  rdec. cbn [negb orb bind]. rdec. do 2 f_equal; lra.
Qed.

(** Evaluate [aa_iou] on closed boxes. *)
Ltac aa_eval :=
  unfold PostProcess.aa_iou, PostProcess.xywh2xyxy, clamp_min0, Rmax, Rmin;
  cbn [bx by_ bw bh ba]; rdec; lra.

Lemma aa_iou_boxA_boxB : PostProcess.aa_iou boxA boxB = 4 / (36 + 1e-15).
Proof. unfold boxA, boxB. aa_eval. Qed.

Lemma gated_differs_from_ungated_aux :
  PostProcess.iou Convex.shapely boxA [boxB] 0.4 = Ok [false] /\
  PostProcess.iou_ungated Convex.shapely boxA [boxB] 0.4 = Ok [true].
Proof.
  split.
  - unfold PostProcess.iou. cbn [map existsb]. rewrite aa_iou_boxA_boxB.
    unfold Rgtb. rdec. reflexivity.
  - unfold PostProcess.iou_ungated. rewrite skewiou_boxA_boxB. cbn [bind map].
    unfold Rgtb. rdec. reflexivity.
Qed.

(** C2 (counterexample): the box [(0, 0, 10, 2, 0)] and the candidate
    [(0, 0, 2, 10, pi/2)] cover the same rectangle, so their skew-IoU is 1,
    but the axis-aligned ratio is 4/36 < 0.3: with [nms_thres = 0.4] the
    gated test reports no overlap where the ungated test reports one. *)
Lemma gated_differs_from_ungated :
  PostProcess.iou Convex.shapely boxA [boxB] 0.4 = Ok [false] /\
  PostProcess.iou_ungated Convex.shapely boxA [boxB] 0.4 = Ok [true].
Proof. exact gated_differs_from_ungated_aux. Qed.

(** ** One pass of the suppression loop *)

Section SuppressionStep.

Variable G : Shapely.
Variable nms_thres : R.

Lemma loop_scatter (g : polygon) (m : rbox -> bool) (f : R -> bool) (l : list rbox) (s : list R) :
  PostProcess.skewiou_loop G g (select (map m l) l) = Ok s ->
  scatter (map m l) (map (fun _ => false) l) (map f s)
  = map (fun b => m b && match PostProcess.get_iou G g (PostProcess.rbox2polygon b) with
                         | Ok v => f v
                         | Err _ => false
                         end) l.
Proof.
  revert s; induction l as [|b l IH]; intros s H; [reflexivity|].
  cbn [map select] in H. cbn [map scatter].
  destruct (m b) eqn:Hb.
  - cbn [PostProcess.skewiou_loop] in H.
    destruct (negb (is_valid G g) || negb (is_valid G (PostProcess.rbox2polygon b)));
      try discriminate.
    destruct (PostProcess.get_iou G g (PostProcess.rbox2polygon b)) as [v|e]; try discriminate.
    cbn [bind] in H.
    destruct (PostProcess.skewiou_loop G g (select (map m l) l)) as [s'|e]; try discriminate.
    cbn [bind] in H. inversion H; subst s. cbn [map andb]. f_equal. now apply IH.
  - cbn [andb]. f_equal. now apply IH.
Qed.

Lemma iou_nonempty (box1 : rbox) (box2 : list rbox) :
  box2 <> [] ->
  PostProcess.iou G box1 box2 nms_thres =
  let mask := map (fun b => Rgtb (PostProcess.aa_iou box1 b) 0.3) box2 in
  if existsb (fun m => m) mask then
    s <- PostProcess.skewiou G box1 (select mask box2) ;;
    Ok (scatter mask (map (fun _ => false) box2) (map (fun v => Rgtb v nms_thres) s))
  else Ok (map (fun _ => false) box2).
Proof.
  intros H. unfold PostProcess.iou. destruct box2; [congruence|]. now rewrite map_map.
Qed.

(** The vector returned by [iou], entry by entry. *)
Lemma iou_pointwise (box1 : rbox) (box2 : list rbox) (large : list bool) :
  PostProcess.iou G box1 box2 nms_thres = Ok large ->
  large = map (flagged G nms_thres box1) box2.
Proof.
  destruct box2 as [|b0 rest] eqn:E; [discriminate|]. rewrite <- E.
  assert (Hne : box2 <> []) by (rewrite E; discriminate). clear E.
  rewrite (iou_nonempty _ _ Hne). cbv zeta.
  set (m := fun x => Rgtb (PostProcess.aa_iou box1 x) 0.3).
  destruct (existsb (fun x => x) (map m box2)) eqn:He.
  - unfold PostProcess.skewiou.
    destruct (PostProcess.skewiou_loop G _ (select (map m box2) box2)) as [s|e] eqn:Hs;
      cbn [bind]; try discriminate.
    destruct s as [|v s]; try discriminate. cbn [bind]. intros [= <-].
    exact (loop_scatter _ m (fun v => Rgtb v nms_thres) box2 (v :: s) Hs).
  - intros [= <-].
    apply map_ext_in. intros b Hb. unfold flagged. fold (m b).
    rewrite (existsb_false_in _ He (m b) (in_map m _ _ Hb)). reflexivity.
Qed.

Lemma iou_length (box1 : rbox) (box2 : list rbox) (large : list bool) :
  PostProcess.iou G box1 box2 nms_thres = Ok large -> length large = length box2.
Proof. intros H. rewrite (iou_pointwise _ _ _ H). apply length_map. Qed.

Lemma select_map_filter {A B : Type} (g : A -> B) (f : B -> bool) (l : list A) :
  select (map f (map g l)) l = filter (fun x => f (g x)) l.
Proof. rewrite map_map. apply (select_filter (fun x => f (g x))). Qed.

Lemma select_negb_filter {A B : Type} (g : A -> B) (f : B -> bool) (l : list A) :
  select (map negb (map f (map g l))) l = filter (fun x => negb (f (g x))) l.
Proof. rewrite !map_map. apply (select_filter (fun x => negb (f (g x)))). Qed.

(** C4 (as amended): in a pass of the loop in which candidates remain
    after [best] is taken, the candidates reported by the gated overlap
    test (prefilter [aa_iou > 0.3] and skew-IoU above [nms_thres]) are
    removed, the four entries [(cx, cy, w, h)] of the kept box become the
    average of [best] and the removed boxes weighted by object confidence,
    and the angle, confidence and class entries of [best] are unchanged. *)
Theorem nms_iter_removes_flagged_and_merges (best : detection) (detect : list detection)
  (best' : detection) (rest : list detection) :
  detect <> [] ->
  NMS.nms_iter G nms_thres best detect = Ok (best', rest) ->
  let throw := filter (fun d => flagged G nms_thres (dbox best) (dbox d)) detect in
  let total := dconf best + Rsum (map dconf throw) in
  let avg (f : rbox -> R) :=
    (f (dbox best) * dconf best + Rsum (map (fun t => dconf t * f (dbox t)) throw)) / total in
  rest = filter (fun d => negb (flagged G nms_thres (dbox best) (dbox d))) detect /\
  bx (dbox best') = avg bx /\ by_ (dbox best') = avg by_ /\
  bw (dbox best') = avg bw /\ bh (dbox best') = avg bh /\
  ba (dbox best') = ba (dbox best) /\
  dconf best' = dconf best /\ dcls_conf best' = dcls_conf best /\
  dcls_pred best' = dcls_pred best.
Proof.
  intros Hne H. unfold NMS.nms_iter in H.
  destruct detect as [|d0 detect0]; [congruence|].
  set (detect := d0 :: detect0) in *.
  destruct (PostProcess.iou G (dbox best) (map dbox detect) nms_thres) as [large|e] eqn:Hi;
    cbn [bind] in H; try discriminate.
  apply iou_pointwise in Hi. subst large.
  rewrite select_map_filter, select_negb_filter in H.
  injection H as <- <-.
  cbv zeta. repeat split; reflexivity.
Qed.

Lemma merge_nil (best : detection) : dconf best <> 0 -> NMS.merge best [] = best.
Proof.
  intros Hc. unfold NMS.merge, NMS.merge_col. cbn [map Rsum fold_right].
  destruct best as [[x y w h a] c cc cp]. cbn [dbox dconf dcls_conf dcls_pred bx by_ bw bh ba] in *.
  f_equal. f_equal; field; lra.
Qed.

Lemma nms_iter_no_overlap (best : detection) (detect : list detection) (large : list bool) :
  PostProcess.iou G (dbox best) (map dbox detect) nms_thres = Ok large ->
  existsb (fun m => m) large = false ->
  dconf best <> 0 ->
  NMS.nms_iter G nms_thres best detect = Ok (best, detect).
Proof.
  intros Hi Hall Hc. unfold NMS.nms_iter.
  destruct detect as [|d0 detect0] eqn:E; [reflexivity|]. rewrite <- E in *.
  rewrite Hi. cbn [bind].
  pose proof (iou_length _ _ _ Hi) as Hl. rewrite length_map in Hl.
  rewrite (select_all_false large detect Hall).
  rewrite (select_negb_all_false large detect Hl Hall).
  now rewrite merge_nil.
Qed.

(** The merge of [NMS.merge] is [merge_entry] in the exact arithmetic. *)
Lemma fold_left_Rplus (l : list R) (a : R) : fold_left Rplus l a = a + Rsum l.
Proof.
  revert a; induction l as [|x l IH]; intros a; cbn [fold_left]; unfold Rsum in *;
    cbn [fold_right]; [lra|]. rewrite IH. lra.
Qed.

Lemma merge_col_entry (f : rbox -> R) (best : detection) (throwayay : list detection) :
  NMS.merge_col f best throwayay
  = merge_entry exact (f (dbox best)) (dconf best)
      (map (fun t => (f (dbox t), dconf t)) throwayay).
Proof.
  unfold NMS.merge_col, merge_entry, a_sum. cbn [exact a_div a_add a_mul a_zero carrier].
  rewrite !map_map. cbn [fst snd]. rewrite !fold_left_Rplus.
  rewrite !Rplus_0_l. reflexivity.
Qed.

(** C10 (as amended): when the suppression vector is all-false, the pass
    leaves the remaining candidates as they are and stores the kept row
    after the merge with no suppressed row: angle, confidence and class
    entries are those of [best], and each of [x, y, w, h] is recomputed
    as [(v * conf + 0) / (conf + 0)], the formula of lines 149-150 with
    empty sums.  The quotient is [v] in exact arithmetic only. *)
Theorem no_overlap_recomputes_kept_box (best : detection) (detect : list detection)
  (large : list bool) :
  PostProcess.iou G (dbox best) (map dbox detect) nms_thres = Ok large ->
  existsb (fun m => m) large = false ->
  NMS.nms_iter G nms_thres best detect = Ok (NMS.merge best [], detect) /\
  same_tag (NMS.merge best []) best /\
  ba (dbox (NMS.merge best [])) = ba (dbox best) /\
  forall f, In f [bx; by_; bw; bh] ->
    f (dbox (NMS.merge best [])) = merge_entry exact (f (dbox best)) (dconf best) [].
Proof.
  intros Hi Hall. split; [|split; [repeat split|split; [reflexivity|]]].
  - unfold NMS.nms_iter.
    destruct detect as [|d0 detect0] eqn:E; [discriminate|]. rewrite <- E in *.
    rewrite Hi. cbn [bind].
    pose proof (iou_length _ _ _ Hi) as Hl. rewrite length_map in Hl.
    rewrite (select_all_false large detect Hall).
    now rewrite (select_negb_all_false large detect Hl Hall).
  - intros f [<-|[<-|[<-|[<-|[]]]]]; cbn [NMS.merge dbox bx by_ bw bh];
      now rewrite merge_col_entry.
Qed.

End SuppressionStep.

(** *** Closed instances of one pass *)

Lemma aa_iou_boxA_boxFar : PostProcess.aa_iou boxA boxFar = 0.
Proof. unfold boxA, boxFar. aa_eval. Qed.

Lemma aa_iou_boxA_boxA : PostProcess.aa_iou boxA boxA = 20 / (20 + 1e-15).
Proof. unfold boxA. aa_eval. Qed.

Lemma iou_boxA_boxFar (G : Shapely) : PostProcess.iou G boxA [boxFar] 0.4 = Ok [false].
Proof.
  unfold PostProcess.iou. cbn [map existsb]. rewrite aa_iou_boxA_boxFar.
  unfold Rgtb. rdec. reflexivity.
Qed.

Lemma intersection_boxA_boxA :
  Convex.intersection [(-5, 1); (-5, -1); (5, -1); (5, 1)] [(-5, 1); (-5, -1); (5, -1); (5, 1)]
  = [(-5, 1); (-5, -1); (5, -1); (5, 1)].
Proof.
  unfold Convex.intersection, Convex.ccw, Convex.signed_area2.
  cbn [Convex.shoelace fst snd]. rdec.
  cbn [Convex.edges combine app fold_left].
  clip_trivial. reflexivity.
Qed.

Lemma area_boxA : Convex.signed_area2 [(-5, 1); (-5, -1); (5, -1); (5, 1)] = 40.
Proof. unfold Convex.signed_area2. cbn [Convex.shoelace fst snd]. lra. Qed.

Lemma skewiou_boxA_boxA : PostProcess.skewiou Convex.shapely boxA [boxA] = Ok [1].
Proof.
  unfold PostProcess.skewiou, PostProcess.skewiou_loop, PostProcess.get_iou.
  rewrite polygon_boxA.
  cbn [is_valid intersects intersection_area union_area Convex.shapely].
  rewrite intersection_boxA_boxA. unfold Convex.area. rewrite area_boxA.
  rewrite (Rabs_pos_eq 40) by lra. cbn [Convex.nonempty].
  rdec. cbn [negb orb bind]. rdec. do 2 f_equal; lra.
Qed.

Lemma iou_boxA_boxA : PostProcess.iou Convex.shapely boxA [boxA] 0.4 = Ok [true].
Proof.
  unfold PostProcess.iou. cbn [map existsb]. rewrite aa_iou_boxA_boxA.
  rbool. cbn [orb select]. rewrite skewiou_boxA_boxA. cbn [bind map scatter].
  rbool. reflexivity.
Qed.

(** C4 (witness): [(0, 0, 10, 2, 0)] with confidence 0.9 absorbs a copy
    of itself with confidence 0.6. *)
Lemma nms_iter_removes_flagged_and_merges_witness :
  let throw := filter (fun d => flagged Convex.shapely 0.4 (dbox detA) (dbox d)) [detA'] in
  let total := dconf detA + Rsum (map dconf throw) in
  let avg (f : rbox -> R) :=
    (f (dbox detA) * dconf detA + Rsum (map (fun t => dconf t * f (dbox t)) throw)) / total in
  [] = filter (fun d => negb (flagged Convex.shapely 0.4 (dbox detA) (dbox d))) [detA'] /\
  bx (dbox (NMS.merge detA [detA'])) = avg bx /\ by_ (dbox (NMS.merge detA [detA'])) = avg by_ /\
  bw (dbox (NMS.merge detA [detA'])) = avg bw /\ bh (dbox (NMS.merge detA [detA'])) = avg bh /\
  ba (dbox (NMS.merge detA [detA'])) = ba (dbox detA) /\
  dconf (NMS.merge detA [detA']) = dconf detA /\
  dcls_conf (NMS.merge detA [detA']) = dcls_conf detA /\
  dcls_pred (NMS.merge detA [detA']) = dcls_pred detA.
Proof.
  apply (nms_iter_removes_flagged_and_merges Convex.shapely 0.4 detA [detA']).
  - discriminate.
  - unfold NMS.nms_iter. cbn [map dbox detA detA']. rewrite iou_boxA_boxA. reflexivity.
Defined.

(** C4 (counterexample): the candidate [(0, 0, 2, 10, pi/2)] has skew-IoU
    1 > 0.4 with the kept box [(0, 0, 10, 2, 0)], and stays in the remaining
    set. *)
Lemma overlapping_candidate_not_removed :
  PostProcess.skewiou Convex.shapely (dbox detA) [dbox detB] = Ok [1] /\
  0.4 < 1 /\
  exists best', NMS.nms_iter Convex.shapely 0.4 detA [detB] = Ok (best', [detB]).
Proof.
  split; [exact skewiou_boxA_boxB|]. split; [lra|].
  eexists. unfold NMS.nms_iter. cbn [map dbox detA detB].
  destruct gated_differs_from_ungated_aux as [-> _]. reflexivity.
Qed.

(** C10 (witness): the 10 x 2 box and a box 100 away. *)
Lemma no_overlap_recomputes_kept_box_witness :
  NMS.nms_iter Convex.shapely 0.4 detA [detFar] = Ok (NMS.merge detA [], [detFar]) /\
  same_tag (NMS.merge detA []) detA /\
  ba (dbox (NMS.merge detA [])) = ba (dbox detA) /\
  forall f, In f [bx; by_; bw; bh] ->
    f (dbox (NMS.merge detA [])) = merge_entry exact (f (dbox detA)) (dconf detA) [].
Proof.
  apply (no_overlap_recomputes_kept_box Convex.shapely 0.4 detA [detFar] [false]).
  - exact (iou_boxA_boxFar Convex.shapely).
  - reflexivity.
Defined.

(** C10 (counterexample): the kept box does not keep its entries in the
    arithmetic of the tensors.  In binary32 the merge with no suppressed
    row takes the entry 3.0 of a row of confidence 0.9 to
    12582911 * 2^-22 = 2.9999998: the product 3.0 * 0.9 and the quotient
    by 0.9 are both rounded. *)
Lemma merge_rounds_kept_box :
  merge_entry binary32 three32 nine_tenths32 []
  = SpecFloat.S754_finite false 12582911 (-22) /\
  merge_entry binary32 three32 nine_tenths32 [] <> three32.
Proof. split; [vm_compute; reflexivity|vm_compute; discriminate]. Qed.

(** ** Partial overlaps in the convex model *)

(** Evaluate one clipping step of a closed polygon against a closed edge. *)
Ltac clip_eval :=
  unfold Convex.clip_by; cbn [last Convex.clip_edge fst snd];
  unfold Convex.inside, Convex.cross, Rgeb; cbn [fst snd]; rdec; cbn [app];
  unfold Convex.meet, Convex.cross; cbn [fst snd]; poly_eq.

Lemma polygon_sq (x : R) : PostProcess.rbox2polygon (sq x) = sq_polygon x.
Proof. unfold sq, sq_polygon. polygon_of. Qed.

Lemma area_sq (x : R) : Convex.signed_area2 (sq_polygon x) = 200.
Proof. unfold Convex.signed_area2, sq_polygon. cbn [Convex.shoelace fst snd]. lra. Qed.

Lemma ccw_sq (x : R) : Convex.ccw (sq_polygon x) = sq_polygon x.
Proof. unfold Convex.ccw. rewrite area_sq. rdec. reflexivity. Qed.

(** Two 10 x 10 squares whose centres are 4 apart share a 6 x 10 strip. *)
Lemma intersection_sq0_sq4 :
  Convex.intersection (sq_polygon 0) (sq_polygon 4) = [(-1, 5); (-1, -5); (5, -5); (5, 5)].
Proof.
  unfold Convex.intersection. rewrite ccw_sq. unfold sq_polygon.
  cbn [Convex.edges combine app fold_left].
  replace (Convex.clip_by [(0 - 5, 5); (0 - 5, -5); (0 + 5, -5); (0 + 5, 5)]
             (4 - 5, 5, (4 - 5, -5)))
    with [(-1, 5); (-1, -5); (5, -5); (5, 5)] by (symmetry; clip_eval).
  clip_trivial. reflexivity.
Qed.

Lemma intersection_sq2_sq6 :
  Convex.intersection (sq_polygon 2) (sq_polygon 6) = [(1, 5); (1, -5); (7, -5); (7, 5)].
Proof.
  unfold Convex.intersection. rewrite ccw_sq. unfold sq_polygon.
  cbn [Convex.edges combine app fold_left].
  replace (Convex.clip_by [(2 - 5, 5); (2 - 5, -5); (2 + 5, -5); (2 + 5, 5)]
             (6 - 5, 5, (6 - 5, -5)))
    with [(1, 5); (1, -5); (7, -5); (7, 5)] by (symmetry; clip_eval).
  clip_trivial. reflexivity.
Qed.

Lemma get_iou_sq (x y : R) (strip : polygon) :
  Convex.intersection (sq_polygon x) (sq_polygon y) = strip ->
  Convex.signed_area2 strip = 120 ->
  PostProcess.skewiou Convex.shapely (sq x) [sq y] = Ok [60 / 140].
Proof.
  intros Hi Ha.
  unfold PostProcess.skewiou, PostProcess.skewiou_loop, PostProcess.get_iou.
  rewrite !polygon_sq.
  cbn [is_valid intersects intersection_area union_area Convex.shapely].
  rewrite Hi. unfold Convex.area. rewrite !area_sq, Ha.
  rewrite (Rabs_pos_eq 200), (Rabs_pos_eq 120) by lra.
  assert (Hs : Convex.nonempty strip = true).
  { destruct strip; [|reflexivity]. cbn in Ha. lra. }
  rewrite Hs. rdec. cbn [negb orb bind]. do 2 f_equal; lra.
Qed.

Lemma skewiou_sq0_sq4 : PostProcess.skewiou Convex.shapely (sq 0) [sq 4] = Ok [60 / 140].
Proof.
  apply (get_iou_sq 0 4 _ intersection_sq0_sq4).
  unfold Convex.signed_area2. cbn [Convex.shoelace fst snd]. lra.
Qed.

Lemma skewiou_sq2_sq6 : PostProcess.skewiou Convex.shapely (sq 2) [sq 6] = Ok [60 / 140].
Proof.
  apply (get_iou_sq 2 6 _ intersection_sq2_sq6).
  unfold Convex.signed_area2. cbn [Convex.shoelace fst snd]. lra.
Qed.



(** C2 (witness): a box against a copy of itself. *)
Lemma iou_gated_is_prefilter_and_exact_witness :
  PostProcess.iou Convex.shapely boxA [boxA] 0.4
  = Ok (map2 andb (map (fun b => Rgtb (PostProcess.aa_iou boxA b) 0.3) [boxA]) [true]).
Proof.
  apply (iou_gated_is_prefilter_and_exact Convex.shapely boxA [boxA] 0.4 [true]).
  unfold PostProcess.iou_ungated. rewrite skewiou_boxA_boxA. cbn [bind map].
  rbool. reflexivity.
Defined.

(** ** The suppression loop *)

Lemma select_Forall {A : Type} (P : A -> Prop) (mask : list bool) (l : list A) :
  Forall P l -> Forall P (select mask l).
Proof.
  intros H; revert mask; induction H as [|x l Hx Hl IH]; intros [|m mask]; simpl; auto.
  destruct m; auto.
Qed.

Lemma select_sorted {A : Type} (R : A -> A -> Prop) (mask : list bool) (l : list A) :
  StronglySorted R l -> StronglySorted R (select mask l).
Proof.
  intros H; revert mask; induction H as [|x l Hl IH Hx]; intros [|m mask]; simpl;
    try constructor.
  destruct m; auto. constructor; auto. now apply select_Forall.
Qed.

Lemma select_length {A : Type} (mask : list bool) (l : list A) :
  (length (select mask l) <= length l)%nat.
Proof.
  revert l; induction mask as [|m mask IH]; intros [|x l]; simpl; try lia.
  specialize (IH l). destruct m; simpl; lia.
Qed.

Lemma filter_sorted {A : Type} (R : A -> A -> Prop) (f : A -> bool) (l : list A) :
  StronglySorted R l -> StronglySorted R (filter f l).
Proof. intros H. rewrite <- select_filter. now apply select_sorted. Qed.

Lemma firstn_incl {A : Type} (n : nat) (l : list A) (y : A) :
  In y (firstn n l) -> In y l.
Proof.
  revert l; induction n as [|n IH]; intros [|x l]; simpl; try tauto.
  intros [->|H]; auto.
Qed.

Lemma firstn_sorted {A : Type} (R : A -> A -> Prop) (n : nat) (l : list A) :
  StronglySorted R l -> StronglySorted R (firstn n l).
Proof.
  intros H; revert n; induction H as [|x l Hl IH Hx]; intros [|n]; simpl; try constructor; auto.
  apply Forall_forall. intros y Hy. rewrite Forall_forall in Hx. apply Hx.
  revert Hy. apply firstn_incl.
Qed.

Lemma sorted_app {A : Type} (R : A -> A -> Prop) (l l' : list A) :
  StronglySorted R l -> StronglySorted R l' ->
  (forall a b, In a l -> In b l' -> R a b) ->
  StronglySorted R (l ++ l').
Proof.
  intros H H' Hc. induction H as [|x l Hl IH Hx]; simpl; auto.
  constructor.
  - apply IH. intros a b Ha Hb. apply Hc; [now right|exact Hb].
  - apply Forall_app. split; auto. apply Forall_forall. intros b Hb. apply Hc; [now left|exact Hb].
Qed.

Section SuppressionLoop.

Variable G : Shapely.
Variable nms_thres : R.

Lemma nms_iter_shape (best : detection) (detect : list detection)
  (best' : detection) (rest : list detection) :
  NMS.nms_iter G nms_thres best detect = Ok (best', rest) ->
  same_tag best' best /\ exists mask, rest = select mask detect.
Proof.
  unfold NMS.nms_iter. destruct detect as [|d0 detect0] eqn:E.
  - intros [= <- <-]. split; [repeat split|]. now exists [].
  - rewrite <- E.
    destruct (PostProcess.iou G (dbox best) (map dbox detect) nms_thres) as [large|e];
      cbn [bind]; try discriminate.
    intros [= <- <-]. split; [repeat split|]. now eexists.
Qed.

(** Enough fuel: the loop returns the same rows with any larger bound. *)
Lemma nms_while_fuel (fuel fuel' : nat) (detect : list detection) :
  (length detect <= fuel)%nat -> (length detect <= fuel')%nat ->
  NMS.nms_while G nms_thres fuel detect = NMS.nms_while G nms_thres fuel' detect.
Proof.
  revert fuel' detect; induction fuel as [|fuel IH]; intros fuel' detect H H'.
  - destruct detect; simpl in H; [|lia]. now destruct fuel'.
  - destruct detect as [|best rest]; [now destruct fuel'|].
    destruct fuel' as [|fuel']; [simpl in H'; lia|].
    cbn [NMS.nms_while].
    destruct (NMS.nms_iter G nms_thres best rest) as [[b' r']|e] eqn:Hi; cbn [bind]; auto.
    destruct (nms_iter_shape _ _ _ _ Hi) as [_ [mask ->]].
    pose proof (select_length mask rest). simpl in H, H'.
    cbn [snd fst]. rewrite (IH fuel') by lia. reflexivity.
Qed.

Lemma nms_while_Forall (P : detection -> Prop) :
  (forall a b, same_tag a b -> P b -> P a) ->
  forall fuel detect keep,
  NMS.nms_while G nms_thres fuel detect = Ok keep -> Forall P detect -> Forall P keep.
Proof.
  intros HP. induction fuel as [|fuel IH]; intros detect keep H HF.
  - simpl in H. injection H as <-. constructor.
  - destruct detect as [|best rest]; [injection H as <-; constructor|].
    cbn [NMS.nms_while] in H.
    destruct (NMS.nms_iter G nms_thres best rest) as [[b' r']|e] eqn:Hi; cbn [bind] in H;
      try discriminate.
    cbn [fst snd] in H.
    destruct (NMS.nms_while G nms_thres fuel r') as [k|e] eqn:Hk; cbn [bind] in H;
      try discriminate.
    injection H as <-.
    destruct (nms_iter_shape _ _ _ _ Hi) as [Ht [mask ->]].
    inversion HF; subst. constructor.
    + eapply HP; eauto.
    + apply (IH _ _ Hk). now apply select_Forall.
Qed.

Lemma nms_while_sorted (R : detection -> detection -> Prop) :
  (forall a a' b, same_tag a' a -> R a b -> R a' b) ->
  (forall a b b', same_tag b' b -> R a b -> R a b') ->
  forall fuel detect keep,
  NMS.nms_while G nms_thres fuel detect = Ok keep ->
  StronglySorted R detect -> StronglySorted R keep.
Proof.
  intros HR HR'. induction fuel as [|fuel IH]; intros detect keep H HS.
  - simpl in H. injection H as <-. constructor.
  - destruct detect as [|best rest]; [injection H as <-; constructor|].
    cbn [NMS.nms_while] in H.
    destruct (NMS.nms_iter G nms_thres best rest) as [[b' r']|e] eqn:Hi; cbn [bind] in H;
      try discriminate.
    cbn [fst snd] in H.
    destruct (NMS.nms_while G nms_thres fuel r') as [k|e] eqn:Hk; cbn [bind] in H;
      try discriminate.
    injection H as <-.
    destruct (nms_iter_shape _ _ _ _ Hi) as [Ht [mask ->]].
    inversion HS; subst. constructor.
    + apply (IH _ _ Hk). now apply select_sorted.
    + apply (nms_while_Forall (R b') (fun a b Hab => HR' b' b a Hab) _ _ _ Hk).
      apply select_Forall. eapply Forall_impl; [|eassumption].
      intros a Ha. eapply HR; eauto.
Qed.

(** A settled list of rows with non-zero confidence passes through the
    loop unchanged. *)
Lemma nms_while_settled (detect : list detection) :
  settled G nms_thres detect ->
  Forall (fun d => dconf d <> 0) detect ->
  forall fuel, (length detect <= fuel)%nat ->
  NMS.nms_while G nms_thres fuel detect = Ok detect.
Proof.
  induction detect as [|best rest IH]; intros Hs Hc fuel Hf.
  - now destruct fuel.
  - destruct fuel as [|fuel]; [simpl in Hf; lia|].
    destruct Hs as [Hq Hs]. inversion Hc; subst.
    assert (Hi : NMS.nms_iter G nms_thres best rest = Ok (best, rest)).
    { destruct Hq as [->|Hq]; [reflexivity|].
      apply (nms_iter_no_overlap G nms_thres best rest _ Hq); auto.
      clear. induction rest; simpl; auto. }
    cbn [NMS.nms_while]. rewrite Hi. cbn [bind fst snd].
    rewrite IH; auto. simpl in Hf. lia.
Qed.

End SuppressionLoop.

(** ** Labels and groups *)

Lemma insert_label_In (n x : nat) (l : list nat) :
  In x (insert_label n l) <-> x = n \/ In x l.
Proof.
  induction l as [|m l IH]; simpl; [intuition|].
  destruct (n <? m)%nat eqn:E1; simpl; [intuition|].
  destruct (n =? m)%nat eqn:E2; simpl.
  - apply Nat.eqb_eq in E2. subst. intuition.
  - rewrite IH. intuition.
Qed.

Lemma insert_label_sorted (n : nat) (l : list nat) :
  StronglySorted lt l -> StronglySorted lt (insert_label n l).
Proof.
  induction 1 as [|m l Hl IH Hm]; simpl; [repeat constructor|].
  destruct (n <? m)%nat eqn:E1.
  - apply Nat.ltb_lt in E1. constructor; [now constructor|].
    constructor; auto. eapply Forall_impl; [|exact Hm]. intros; lia.
  - destruct (n =? m)%nat eqn:E2; [now constructor|].
    apply Nat.ltb_ge in E1. apply Nat.eqb_neq in E2.
    constructor; auto. apply Forall_forall. intros x Hx.
    apply insert_label_In in Hx as [->|Hx]; [lia|].
    rewrite Forall_forall in Hm. now apply Hm.
Qed.

Lemma unique_In (x : nat) (l : list nat) : In x (unique l) <-> In x l.
Proof.
  induction l as [|n l IH]; simpl; [tauto|].
  rewrite insert_label_In, IH. intuition.
Qed.

Lemma unique_sorted (l : list nat) : StronglySorted lt (unique l).
Proof. induction l; simpl; [constructor|now apply insert_label_sorted]. Qed.

Lemma sorted_lt_ext (l l' : list nat) :
  StronglySorted lt l -> StronglySorted lt l' ->
  (forall x, In x l <-> In x l') -> l = l'.
Proof.
  intros H; revert l'; induction H as [|n l Hl IH Hn]; intros l' H' He.
  - destruct l' as [|m l']; auto. destruct (proj2 (He m)). now left.
  - destruct H' as [|m l' Hl' Hm]; [destruct (proj1 (He n)); now left|].
    rewrite Forall_forall in Hn, Hm.
    assert (n = m).
    { destruct (proj1 (He n) (or_introl eq_refl)) as [E|E]; auto.
      destruct (proj2 (He m) (or_introl eq_refl)) as [E'|E']; auto.
      specialize (Hn _ E'). specialize (Hm _ E). lia. }
    subst m. f_equal. apply IH; auto.
    intros x. split; intros Hx.
    + destruct (proj1 (He x) (or_intror Hx)) as [E|E]; auto.
      subst. specialize (Hn _ Hx). lia.
    + destruct (proj2 (He x) (or_intror Hx)) as [E|E]; auto.
      subst. specialize (Hm _ Hx). lia.
Qed.

Lemma unique_ext (l l' : list nat) :
  (forall x, In x l <-> In x l') -> unique l = unique l'.
Proof.
  intros H. apply sorted_lt_ext; try apply unique_sorted.
  intros x. now rewrite !unique_In.
Qed.

Lemma filter_none {A : Type} (f : A -> bool) (l : list A) :
  (forall x, In x l -> f x = false) -> filter f l = [].
Proof.
  induction l as [|x l IH]; simpl; auto. intros H.
  rewrite (H x (or_introl eq_refl)). apply IH. intros; apply H; now right.
Qed.

(** A list in ascending order of labels is the concatenation of its
    groups, taken in the order of [unique]. *)
Lemma groups_concat {A : Type} (lab : A -> nat) (l : list A) :
  StronglySorted (fun a b => (lab a <= lab b)%nat) l ->
  concat (map (fun x => filter (fun d => (lab d =? x)%nat) l) (unique (map lab l))) = l.
Proof.
  induction 1 as [|d l Hl IH Hd]; [reflexivity|].
  cbn [map unique fold_right]. fold (unique (map lab l)).
  rewrite Forall_forall in Hd.
  pose proof (unique_sorted (map lab l)) as HU.
  assert (HIn : forall x, In x (unique (map lab l)) -> exists e, In e l /\ lab e = x).
  { intros x Hx. apply unique_In, in_map_iff in Hx as [e [He Hi]]. now exists e. }
  assert (Hge : forall x, In x (unique (map lab l)) -> (lab d <= x)%nat).
  { intros x Hx. destruct (HIn x Hx) as [e [He <-]]. now apply Hd. }
  destruct (unique (map lab l)) as [|m U] eqn:EU.
  - assert (l = []) as ->.
    { destruct l as [|e l]; [reflexivity|]. exfalso.
      assert (Hin : In (lab e) (unique (map lab (e :: l)))) by (apply unique_In; now left).
      rewrite EU in Hin. contradiction. }
    simpl. now rewrite Nat.eqb_refl.
  - cbn [insert_label]. inversion HU as [|? ? HU' Hm]; subst.
    rewrite Forall_forall in Hm.
    assert (Hrest : forall x, In x U -> filter (fun e => (lab e =? x)%nat) (d :: l)
                                        = filter (fun e => (lab e =? x)%nat) l).
    { intros x Hx. simpl.
      assert (lab d <> x).
      { specialize (Hm _ Hx). specialize (Hge m (or_introl eq_refl)). lia. }
      apply Nat.eqb_neq in H. now rewrite H. }
    destruct (lab d <? m)%nat eqn:E1.
    + apply Nat.ltb_lt in E1. cbn [map concat].
      rewrite (map_ext_in _ _ U Hrest).
      cbn [filter]. rewrite Nat.eqb_refl.
      rewrite (filter_none (fun e => (lab e =? lab d)%nat) l).
      2:{ intros e He. apply Nat.eqb_neq.
          assert (In (lab e) (m :: U)) by (rewrite <- EU; apply unique_In; now apply in_map).
          destruct H as [<-|H]; [lia|]. specialize (Hm _ H). lia. }
      cbn [app]. f_equal.
      assert (E : (lab d =? m)%nat = false) by (apply Nat.eqb_neq; lia).
      rewrite E. exact IH.
    + apply Nat.ltb_ge in E1.
      assert (lab d = m) by (specialize (Hge m (or_introl eq_refl)); lia). subst m.
      rewrite Nat.eqb_refl. cbn [map concat].
      rewrite (map_ext_in _ _ U Hrest).
      cbn [filter]. rewrite Nat.eqb_refl.
      cbn [app]. f_equal. exact IH.
Qed.

(** ** Sorting by descending key *)

Section SortDesc.

Context {A : Type}.
Variable key : A -> R.

Let desc (a b : A) : Prop := key b <= key a.

Lemma insert_desc_In (x z : A) (l : list A) :
  In z (insert_desc key x l) <-> z = x \/ In z l.
Proof.
  induction l as [|y l IH]; simpl; [intuition|].
  destruct (Rgeb (key x) (key y)); simpl; [intuition|].
  rewrite IH. intuition.
Qed.

Lemma insert_desc_length (x : A) (l : list A) :
  length (insert_desc key x l) = S (length l).
Proof.
  induction l as [|y l IH]; simpl; auto.
  destruct (Rgeb (key x) (key y)); simpl; auto.
Qed.

Lemma insert_desc_sorted (x : A) (l : list A) :
  StronglySorted desc l -> StronglySorted desc (insert_desc key x l).
Proof.
  induction 1 as [|y l Hl IH Hy]; simpl; [repeat constructor|].
  destruct (Rgeb (key x) (key y)) eqn:E.
  - apply Rgeb_true in E. constructor; [now constructor|].
    constructor; [exact E|]. eapply Forall_impl; [|exact Hy].
    unfold desc. intros; lra.
  - apply Rgeb_false in E. constructor; auto.
    apply Forall_forall. intros z Hz. apply insert_desc_In in Hz as [->|Hz].
    + unfold desc. lra.
    + rewrite Forall_forall in Hy. now apply Hy.
Qed.

Lemma sort_desc_sorted (l : list A) : StronglySorted desc (sort_desc key l).
Proof. induction l; simpl; [constructor|now apply insert_desc_sorted]. Qed.

Lemma sort_desc_In (z : A) (l : list A) : In z (sort_desc key l) <-> In z l.
Proof.
  induction l as [|x l IH]; simpl; [tauto|].
  rewrite insert_desc_In, IH. intuition.
Qed.

Lemma sort_desc_length (l : list A) : length (sort_desc key l) = length l.
Proof. induction l; simpl; auto. rewrite insert_desc_length. now f_equal. Qed.

Lemma insert_desc_head (x : A) (l : list A) :
  Forall (desc x) l -> insert_desc key x l = x :: l.
Proof.
  destruct l as [|y l]; [reflexivity|]. intros H. inversion H; subst. simpl.
  replace (Rgeb (key x) (key y)) with true; [reflexivity|].
  symmetry. now apply Rgeb_true.
Qed.

(** A list already in descending order is left as it is. *)
Lemma sort_desc_id (l : list A) : StronglySorted desc l -> sort_desc key l = l.
Proof.
  induction 1 as [|x l Hl IH Hx]; simpl; auto.
  rewrite IH. now apply insert_desc_head.
Qed.

Lemma insert_desc_filter (p : A -> bool) (x : A) (l : list A) :
  StronglySorted desc l ->
  filter p (insert_desc key x l)
  = if p x then insert_desc key x (filter p l) else filter p l.
Proof.
  induction 1 as [|y l Hl IH Hy]; simpl.
  - now destruct (p x).
  - destruct (Rgeb (key x) (key y)) eqn:E.
    + simpl. destruct (p x); [|reflexivity].
      symmetry. apply Rgeb_true in E.
      apply (insert_desc_head x (if p y then y :: filter p l else filter p l)).
      assert (Forall (desc x) (y :: l)).
      { constructor; [exact E|]. eapply Forall_impl; [|exact Hy]. unfold desc; intros; lra. }
      change (Forall (desc x) (filter p (y :: l))).
      rewrite <- select_filter. now apply select_Forall.
    + simpl. rewrite IH. destruct (p y), (p x); simpl; try reflexivity.
      now rewrite E.
Qed.

(** Filtering commutes with the stable sort. *)
Lemma sort_desc_filter (p : A -> bool) (l : list A) :
  filter p (sort_desc key l) = sort_desc key (filter p l).
Proof.
  induction l as [|x l IH]; simpl; auto.
  rewrite insert_desc_filter by apply sort_desc_sorted.
  rewrite IH. now destruct (p x).
Qed.

End SortDesc.

Lemma insert_desc_Forall2 {A B : Type} (Rel : A -> B -> Prop) (ka : A -> R) (kb : B -> R)
  (x : A) (y : B) (l : list A) (l' : list B) :
  (forall a b, Rel a b -> ka a = kb b) ->
  Rel x y -> Forall2 Rel l l' -> Forall2 Rel (insert_desc ka x l) (insert_desc kb y l').
Proof.
  intros Hk Hxy H. induction H as [|a b l l' Hab Hl IH]; simpl; [now repeat constructor|].
  rewrite (Hk _ _ Hxy), (Hk _ _ Hab).
  destruct (Rgeb (kb y) (kb b)); repeat constructor; auto.
Qed.

Lemma sort_desc_Forall2 {A B : Type} (Rel : A -> B -> Prop) (ka : A -> R) (kb : B -> R)
  (l : list A) (l' : list B) :
  (forall a b, Rel a b -> ka a = kb b) ->
  Forall2 Rel l l' -> Forall2 Rel (sort_desc ka l) (sort_desc kb l').
Proof.
  intros Hk H. induction H; simpl; [constructor|]. now apply insert_desc_Forall2.
Qed.

(** ** The rows kept for one image *)

Lemma mapM_Forall2 {A B : Type} (f : A -> result B) (l : list A) (l' : list B) :
  mapM f l = Ok l' <-> Forall2 (fun x y => f x = Ok y) l l'.
Proof.
  revert l'; induction l as [|x l IH]; intros l'; simpl.
  - split; [intros [= <-]; constructor|intros H; now inversion H].
  - split.
    + destruct (f x) as [y|e] eqn:E; cbn [bind]; try discriminate.
      destruct (mapM f l) as [ys|e]; cbn [bind]; try discriminate.
      intros [= <-]. constructor; auto. now apply IH.
    + intros H. inversion H as [|? y ? ys Hy Hys]; subst. rewrite Hy. cbn [bind].
      apply IH in Hys. rewrite Hys. reflexivity.
Qed.

Lemma sorted_impl {A : Type} (P Q : A -> A -> Prop) (l : list A) :
  (forall a b, P a b -> Q a b) -> StronglySorted P l -> StronglySorted Q l.
Proof.
  intros H. induction 1; constructor; auto. eapply Forall_impl; [|eassumption]. auto.
Qed.

Lemma Forall2_Forall_r {A B : Type} (Rel : A -> B -> Prop) (P : A -> Prop) (Q : B -> Prop)
  (l : list A) (l' : list B) :
  (forall a b, Rel a b -> P a -> Q b) -> Forall2 Rel l l' -> Forall P l -> Forall Q l'.
Proof.
  intros H HF. induction HF; intros HP; constructor; inversion HP; subst; eauto.
Qed.

Lemma Forall2_sorted {A B : Type} (Rel : A -> B -> Prop) (P : A -> A -> Prop)
  (Q : B -> B -> Prop) (l : list A) (l' : list B) :
  (forall a b a' b', Rel a b -> Rel a' b' -> P a a' -> Q b b') ->
  Forall2 Rel l l' -> StronglySorted P l -> StronglySorted Q l'.
Proof.
  intros H HF. induction HF as [|a b l l' Hab Hl IH]; intros HS; constructor;
    inversion HS; subst; auto.
  apply (Forall2_Forall_r Rel (P a) (Q b) l l'); auto.
  intros a' b' Hab' HP. eapply H; eauto.
Qed.

Lemma Forall2_and_Forall {A B : Type} (Rel : A -> B -> Prop) (P : A -> Prop)
  (l : list A) (l' : list B) :
  Forall2 Rel l l' -> Forall P l -> Forall2 (fun a b => P a /\ Rel a b) l l'.
Proof.
  intros HF. induction HF; intros HP; constructor; inversion HP; subst; auto.
Qed.

Lemma Forall2_map_l {A B C : Type} (f : A -> C) (Rel : C -> B -> Prop)
  (l : list A) (l' : list B) :
  Forall2 Rel (map f l) l' <-> Forall2 (fun a b => Rel (f a) b) l l'.
Proof.
  revert l'; induction l as [|x l IH]; intros l'; simpl.
  - split; intros H; inversion H; constructor.
  - split; intros H; inversion H; subst; constructor; auto; now apply IH.
Qed.

Lemma ordered_of_desc (x : nat) (l : list detection) :
  Forall (fun d => dcls_pred d = x) l ->
  StronglySorted (fun a b => dscore b <= dscore a) l -> StronglySorted ordered l.
Proof.
  intros HF HS. induction HS as [|a l Hl IH Ha]; constructor; inversion HF; subst; auto.
  rewrite Forall_forall in *. intros b Hb. split; [|intros _; now apply Ha].
  rewrite (H2 b Hb). lia.
Qed.

Lemma desc_of_ordered (x : nat) (l : list detection) :
  Forall (fun d => dcls_pred d = x) l ->
  StronglySorted ordered l -> StronglySorted (fun a b => dscore b <= dscore a) l.
Proof.
  intros HF HS. induction HS as [|a l Hl IH Ha]; constructor; inversion HF; subst; auto.
  rewrite Forall_forall in *. intros b Hb. apply (Ha b Hb). now rewrite (H2 b Hb).
Qed.

Lemma filter_label_Forall (x : nat) (l : list detection) :
  Forall (fun d => dcls_pred d = x) (filter (fun d => (dcls_pred d =? x)%nat) l).
Proof.
  apply Forall_forall. intros d Hd. apply filter_In in Hd as [_ Hd]. now apply Nat.eqb_eq.
Qed.

Lemma ordered_tag_l (a a' b : detection) : same_tag a' a -> ordered a b -> ordered a' b.
Proof.
  unfold same_tag, ordered, dscore. intros (Hc & Hcc & Hp) [H1 H2].
  rewrite Hp. split; auto. intros E. rewrite Hc, Hcc. auto.
Qed.

Lemma ordered_tag_r (a b b' : detection) : same_tag b' b -> ordered a b -> ordered a b'.
Proof.
  unfold same_tag, ordered, dscore. intros (Hc & Hcc & Hp) [H1 H2].
  rewrite Hp, Hc, Hcc. auto.
Qed.

Section ImageRun.

Variable G : Shapely.
Variable nms_thres : R.

(** The rows kept for a list of labels in ascending order. *)
Lemma nms_labels_keeps (P : detection -> Prop) (detections : list detection) :
  (forall a b, same_tag a b -> P b -> P a) ->
  StronglySorted (fun a b => dscore b <= dscore a) detections ->
  Forall P detections ->
  forall labels keep,
  StronglySorted lt labels ->
  NMS.nms_labels G nms_thres detections labels = Ok keep ->
  StronglySorted ordered keep /\ Forall P keep /\
  Forall (fun d => In (dcls_pred d) labels) keep.
Proof.
  intros HP HS HF. induction labels as [|x labels IH]; intros keep HL H.
  - simpl in H. injection H as <-. repeat split; constructor.
  - cbn [NMS.nms_labels] in H.
    destruct (NMS.nms_label G nms_thres detections x) as [k|e] eqn:Hk; cbn [bind] in H;
      try discriminate.
    destruct (NMS.nms_labels G nms_thres detections labels) as [ks|e] eqn:Hks;
      cbn [bind] in H; try discriminate.
    injection H as <-. inversion HL as [|? ? HL' Hx]; subst.
    destruct (IH ks HL' eq_refl) as (IH1 & IH2 & IH3).
    unfold NMS.nms_label in Hk.
    set (g := filter (fun d => (dcls_pred d =? x)%nat) detections) in Hk.
    assert (Hg : Forall (fun d => dcls_pred d = x) g) by apply filter_label_Forall.
    assert (Hkx : Forall (fun d => dcls_pred d = x) k).
    { apply (nms_while_Forall G nms_thres (fun d => dcls_pred d = x)) in Hk; auto.
      intros a b (_ & _ & E) Hb. congruence. }
    assert (Hko : StronglySorted ordered k).
    { apply (nms_while_sorted G nms_thres ordered ordered_tag_l ordered_tag_r) in Hk; auto.
      apply (ordered_of_desc x); auto. now apply filter_sorted. }
    assert (HkP : Forall P k).
    { apply (nms_while_Forall G nms_thres P HP) in Hk; auto.
      unfold g. rewrite <- select_filter. now apply select_Forall. }
    repeat split.
    + apply sorted_app; auto. intros a b Ha Hb.
      rewrite Forall_forall in Hkx, IH3, Hx.
      specialize (Hkx a Ha). specialize (Hx _ (IH3 b Hb)).
      unfold ordered. split; lia.
    + apply Forall_app. now split.
    + apply Forall_app. split.
      * eapply Forall_impl; [|exact Hkx]. intros a ->. now left.
      * eapply Forall_impl; [|exact IH3]. intros a Ha. now right.
Qed.

(** What the suppression returns: at most [max_det] rows, by ascending
    class and descending score, with the confidence entries of its input. *)
Lemma nms_keeps (P : detection -> Prop) (detections out : list detection) :
  (forall a b, same_tag a b -> P b -> P a) ->
  StronglySorted (fun a b => dscore b <= dscore a) detections ->
  Forall P detections ->
  NMS.nms G nms_thres detections = Ok out ->
  StronglySorted ordered out /\ Forall P out /\ (length out <= NMS.max_det)%nat.
Proof.
  intros HP HS HF H. unfold NMS.nms in H.
  destruct (NMS.nms_labels G nms_thres detections _) as [k|e] eqn:Hk; cbn [bind] in H;
    try discriminate.
  assert (E : out = firstn NMS.max_det k) by (injection H; intros E; symmetry; exact E).
  subst out. clear H.
  destruct (nms_labels_keeps P detections HP HS HF _ _ (unique_sorted _) Hk) as (H1 & H2 & _).
  repeat split.
  - now apply firstn_sorted.
  - apply Forall_forall. intros d Hd. rewrite Forall_forall in H2. apply H2.
    revert Hd. apply firstn_incl.
  - apply firstn_le_length.
Qed.

Lemma to_detection_score (c : candidate) (d : detection) (s : R) :
  NMS.score c = Ok s -> NMS.to_detection c = Ok d ->
  dscore d = s /\ dconf d = cconf c.
Proof.
  unfold NMS.score, NMS.to_detection, dscore.
  destruct (max_dim (ccls c)) as [m|e]; cbn [bind]; try discriminate.
  intros [= <-] [= <-]. now cbn.
Qed.

(** The rows that enter the suppression are in descending order of score
    and carry the confidences of candidates. *)
Lemma prepare_sorted (image_pred : list candidate) (detections : list detection) :
  NMS.prepare image_pred = Ok detections ->
  StronglySorted (fun a b => dscore b <= dscore a) detections /\
  Forall (fun d => exists c, In c image_pred /\ cconf c = dconf d) detections.
Proof.
  unfold NMS.prepare.
  destruct (mapM _ image_pred) as [scored|e] eqn:Hs; cbn [bind]; try discriminate.
  intros H. apply mapM_Forall2 in Hs, H.
  rewrite firstn_map in H. apply Forall2_map_l in H.
  set (sorted := firstn NMS.max_nms (sort_desc snd scored)) in H.
  assert (Hsc : Forall (fun p => NMS.score (fst p) = Ok (snd p) /\ In (fst p) image_pred) scored).
  { clear H sorted. induction Hs as [|c p cs ps Hcp Hl IH]; constructor.
    - destruct (NMS.score c) as [s|e] eqn:Es; cbn [bind] in Hcp; try discriminate.
      injection Hcp as <-. cbn [fst snd]. split; [exact Es|now left].
    - eapply Forall_impl; [|exact IH]. intros a [Ha Hin]. split; auto. now right. }
  assert (Hsorted : Forall (fun p => NMS.score (fst p) = Ok (snd p) /\ In (fst p) image_pred)
                           sorted).
  { apply Forall_forall. intros p Hp. rewrite Forall_forall in Hsc. apply Hsc.
    apply (sort_desc_In snd). revert Hp. apply firstn_incl. }
  pose proof (Forall2_and_Forall _ _ _ _ H Hsorted) as HF.
  split.
  - refine (Forall2_sorted _ (fun a b => snd b <= snd a) _ sorted detections _ HF _).
    + intros a b a' b' [[Ha _] Hb] [[Ha' _] Hb'] Hle.
      destruct (to_detection_score _ _ _ Ha Hb) as [-> _].
      destruct (to_detection_score _ _ _ Ha' Hb') as [-> _]. exact Hle.
    + apply firstn_sorted. apply sort_desc_sorted.
  - refine (Forall2_Forall_r _ (fun _ => True) _ sorted detections _ HF _).
    + intros a b [[Ha Hin] Hb] _. exists (fst a). split; auto.
      destruct (to_detection_score _ _ _ Ha Hb) as [_ ->]. reflexivity.
    + apply Forall_forall. auto.
Qed.

End ImageRun.

Lemma max_det_le_max_nms : (NMS.max_det <= NMS.max_nms)%nat.
Proof. apply Nat.leb_le. reflexivity. Qed.

Section SecondRun.

Variable G : Shapely.
Variable nms_thres : R.
Variable conf_thres : R.

Lemma encodes_score (c : candidate) (d : detection) :
  encodes c d -> NMS.score c = Ok (dscore d) /\ NMS.to_detection c = Ok d.
Proof.
  intros (Hb & Hc & Hm). unfold NMS.score, NMS.to_detection, dscore.
  rewrite Hm, Hb, Hc. cbn [bind fst snd]. split; [reflexivity|]. now destruct d.
Qed.

(** Candidates that encode a list of detections are decoded to these
    detections, in descending order of score. *)
Lemma prepare_encoded (cs : list candidate) (ds : list detection) :
  Forall2 encodes cs ds -> (length ds <= NMS.max_nms)%nat ->
  NMS.prepare cs = Ok (sort_desc dscore ds).
Proof.
  intros HF Hlen. unfold NMS.prepare.
  assert (Hs : mapM (fun c => s <- NMS.score c ;; Ok (c, s)) cs
               = Ok (combine cs (map dscore ds))).
  { apply mapM_Forall2. clear Hlen.
    induction HF as [|c d cs ds Hcd Hl IH]; simpl; constructor; auto.
    destruct (encodes_score _ _ Hcd) as [-> _]. reflexivity. }
  rewrite Hs. cbn [bind].
  assert (HF' : Forall2 (fun p d => encodes (fst p) d /\ snd p = dscore d)
                        (combine cs (map dscore ds)) ds).
  { clear Hs Hlen. induction HF; simpl; constructor; auto. }
  apply (sort_desc_Forall2 _ snd dscore) in HF'; [|now intros a b [_ E]].
  pose proof (Forall2_length HF') as Hl. rewrite !sort_desc_length in Hl.
  rewrite firstn_all2 by (rewrite length_map, sort_desc_length; lia).
  apply mapM_Forall2. apply Forall2_map_l.
  eapply Forall2_impl; [|exact HF']. intros a b [H _]. now apply encodes_score.
Qed.

Lemma nms_labels_settled (out : list detection) :
  StronglySorted ordered out ->
  Forall (fun d => dconf d <> 0) out ->
  (forall label, settled G nms_thres (filter (fun d => (dcls_pred d =? label)%nat) out)) ->
  forall labels,
  NMS.nms_labels G nms_thres (sort_desc dscore out) labels
  = Ok (concat (map (fun x => filter (fun d => (dcls_pred d =? x)%nat) out) labels)).
Proof.
  intros HS Hc Hq. induction labels as [|x labels IH]; [reflexivity|].
  cbn [NMS.nms_labels map concat]. rewrite IH.
  unfold NMS.nms_label. rewrite sort_desc_filter.
  rewrite sort_desc_id.
  2:{ apply (desc_of_ordered x); [apply filter_label_Forall|now apply filter_sorted]. }
  rewrite nms_while_settled; auto.
  rewrite <- select_filter. now apply select_Forall.
Qed.

(** Rows in the order of an output, without overlap reported inside a
    class, come back unchanged from the suppression. *)
Lemma nms_settled (out : list detection) :
  StronglySorted ordered out ->
  Forall (fun d => dconf d <> 0) out ->
  (length out <= NMS.max_det)%nat ->
  (forall label, settled G nms_thres (filter (fun d => (dcls_pred d =? label)%nat) out)) ->
  NMS.nms G nms_thres (sort_desc dscore out) = Ok out.
Proof.
  intros HS Hc Hlen Hq. unfold NMS.nms.
  rewrite (nms_labels_settled out HS Hc Hq). cbn [bind].
  rewrite (unique_ext _ (map dcls_pred out)).
  2:{ intros x. rewrite !in_map_iff. split; intros [d [E Hd]]; exists d; split; auto;
      now apply (sort_desc_In dscore). }
  rewrite groups_concat.
  - now rewrite firstn_all2.
  - eapply sorted_impl; [|exact HS]. now intros a b [H _].
Qed.

End SecondRun.

Lemma filter_all {A : Type} (f : A -> bool) (l : list A) :
  Forall (fun x => f x = true) l -> filter f l = l.
Proof. induction 1 as [|x l Hx Hl IH]; simpl; auto. now rewrite Hx, IH. Qed.

Section Idempotence.

Variable G : Shapely.
Variable nms_thres : R.
Variable conf_thres : R.

(** The rows returned for an image: their order, their confidences and
    their number. *)
Lemma post_process_image_keeps (image_pred : list candidate) (out : list detection) :
  NMS.post_process_image G nms_thres conf_thres image_pred = Ok out ->
  StronglySorted ordered out /\ Forall (fun d => conf_thres <= dconf d) out /\
  (length out <= NMS.max_det)%nat.
Proof.
  unfold NMS.post_process_image.
  set (f := filter (fun c => Rgeb (cconf c) conf_thres) image_pred).
  assert (Hf : Forall (fun c => conf_thres <= cconf c) f).
  { apply Forall_forall. intros c Hc. apply filter_In in Hc as [_ Hc]. now apply Rgeb_true. }
  destruct f as [|c0 f0] eqn:Ef.
  - intros [= <-]. repeat split; try constructor. simpl. lia.
  - rewrite <- Ef in *. clear Ef.
    destruct (NMS.prepare f) as [dets|e] eqn:Hp; cbn [bind]; try discriminate.
    intros H. destruct (prepare_sorted _ _ Hp) as [HS HC].
    apply (nms_keeps G nms_thres (fun d => conf_thres <= dconf d) dets out); auto.
    + intros a b (E & _) Hb. now rewrite E.
    + eapply Forall_impl; [|exact HC]. intros d [c [Hc <-]].
      rewrite Forall_forall in Hf. now apply Hf.
Qed.

Lemma rerun_exact (l : list detection) :
  Forall (fun d => dconf d <> 0) l -> rerun l = l.
Proof.
  induction 1 as [|d l Hd Hl IH]; cbn [rerun]; [reflexivity|]. rewrite IH. f_equal.
  destruct l as [|d' l']; [reflexivity|].
  destruct (dcls_pred d' =? dcls_pred d)%nat; [|reflexivity]. now apply merge_nil.
Qed.

(** C3 (as amended): a second run on candidates that encode the output of
    a first run returns the rows of that output in the same order,
    provided that inside each class of that output the gated overlap test
    of a row against the rows after it reports no overlap, and the scores
    of a class are pairwise different (so that the order of the sort is
    determined).  Every row keeps its angle, confidence and class entries;
    the last row of a class is returned as it is, and [x, y, w, h] of
    every other row are recomputed by the merge with no suppressed row,
    [(v * conf + 0) / (conf + 0)]. *)
Theorem second_run_recomputes_settled_rows (image_pred cands2 : list candidate)
  (out : list detection) :
  0 < conf_thres ->
  NMS.post_process_image G nms_thres conf_thres image_pred = Ok out ->
  Forall2 encodes cands2 out ->
  (forall label, settled G nms_thres (filter (fun d => (dcls_pred d =? label)%nat) out)) ->
  (forall label, StronglySorted (fun a b => dscore b < dscore a)
                   (filter (fun d => (dcls_pred d =? label)%nat) out)) ->
  NMS.post_process_image G nms_thres conf_thres cands2 = Ok (rerun out).
Proof.
  intros Hpos H1 Henc Hq _.
  destruct (post_process_image_keeps _ _ H1) as (HS & HC & Hlen).
  rewrite rerun_exact
    by (eapply Forall_impl; [|exact HC]; intros d Hd; cbv beta in Hd; lra).
  unfold NMS.post_process_image.
  rewrite filter_all.
  2:{ refine (Forall2_Forall_r (fun d c => encodes c d) _ _ out cands2 _ _ HC).
      - intros d c (_ & E & _) Hd. apply Rgeb_true. now rewrite E.
      - clear -Henc. induction Henc; constructor; auto. }
  destruct cands2 as [|c0 cs0] eqn:E.
  - inversion Henc. reflexivity.
  - rewrite <- E in *. clear E.
    rewrite (prepare_encoded cands2 out Henc).
    2:{ pose proof max_det_le_max_nms. lia. }
    cbn [bind]. apply nms_settled; auto.
    eapply Forall_impl; [|exact HC]. intros d Hd. cbv beta in Hd. lra.
Qed.

End Idempotence.

(** ** Two runs on three overlapping squares *)

Lemma aa_iou_sq0_sq4 : PostProcess.aa_iou (sq 0) (sq 4) = 60 / (140 + 1e-15).
Proof. unfold sq. aa_eval. Qed.

Lemma aa_iou_sq0_sq6 : PostProcess.aa_iou (sq 0) (sq 6) = 40 / (160 + 1e-15).
Proof. unfold sq. aa_eval. Qed.

Lemma aa_iou_sq2_sq6 : PostProcess.aa_iou (sq 2) (sq 6) = 60 / (140 + 1e-15).
Proof. unfold sq. aa_eval. Qed.

Lemma aa_iou_sq0_sq100 : PostProcess.aa_iou (sq 0) (sq 100) = 0.
Proof. unfold sq. aa_eval. Qed.

Lemma iou_sq0_sq4_sq6 :
  PostProcess.iou Convex.shapely (sq 0) [sq 4; sq 6] 0.4 = Ok [true; false].
Proof.
  unfold PostProcess.iou. cbn [map existsb]. rewrite aa_iou_sq0_sq4, aa_iou_sq0_sq6.
  rbool. cbn [orb select]. rewrite skewiou_sq0_sq4. cbn [bind map scatter].
  rbool. reflexivity.
Qed.

Lemma iou_sq2_sq6 : PostProcess.iou Convex.shapely (sq 2) [sq 6] 0.4 = Ok [true].
Proof.
  unfold PostProcess.iou. cbn [map existsb]. rewrite aa_iou_sq2_sq6.
  rbool. cbn [orb select]. rewrite skewiou_sq2_sq6. cbn [bind map scatter].
  rbool. reflexivity.
Qed.

Lemma iou_sq0_sq100 (G : Shapely) : PostProcess.iou G (sq 0) [sq 100] 0.4 = Ok [false].
Proof.
  unfold PostProcess.iou. cbn [map existsb]. rewrite aa_iou_sq0_sq100.
  rbool. reflexivity.
Qed.

Lemma detection_eq (b b' : rbox) (c c' cc cc' : R) (p : nat) :
  bx b = bx b' -> by_ b = by_ b' -> bw b = bw b' -> bh b = bh b' -> ba b = ba b' ->
  c = c' -> cc = cc' -> mkdet b c cc p = mkdet b' c' cc' p.
Proof. destruct b, b'; simpl; intros; subst; reflexivity. Qed.

(** Equality of two closed rows of detections. *)
Ltac det_eq :=
  unfold NMS.merge, NMS.merge_col;
  cbn [map Rsum fold_right dbox dconf dcls_conf dcls_pred bx by_ bw bh ba];
  apply detection_eq; cbn [bx by_ bw bh ba]; lra.

Lemma merge_dA_dB : NMS.merge dA [dB] = dM.
Proof. unfold dA, dB, dM, sq. det_eq. Qed.

Lemma merge_dM_dC : NMS.merge dM [dC] = dM2.
Proof. unfold dM, dC, dM2, sq. det_eq. Qed.

Lemma nms_first_run : NMS.nms Convex.shapely 0.4 [dA; dB; dC] = Ok [dM; dC].
Proof.
  unfold NMS.nms. cbn [map dcls_pred dA dB dC unique fold_right insert_label Nat.ltb Nat.leb Nat.eqb].
  cbn [NMS.nms_labels]. unfold NMS.nms_label.
  cbn [filter dcls_pred dA dB dC Nat.eqb length NMS.nms_while]. unfold NMS.nms_iter at 1.
  cbn [map dbox dA dB dC].
  rewrite iou_sq0_sq4_sq6. cbn [bind select map negb fst snd NMS.nms_while NMS.nms_iter app].
  rewrite merge_dA_dB. reflexivity.
Qed.

Lemma nms_second_run : NMS.nms Convex.shapely 0.4 [dM; dC] = Ok [dM2].
Proof.
  unfold NMS.nms. cbn [map dcls_pred dM dC unique fold_right insert_label Nat.ltb Nat.leb Nat.eqb].
  cbn [NMS.nms_labels]. unfold NMS.nms_label.
  cbn [filter dcls_pred dM dC Nat.eqb length NMS.nms_while]. unfold NMS.nms_iter at 1.
  cbn [map dbox dM dC].
  rewrite iou_sq2_sq6. cbn [bind select map negb fst snd NMS.nms_while NMS.nms_iter app].
  rewrite merge_dM_dC. reflexivity.
Qed.

(** Evaluate [prepare] on closed candidates. *)
Ltac prepare_eval :=
  unfold NMS.prepare, NMS.score, NMS.to_detection;
  cbn [mapM bind max_dim max_from ccls cconf cbox fst snd];
  unfold sort_desc; cbn [fold_right insert_desc snd];
  repeat (progress (rbool; cbn [insert_desc snd]));
  cbn [map fst firstn NMS.max_nms mapM bind max_dim max_from ccls cconf cbox snd].

Lemma prepare_first_run : NMS.prepare [candA; candB; candC] = Ok [dA; dB; dC].
Proof. unfold candA, candB, candC. prepare_eval. reflexivity. Qed.

Lemma prepare_second_run : NMS.prepare [candM; candC] = Ok [dM; dC].
Proof. unfold candM, candC. prepare_eval. reflexivity. Qed.

Lemma prepare_far : NMS.prepare [candFar; candA] = Ok [dA; dFar].
Proof. unfold candFar, candA. prepare_eval. reflexivity. Qed.

(** Evaluate the confidence filter on closed candidates. *)
Ltac filter_eval :=
  unfold NMS.post_process_image; cbn [filter cconf]; rbool.

Lemma post_process_first_run :
  NMS.post_process_image Convex.shapely 0.4 0.5 [candA; candB; candC] = Ok [dM; dC].
Proof.
  unfold candA, candB, candC. filter_eval. fold candA candB candC.
  rewrite prepare_first_run. cbn [bind]. exact nms_first_run.
Qed.

Lemma post_process_second_run :
  NMS.post_process_image Convex.shapely 0.4 0.5 [candM; candC] = Ok [dM2].
Proof.
  unfold candM, candC. filter_eval. fold candM candC.
  rewrite prepare_second_run. cbn [bind]. exact nms_second_run.
Qed.

Lemma encodes_first_output : Forall2 encodes [candM; candC] [dM; dC].
Proof. repeat constructor. Qed.

(** C3 (counterexample): three 10 x 10 squares of one class centred at
    x = 0, 4 and 6, with scores 0.9, 0.8 and 0.7, and [nms_thres = 0.4].
    The first run merges the second square into the first, which moves
    to x = 2, and keeps the third (its axis-aligned ratio with the first is
    0.25).  On that output the moved box and the third square overlap with
    ratio 6/14 > 0.4, and the second run returns a single detection. *)
Lemma second_run_suppresses_more :
  NMS.post_process_image Convex.shapely 0.4 0.5 [candA; candB; candC] = Ok [dM; dC] /\
  Forall2 encodes [candM; candC] [dM; dC] /\
  NMS.post_process_image Convex.shapely 0.4 0.5 [candM; candC] = Ok [dM2] /\
  [dM2] <> [dM; dC].
Proof.
  split; [exact post_process_first_run|].
  split; [exact encodes_first_output|].
  split; [exact post_process_second_run|discriminate].
Qed.

Lemma nms_far : NMS.nms Convex.shapely 0.4 [dA; dFar] = Ok [dA; dFar].
Proof.
  unfold NMS.nms.
  cbn [map dcls_pred dA dFar unique fold_right insert_label Nat.ltb Nat.leb Nat.eqb].
  cbn [NMS.nms_labels]. unfold NMS.nms_label.
  cbn [filter dcls_pred dA dFar Nat.eqb length NMS.nms_while]. unfold NMS.nms_iter at 1.
  cbn [map dbox dA dFar].
  rewrite iou_sq0_sq100. cbn [bind select map negb fst snd NMS.nms_while NMS.nms_iter app].
  fold dA dFar. rewrite merge_nil by (cbn; lra). reflexivity.
Qed.

Lemma post_process_far :
  NMS.post_process_image Convex.shapely 0.4 0.5 [candFar; candA] = Ok [dA; dFar].
Proof.
  unfold candFar, candA. filter_eval. fold candFar candA.
  rewrite prepare_far. cbn [bind]. exact nms_far.
Qed.

(** C3 (witness): two squares 100 apart, of scores 0.9 and 0.8. *)
Lemma second_run_recomputes_settled_rows_witness :
  NMS.post_process_image Convex.shapely 0.4 0.5 [candA; candFar] = Ok (rerun [dA; dFar]).
Proof.
  apply (second_run_recomputes_settled_rows Convex.shapely 0.4 0.5 [candFar; candA]
           [candA; candFar]).
  - lra.
  - exact post_process_far.
  - repeat constructor.
  - intros [|label]; cbn [filter dcls_pred dA dFar Nat.eqb settled].
    + split; [right; exact (iou_sq0_sq100 Convex.shapely)|]. split; [now left|exact I].
    + exact I.
  - intros [|label]; cbn [filter dcls_pred dA dFar Nat.eqb].
    + repeat constructor. unfold dscore, dA, dFar. cbn [dconf dcls_conf]. lra.
    + constructor.
Defined.

(** ** [bbox_xywha_ciou] *)

Lemma ciou_pair_fst (p t : rbox) :
  fst (Loss.ciou_pair p t) = PostProcess.aa_iou p t * Rabs (cos (ba p - ba t)).
Proof.
  unfold Loss.ciou_pair, PostProcess.aa_iou, PostProcess.xywh2xyxy. cbn [fst].
  replace (bx p + bw p / 2 - (bx p - bw p / 2)) with (bw p) by lra.
  replace (by_ p + bh p / 2 - (by_ p - bh p / 2)) with (bh p) by lra.
  replace (bx t + bw t / 2 - (bx t - bw t / 2)) with (bw t) by lra.
  replace (by_ t + bh t / 2 - (by_ t - bh t / 2)) with (bh t) by lra.
  reflexivity.
Qed.

Lemma ciou_pair_snd (p t : rbox) : snd (Loss.ciou_pair p t) = ciou_spec p t.
Proof.
  unfold Loss.ciou_pair, ciou_spec, PostProcess.aa_iou, PostProcess.xywh2xyxy. cbn [snd].
  replace (bx p + bw p / 2 - (bx p - bw p / 2)) with (bw p) by lra.
  replace (by_ p + bh p / 2 - (by_ p - bh p / 2)) with (bh p) by lra.
  replace (bx t + bw t / 2 - (bx t - bw t / 2)) with (bw t) by lra.
  replace (by_ t + bh t / 2 - (by_ t - bh t / 2)) with (bh t) by lra.
  replace ((bx t + bw t / 2 + (bx t - bw t / 2)) / 2) with (bx t) by lra.
  replace ((bx p + bw p / 2 + (bx p - bw p / 2)) / 2) with (bx p) by lra.
  replace ((by_ t + bh t / 2 + (by_ t - bh t / 2)) / 2) with (by_ t) by lra.
  replace ((by_ p + bh p / 2 + (by_ p - bh p / 2)) / 2) with (by_ p) by lra.
  reflexivity.
Qed.


Lemma map2_length {A B C : Type} (f : A -> B -> C) (l : list A) (l' : list B) :
  length l = length l' -> length (map2 f l l') = length l.
Proof.
  revert l'; induction l as [|x l IH]; intros [|y l']; simpl; auto; discriminate.
Qed.













(** ** Degenerate boxes in [skewiou] *)

(** Twice the signed area of the ring of a box. *)
Lemma signed_area2_rbox2polygon (b : rbox) :
  Convex.signed_area2 (PostProcess.rbox2polygon b)
  = 2 * bw b * bh b * ((cos (ba b)) ^ 2 + (sin (ba b)) ^ 2).
Proof.
  rewrite rbox2polygon_eq. unfold Convex.signed_area2.
  cbn [Convex.shoelace fst snd]. cbv zeta. cbn [fst snd]. field.
Qed.



(** Two valid rings that do not intersect have ratio 0. *)
Lemma skewiou_disjoint (G : Shapely) (box1 box2 : rbox) :
  is_valid G (PostProcess.rbox2polygon box1) = true ->
  is_valid G (PostProcess.rbox2polygon box2) = true ->
  intersects G (PostProcess.rbox2polygon box1) (PostProcess.rbox2polygon box2) = false ->
  PostProcess.skewiou G box1 [box2] = Ok [0].
Proof.
  intros H1 H2 H3. unfold PostProcess.skewiou, PostProcess.skewiou_loop, PostProcess.get_iou.
  now rewrite H1, H2, H3.
Qed.









(** ** Index assignment *)

Lemma idx_eqb_eq (i j : idx) : idx_eqb i j = true <-> i = j.
Proof.
  destruct i as [[[a b] c] d], j as [[[a' b'] c'] d']. unfold idx_eqb.
  rewrite !andb_true_iff, !Nat.eqb_eq. split.
  - intros [[[-> ->] ->] ->]. reflexivity.
  - intros [= -> -> -> ->]. auto.
Qed.

Lemma idx_eqb_refl (i : idx) : idx_eqb i i = true.
Proof. now apply idx_eqb_eq. Qed.

Lemma idx_eqb_neq (i j : idx) : idx_eqb i j = false <-> i <> j.
Proof.
  destruct (idx_eqb i j) eqn:E.
  - apply idx_eqb_eq in E. split; [discriminate|congruence].
  - split; auto. intros _ H. apply idx_eqb_eq in H. congruence.
Qed.

Lemma upd_same {A : Type} (t : idx -> A) (i : idx) (v : A) : upd t i v i = v.
Proof. unfold upd. now rewrite idx_eqb_refl. Qed.

Lemma upd_other {A : Type} (t : idx -> A) (i j : idx) (v : A) : j <> i -> upd t i v j = t j.
Proof. intros H. unfold upd. apply idx_eqb_neq in H. now rewrite H. Qed.

(** A cell that no row addresses keeps its value. *)
Lemma index_put_notin {A : Type} (idxs : list idx) (vals : list A) (t : idx -> A) (i : idx) :
  ~ In i idxs -> index_put t idxs vals i = t i.
Proof.
  revert vals t; induction idxs as [|j idxs IH]; intros [|v vals] t H; simpl; auto.
  rewrite IH by (intros Hi; apply H; now right).
  apply upd_other. intros ->. apply H. now left.
Qed.

(** Writing the value a cell already holds, whatever the rows. *)
Lemma index_put_const {A : Type} (v : A) (idxs : list idx) (vals : list A) (t : idx -> A)
  (i : idx) :
  Forall (fun x => x = v) vals -> t i = v -> index_put t idxs vals i = v.
Proof.
  revert vals t; induction idxs as [|j idxs IH]; intros [|x vals] t HF Ht; simpl; auto.
  inversion HF; subst. apply IH; auto.
  unfold upd. destruct (idx_eqb i j); auto.
Qed.

(** A cell addressed by a row of a constant assignment holds the constant. *)
Lemma index_put_in {A : Type} (v : A) (idxs : list idx) (vals : list A) (t : idx -> A)
  (i : idx) :
  Forall (fun x => x = v) vals -> length vals = length idxs -> In i idxs ->
  index_put t idxs vals i = v.
Proof.
  revert vals t; induction idxs as [|j idxs IH]; intros [|x vals] t HF Hl Hi; simpl in *;
    try contradiction; try discriminate.
  inversion HF; subst. injection Hl as Hl.
  destruct (idx_eqb i j) eqn:E.
  - apply idx_eqb_eq in E. subst j. apply index_put_const; auto. apply upd_same.
  - apply idx_eqb_neq in E. destruct Hi as [->|Hi]; [congruence|]. apply IH; auto.
Qed.

(** The last row that addresses a cell decides its value. *)
Lemma index_put_last {A : Type} (l1 l2 : list idx) (v1 v2 : list A) (i : idx) (v : A)
  (t : idx -> A) :
  length l1 = length v1 -> ~ In i l2 ->
  index_put t (l1 ++ i :: l2) (v1 ++ v :: v2) i = v.
Proof.
  revert v1 t; induction l1 as [|j l1 IH]; intros [|x v1] t Hl Hn; simpl in *;
    try discriminate.
  - rewrite index_put_notin by exact Hn. apply upd_same.
  - apply IH; auto.
Qed.

Lemma index_put_changed {A : Type} (idxs : list idx) (vals : list A) (t : idx -> A) (i : idx) :
  index_put t idxs vals i <> t i -> In i idxs.
Proof.
  intros H. destruct (in_dec (fun a b : idx => ltac:(repeat decide equality)) i idxs) as [Hi|Hi];
    auto.
  exfalso. apply H. now apply index_put_notin.
Qed.

Lemma map_const_Forall {A B : Type} (v : B) (l : list A) :
  Forall (fun x => x = v) (map (fun _ => v) l).
Proof. induction l; simpl; constructor; auto. Qed.

Lemma select_seq_In (mask : list bool) (k n : nat) :
  nth_error mask n = Some true -> In (k + n)%nat (select mask (seq k (length mask))).
Proof.
  revert k n; induction mask as [|m mask IH]; intros k [|n] H; simpl in *; try discriminate.
  - injection H as ->. left. lia.
  - specialize (IH (S k) n H). replace (k + S n)%nat with (S k + n)%nat by lia.
    destruct m; [right|]; exact IH.
Qed.

(** ** Target assignment *)

Lemma map2_map_map {A B C D : Type} (f : B -> C -> D) (g : A -> B) (h : A -> C) (l : list A) :
  map2 f (map g l) (map h l) = map (fun x => f (g x) (h x)) l.
Proof. induction l; simpl; auto. now f_equal. Qed.

(** The tensors of a successful call. *)
Lemma build_targets_inv (anchor_wh_iou : R * R -> R * R -> R) (masked_anchors : list anchor)
  (stride ignore_thresh : R) (nB nG nC : nat)
  (pred_boxes : idx -> rbox) (pred_cls : idx -> list R)
  (target : list gt) (T : Loss.targets) :
  Loss.build_targets anchor_wh_iou masked_anchors stride ignore_thresh nB nG nC
    pred_boxes pred_cls target = Ok T ->
  let gt_idx := Loss.gt_idx anchor_wh_iou masked_anchors nG in
  let pair t := Loss.ciou_pair (pred_boxes (gt_idx t)) (Loss.target_box nG t) in
  let scale t := 2.0 - 1.0 * (gw t * INR nG) * (gh t * INR nG) / ((stride * INR nG) ^ 2) in
  let idxs := map gt_idx target in
  Loss.obj_mask T = Loss.to_bool (index_put (fun _ => 0) idxs (map (fun _ => 1) target)) /\
  Loss.noobj_mask T
  = Loss.to_bool (fold_left (Loss.ignore_step anchor_wh_iou masked_anchors ignore_thresh nG)
                    target (index_put (fun _ => 1) idxs (map (fun _ => 0) target))) /\
  Loss.skew_iou T
  = index_put (fun _ => 0) idxs (map (fun t => exp (1 - fst (pair t)) - 1) target) /\
  Loss.ciou_loss T
  = index_put (fun _ => 0) idxs (map (fun t => scale t * (1.0 - snd (pair t))) target) /\
  Loss.tconf T = index_put (fun _ => 0) idxs (map (fun _ => 1) target).
Proof.
  unfold Loss.build_targets.
  destruct masked_anchors as [|a0 anchors] eqn:Ea; [discriminate|]. rewrite <- Ea.
  destruct (negb (forallb _ (map _ target))); [discriminate|].
  destruct (negb (forallb _ target)); [discriminate|].
  unfold Loss.bbox_xywha_ciou. rewrite !length_map, Nat.eqb_refl. cbn [negb bind].
  destruct (nC =? 0)%nat; [discriminate|].
  destruct (mapM _ target) as [cm|e]; cbn [bind]; [|discriminate].
  intros [= <-]. cbn [Loss.obj_mask Loss.noobj_mask Loss.skew_iou Loss.ciou_loss Loss.tconf].
  cbv zeta. rewrite (map_map (Loss.gt_idx _ _ _) pred_boxes), map2_map_map, !map_map.
  repeat split.
  rewrite map2_map_map. reflexivity.
Qed.

Section TargetAssignment.

Variable anchor_wh_iou : R * R -> R * R -> R.
Variable masked_anchors : list anchor.
Variable stride : R.
Variable ignore_thresh : R.
Variables nB nG nC : nat.

Let gt_idx := Loss.gt_idx anchor_wh_iou masked_anchors nG.
Let target_box := Loss.target_box nG.
Let ignore_step := Loss.ignore_step anchor_wh_iou masked_anchors ignore_thresh nG.
Let build_targets :=
  Loss.build_targets anchor_wh_iou masked_anchors stride ignore_thresh nB nG nC.

Lemma mask_put_zero (t : idx -> R) (b : nat) (mask : list bool) (gj gi : nat) (i : idx) :
  t i = 0 -> Loss.mask_put t b mask gj gi 0 i = 0.
Proof. intros H. unfold Loss.mask_put. apply index_put_const; auto. apply map_const_Forall. Qed.

Lemma mask_put_hit (t : idx -> R) (b : nat) (mask : list bool) (gj gi n : nat) :
  nth_error mask n = Some true -> Loss.mask_put t b mask gj gi 0 (b, n, gj, gi) = 0.
Proof.
  intros H. unfold Loss.mask_put. apply index_put_in.
  - apply map_const_Forall.
  - now rewrite !length_map.
  - apply in_map_iff. exists n. split; auto. apply (select_seq_In mask 0 n H).
Qed.

(** The loop over the ground truths only clears cells. *)
Lemma ignore_step_zero (t : idx -> R) (g : gt) (i : idx) :
  t i = 0 -> ignore_step t g i = 0.
Proof.
  intros H. unfold ignore_step, Loss.ignore_step.
  destruct (Loss.gt_idx _ _ _ g) as [[[b n] gj] gi].
  apply mask_put_zero. now apply mask_put_zero.
Qed.

Lemma fold_ignore_zero (target : list gt) (t : idx -> R) (i : idx) :
  t i = 0 -> fold_left ignore_step target t i = 0.
Proof.
  revert t; induction target as [|g target IH]; intros t H; simpl; auto.
  apply IH. now apply ignore_step_zero.
Qed.

Lemma to_bool_zero (t : idx -> R) (i : idx) : t i = 0 -> Loss.to_bool t i = false.
Proof. intros H. unfold Loss.to_bool. destruct (Req_dec_T (t i) 0); [reflexivity|contradiction]. Qed.

(** C8: no cell has both [obj_mask] and [noobj_mask] set. *)
Theorem masks_disjoint (pred_boxes : idx -> rbox) (pred_cls : idx -> list R)
  (target : list gt) (T : Loss.targets) (i : idx) :
  build_targets pred_boxes pred_cls target = Ok T ->
  Loss.obj_mask T i && Loss.noobj_mask T i = false.
Proof.
  intros H. destruct (build_targets_inv _ _ _ _ _ _ _ _ _ _ _ H) as (Ho & Hn & _).
  rewrite Ho, Hn. clear Ho Hn H.
  destruct (Loss.to_bool (index_put (fun _ => 0) _ _) i) eqn:E; [|reflexivity].
  cbn [andb]. apply to_bool_zero, fold_ignore_zero.
  apply index_put_in.
  - apply map_const_Forall.
  - now rewrite !length_map.
  - apply (index_put_changed _ (map (fun _ => 1) target) (fun _ => 0)).
    unfold Loss.to_bool in E. destruct (Req_dec_T _ 0); [discriminate|assumption].
Qed.


Lemma stored_values (pred_boxes : idx -> rbox) (pred_cls : idx -> list R)
  (l1 l2 : list gt) (t : gt) (T : Loss.targets) :
  build_targets pred_boxes pred_cls (l1 ++ t :: l2) = Ok T ->
  Forall (fun t' => gt_idx t' <> gt_idx t) l2 ->
  let s := fst (Loss.ciou_pair (pred_boxes (gt_idx t)) (target_box t)) in
  let ciou := snd (Loss.ciou_pair (pred_boxes (gt_idx t)) (target_box t)) in
  Loss.skew_iou T (gt_idx t) = exp (1 - s) - 1 /\
  Loss.ciou_loss T (gt_idx t)
  = (2.0 - 1.0 * (gw t * INR nG) * (gh t * INR nG) / ((stride * INR nG) ^ 2)) * (1.0 - ciou).
Proof.
  intros H Hl s ciou.
  destruct (build_targets_inv _ _ _ _ _ _ _ _ _ _ _ H) as (_ & _ & Hs & Hc & _). rewrite Hs, Hc.
  rewrite !map_app. cbn [map].
  assert (Hn : ~ In (gt_idx t) (map gt_idx l2)).
  { intros Hi. apply in_map_iff in Hi as [t' [E Hi]].
    rewrite Forall_forall in Hl. now apply (Hl t' Hi). }
  split; apply index_put_last; auto; now rewrite !length_map.
Qed.

(** C7 (as amended): at the cell of a ground truth that no later ground
    truth addresses, the stored [skew_iou] is [exp(1 - s) - 1] for the
    first value [s] returned by [bbox_xywha_ciou] on the matched pair,
    and the stored [ciou_loss] is [bbox_loss_scale * (1 - ciou)] for its
    second value [ciou], with
    [bbox_loss_scale = 2 - (gt_w * gt_h) / image_size^2], the sizes taken
    in grid units and [image_size = stride * nG]. *)
Theorem stored_diagnostics (pred_boxes : idx -> rbox) (pred_cls : idx -> list R)
  (l1 l2 : list gt) (t : gt) (T : Loss.targets) :
  build_targets pred_boxes pred_cls (l1 ++ t :: l2) = Ok T ->
  Forall (fun t' => gt_idx t' <> gt_idx t) l2 ->
  let s := fst (Loss.ciou_pair (pred_boxes (gt_idx t)) (target_box t)) in
  let ciou := snd (Loss.ciou_pair (pred_boxes (gt_idx t)) (target_box t)) in
  Loss.skew_iou T (gt_idx t) = exp (1 - s) - 1 /\
  Loss.ciou_loss T (gt_idx t)
  = (2.0 - 1.0 * (gw t * INR nG) * (gh t * INR nG) / ((stride * INR nG) ^ 2)) * (1.0 - ciou).
Proof. exact (stored_values pred_boxes pred_cls l1 l2 t T). Qed.

End TargetAssignment.

(** ** A closed call of [build_targets] *)

Lemma mapM_ok {A B : Type} (f : A -> result B) (l : list A) :
  (forall x, In x l -> exists y, f x = Ok y) -> exists l', mapM f l = Ok l'.
Proof.
  induction l as [|x l IH]; intros H; simpl; [now eexists|].
  destruct (H x (or_introl eq_refl)) as [y ->].
  destruct IH as [l' ->]; [intros; apply H; now right|]. cbn [bind]. now eexists.
Qed.

(** [build_targets] returns when there is an anchor, every ground truth
    lies in the batch and has a known class, and every matched cell has
    class scores. *)
Lemma build_targets_ok (anchor_wh_iou : R * R -> R * R -> R) (masked_anchors : list anchor)
  (stride ignore_thresh : R) (nB nG nC : nat)
  (pred_boxes : idx -> rbox) (pred_cls : idx -> list R) (target : list gt) :
  masked_anchors <> [] -> nC <> O ->
  forallb (Loss.in_bounds masked_anchors nB nG)
          (map (Loss.gt_idx anchor_wh_iou masked_anchors nG) target) = true ->
  forallb (fun t => (glabel t <? nC)%nat) target = true ->
  (forall t, In t target -> pred_cls (Loss.gt_idx anchor_wh_iou masked_anchors nG t) <> []) ->
  exists T,
    Loss.build_targets anchor_wh_iou masked_anchors stride ignore_thresh nB nG nC
      pred_boxes pred_cls target = Ok T.
Proof.
  intros Ha HnC Hb Hl Hc. unfold Loss.build_targets.
  destruct masked_anchors as [|a0 anchors] eqn:Ea; [congruence|]. rewrite <- Ea in *.
  rewrite Hb, Hl. cbn [negb].
  unfold Loss.bbox_xywha_ciou. rewrite !length_map, Nat.eqb_refl. cbn [negb bind].
  apply Nat.eqb_neq in HnC. rewrite HnC.
  destruct (mapM_ok (fun t => m <- max_dim (pred_cls (Loss.gt_idx anchor_wh_iou masked_anchors nG t)) ;;
                              Ok (if (snd m =? glabel t)%nat then 1 else 0)) target) as [cm Hcm].
  { intros t Ht. specialize (Hc t Ht).
    destruct (pred_cls (Loss.gt_idx anchor_wh_iou masked_anchors nG t)); [congruence|].
    cbn [max_dim bind]. now eexists. }
  rewrite Hcm. cbn [bind]. now eexists.
Qed.

Lemma cell_lt (nG : nat) (x : R) : (0 < nG)%nat -> (Loss.cell nG x < nG)%nat.
Proof. intros H. unfold Loss.cell. lia. Qed.

Lemma gt_idx1 : Loss.gt_idx anchor_wh_iou_model anchors1 1 gt1 = (0, 0, 0, 0)%nat.
Proof.
  unfold Loss.gt_idx. cbn [gb gt1].
  assert (H := cell_lt 1). 
  assert (E : forall x, Loss.cell 1 x = O) by (intros x; specialize (H x); lia).
  rewrite !E. reflexivity.
Qed.

Lemma build1_ok : build1 = Ok targets1.
Proof.
  unfold targets1.
  destruct (build_targets_ok anchor_wh_iou_model anchors1 32 0.5 1 1 1 pred_boxes1 pred_cls1 [gt1])
    as [T HT].
  - discriminate.
  - discriminate.
  - cbn [map forallb]. rewrite gt_idx1. reflexivity.
  - reflexivity.
  - intros t _. discriminate.
  - fold build1 in HT. now rewrite HT.
Qed.

Lemma target_box1 : Loss.target_box 1 gt1 = mkbox 0.5 0.5 1 1 0.
Proof.
  unfold Loss.target_box, gt1. cbn [gx gy gw gh ga INR]. f_equal; lra.
Qed.


(** C8 (witness): the cell of the ground truth of [build1]. *)
Lemma masks_disjoint_witness :
  Loss.obj_mask targets1 (0, 0, 0, 0)%nat && Loss.noobj_mask targets1 (0, 0, 0, 0)%nat = false.
Proof.
  apply (masks_disjoint anchor_wh_iou_model anchors1 32 0.5 1 1 1 pred_boxes1 pred_cls1
           [gt1] targets1 (0, 0, 0, 0)%nat).
  exact build1_ok.
Defined.


(** C7 (witness) *)
Lemma stored_diagnostics_witness :
  let i := Loss.gt_idx anchor_wh_iou_model anchors1 1 gt1 in
  let s := fst (Loss.ciou_pair (pred_boxes1 i) (Loss.target_box 1 gt1)) in
  let ciou := snd (Loss.ciou_pair (pred_boxes1 i) (Loss.target_box 1 gt1)) in
  Loss.skew_iou targets1 i = exp (1 - s) - 1 /\
  Loss.ciou_loss targets1 i
  = (2.0 - 1.0 * (gw gt1 * INR 1) * (gh gt1 * INR 1) / ((32 * INR 1) ^ 2)) * (1.0 - ciou).
Proof.
  apply (stored_diagnostics anchor_wh_iou_model anchors1 32 0.5 1 1 1 pred_boxes1 pred_cls1
           [] [] gt1 targets1).
  - exact build1_ok.
  - constructor.
Defined.

Lemma aa_iou_pred1 : PostProcess.aa_iou (mkbox 10 10 1 1 0) (mkbox 0.5 0.5 1 1 0) = 0.
Proof. aa_eval. Qed.

(** Without overlap the CIoU term is not positive. *)
Lemma ciou_spec_disjoint (p t : rbox) : PostProcess.aa_iou p t = 0 -> ciou_spec p t <= 0.
Proof.
  intros H. unfold ciou_spec. rewrite H.
  destruct (PostProcess.xywh2xyxy p) as [[[px1 py1] px2] py2].
  destruct (PostProcess.xywh2xyxy t) as [[[tx1 ty1] tx2] ty2].
  set (cd := (bx t - bx p) ^ 2 + (by_ t - by_ p) ^ 2).
  set (ed := clamp_min0 (Rmax px2 tx2 - Rmin px1 tx1) ^ 2
             + clamp_min0 (Rmax py2 ty2 - Rmin py1 ty1) ^ 2).
  set (v := 4 / PI ^ 2 * (atan (bw t / bh t) - atan (bw p / bh p)) ^ 2).
  assert (Hcd : 0 <= cd) by (apply Rplus_le_le_0_compat; apply pow2_ge_0).
  assert (Hed : 0 <= ed) by (apply Rplus_le_le_0_compat; apply pow2_ge_0).
  assert (Hv : 0 <= v).
  { unfold v. apply Rmult_le_pos; [|apply pow2_ge_0].
    assert (0 < PI ^ 2) by (pose proof PI_RGT_0; nra).
    apply Rlt_le. apply Rdiv_lt_0_compat; lra. }
  assert (Hu : 0 <= cd / (ed + 1e-15)).
  { apply Rmult_le_pos; [exact Hcd|]. apply Rlt_le, Rinv_0_lt_compat. lra. }
  assert (Ha : 0 <= v / (1 - 0 + v) * v).
  { apply Rmult_le_pos; [|exact Hv]. apply Rmult_le_pos; [exact Hv|].
    apply Rlt_le, Rinv_0_lt_compat. lra. }
  unfold Loss.clamp11, Rmin, Rmax.
  destruct (Rle_dec _ (-1)); destruct (Rle_dec _ 1); lra.
Qed.

(** C7 (counterexample): in [build1] the matched prediction
    [(10, 10, 1, 1, 0)] does not overlap the ground truth, so the routine
    returns 0 as its first value and a CIoU term [c <= 0]; the cell stores
    [e - 1] as [skew_iou], and [bbox_loss_scale * (1 - c)] as [ciou_loss],
    which is not [bbox_loss_scale * c]. *)
Lemma stored_diagnostics_are_transformed :
  let i := Loss.gt_idx anchor_wh_iou_model anchors1 1 gt1 in
  let s := fst (Loss.ciou_pair (pred_boxes1 i) (Loss.target_box 1 gt1)) in
  let c := snd (Loss.ciou_pair (pred_boxes1 i) (Loss.target_box 1 gt1)) in
  let bbox_loss_scale := 2.0 - (gw gt1 * INR 1) * (gh gt1 * INR 1) / ((32 * INR 1) ^ 2) in
  build1 = Ok targets1 /\
  s = 0 /\ Loss.skew_iou targets1 i = exp 1 - 1 /\ Loss.skew_iou targets1 i <> s /\
  Loss.ciou_loss targets1 i <> bbox_loss_scale * c.
Proof.
  intros i s c bbox_loss_scale.
  assert (Hs : s = 0).
  { unfold s. rewrite ciou_pair_fst, target_box1. unfold pred_boxes1.
    rewrite aa_iou_pred1. lra. }
  assert (Hc : c <= 0).
  { unfold c. rewrite ciou_pair_snd, target_box1. unfold pred_boxes1.
    apply ciou_spec_disjoint, aa_iou_pred1. }
  destruct (stored_values anchor_wh_iou_model anchors1 32 0.5 1 1 1 pred_boxes1 pred_cls1
              [] [] gt1 targets1 build1_ok (Forall_nil _)) as [H1 H2].
  fold i in H1, H2. fold s in H1. fold c in H2.
  split; [exact build1_ok|]. split; [exact Hs|].
  assert (He : exp 1 > 2) by (pose proof (exp_ineq1 1); lra).
  rewrite H1, Hs. replace (1 - 0) with 1 by lra.
  split; [reflexivity|]. split; [lra|].
  rewrite H2. unfold bbox_loss_scale, gt1. cbn [gw gh INR].
  intros E. nra.
Qed.

(** ** The loss on a batch without ground truth *)

Lemma log_clamp_bounds (x : R) : x <= 1 -> -100 <= Loss.log_clamp x <= 0.
Proof.
  intros H. unfold Loss.log_clamp. destruct (Rle_dec x 0); [lra|].
  assert (ln x <= 0).
  { rewrite <- ln_1. destruct (Req_dec x 1) as [->|Hne]; [lra|].
    apply Rlt_le, ln_increasing; lra. }
  unfold Rmax. destruct (Rle_dec (ln x) (-100)); lra.
Qed.

Lemma noobj_term_bounds (p : R) : 0 <= p <= 1 -> 0 <= noobj_term p <= 75.
Proof.
  intros Hp. unfold noobj_term, Loss.bce.
  pose proof (log_clamp_bounds (1 - p)) as Hl.
  set (l := Loss.log_clamp (1 - p)) in *.
  assert (Hl' : -100 <= l <= 0) by (apply Hl; lra).
  replace (- (0 * Loss.log_clamp p + (1 - 0) * l)) with (- l) by ring.
  replace ((0 * 0.25 + (1 - 0) * (1 - 0.25)) * (1.0 - (0 * p + (1 - 0) * (1 - p))) ^ 2)
    with (0.75 * (p * p)) by (simpl; lra).
  assert (0 <= p * p <= 1) by nra.
  nra.
Qed.

Lemma Rsum_bounds (l : list R) (m : R) :
  Forall (fun x => 0 <= x <= m) l -> 0 <= Rsum l <= m * INR (length l).
Proof.
  induction 1 as [|x l Hx Hl IH]; [simpl; lra|].
  cbn [Rsum fold_right length]. rewrite S_INR. fold (Rsum l). lra.
Qed.

Lemma forward_zero_targets (r : Loss.reduction) (inputs : list R) :
  r <> Loss.none ->
  Forall (fun p => 0 <= p <= 1) inputs ->
  exists c,
    Loss.forward (Loss.mkFocal 0.25 2 r) inputs (map (fun _ => 0) inputs) = Ok (Loss.Scalar c) /\
    0 <= c <= 75 * INR (length inputs).
Proof.
  intros Hr Hp. unfold Loss.forward, Loss.binary_cross_entropy.
  rewrite length_map, Nat.eqb_refl. cbn [negb].
  assert (Hb : forallb (fun x => Rgeb x 0 && Rgeb 1 x) inputs = true).
  { apply forallb_forall. intros x Hx. rewrite Forall_forall in Hp. specialize (Hp x Hx).
    apply andb_true_iff. split; apply Rgeb_true; lra. }
  rewrite Hb. cbn [negb bind Loss.alpha Loss.gamma Loss.reduction_].
  set (scaled := map2 _ _ _).
  assert (Hs : scaled = map noobj_term inputs).
  { unfold scaled. clear. induction inputs as [|p l IH]; [reflexivity|].
    cbn [map map2 combine]. f_equal. exact IH. }
  clearbody scaled.
  assert (HF : Forall (fun x => 0 <= x <= 75) scaled).
  { rewrite Hs. apply Forall_forall. intros x Hx. apply in_map_iff in Hx as [p [<- Hx]].
    apply noobj_term_bounds. rewrite Forall_forall in Hp. now apply Hp. }
  assert (Hlen : length scaled = length inputs) by (rewrite Hs; apply length_map).
  pose proof (Rsum_bounds scaled 75 HF) as Hsum. rewrite Hlen in Hsum.
  destruct r; [congruence| |].
  - eexists. split; [reflexivity|]. rewrite Hlen.
    destruct inputs as [|p l] eqn:E.
    + rewrite Hs. simpl. lra.
    + rewrite <- E in *.
      assert (Hn : 1 <= INR (length inputs)).
      { rewrite E. cbn [length]. rewrite S_INR. pose proof (pos_INR (length l)). lra. }
      split.
      * apply Rmult_le_pos; [lra|]. apply Rlt_le, Rinv_0_lt_compat. lra.
      * apply Rle_trans with 75; [|nra].
        apply Rmult_le_reg_r with (INR (length inputs)); [lra|].
        unfold Rdiv. rewrite Rmult_assoc, Rinv_l by lra. lra.
  - eexists. split; [reflexivity|]. exact Hsum.
Qed.

(** With an empty [target], [build_targets] leaves every tensor as it was
    initialised. *)
Lemma build_targets_empty (anchor_wh_iou : R * R -> R * R -> R) (masked_anchors : list anchor)
  (stride ignore_thresh : R) (nB nG nC : nat)
  (pred_boxes : idx -> rbox) (pred_cls : idx -> list R) :
  masked_anchors <> [] -> nC <> O ->
  exists T,
    Loss.build_targets anchor_wh_iou masked_anchors stride ignore_thresh nB nG nC
      pred_boxes pred_cls [] = Ok T /\
    (forall i, Loss.noobj_mask T i = true) /\ (forall i, Loss.tconf T i = 0).
Proof.
  intros Ha HnC. unfold Loss.build_targets.
  destruct masked_anchors as [|a0 anchors]; [congruence|].
  apply Nat.eqb_neq in HnC. rewrite HnC.
  cbn [map forallb negb Loss.bbox_xywha_ciou length Nat.eqb map2 bind mapM fold_left index_put].
  eexists. split; [reflexivity|].
  cbn [Loss.noobj_mask Loss.tconf]. split; [|reflexivity].
  intros i. unfold Loss.to_bool. destruct (Req_dec_T 1 0); [lra|reflexivity].
Qed.

(** C9: for an empty ground-truth list (with at least one anchor, one
    class and one cell, a reduction to a scalar and confidences in
    [[0, 1]]) the regression and classification terms are 0, the total
    loss is [lambda_conf] times the focal loss of all cells against target
    0, and that focal loss is bounded: it lies between 0 and 75 times the
    number of cells. *)
Theorem empty_target_loss (anchor_wh_iou : R * R -> R * R -> R) (masked_anchors : list anchor)
  (stride ignore_thresh : R) (nB nG nC : nat) (self_reduction : Loss.reduction)
  (lambda_coord lambda_conf_scale lambda_cls_scale : R)
  (pred_boxes : idx -> rbox) (pred_a pred_conf : idx -> R) (pred_cls : idx -> list R) :
  masked_anchors <> [] -> nC <> O ->
  Loss.cells masked_anchors nB nG <> [] ->
  self_reduction <> Loss.none ->
  Forall (fun i => 0 <= pred_conf i <= 1) (Loss.cells masked_anchors nB nG) ->
  let cells := Loss.cells masked_anchors nB nG in
  exists noobj_conf,
    Loss.forward (Loss.mkFocal 0.25 2 self_reduction)
      (map pred_conf cells) (map (fun _ => 0) cells) = Ok (Loss.Scalar noobj_conf) /\
    0 <= noobj_conf <= 75 * INR (length cells) /\
    Loss.ComputeLoss_call anchor_wh_iou masked_anchors stride ignore_thresh nB nG nC
      self_reduction lambda_coord lambda_conf_scale lambda_cls_scale
      pred_boxes pred_a pred_conf pred_cls []
    = Ok (lambda_conf_scale * noobj_conf,
          {| Loss.item_loss := lambda_conf_scale * noobj_conf;
             Loss.item_reg_loss := 0;
             Loss.item_conf_loss := lambda_conf_scale * noobj_conf;
             Loss.item_cls_loss := 0 |}).
Proof.
  intros Ha HnC _ Hr Hp cells.
  destruct (forward_zero_targets self_reduction (map pred_conf cells) Hr) as [c [Hf Hc]].
  { apply Forall_forall. intros p Hin. apply in_map_iff in Hin as [i [<- Hi]].
    rewrite Forall_forall in Hp. now apply Hp. }
  rewrite map_map, length_map in *.
  exists c. split; [exact Hf|]. split; [exact Hc|].
  destruct (build_targets_empty anchor_wh_iou masked_anchors stride ignore_thresh nB nG nC
              pred_boxes pred_cls Ha HnC) as [T [HT [Hn Ht]]].
  unfold Loss.ComputeLoss_call. rewrite HT. cbn [bind length Nat.ltb Nat.leb].
  unfold Loss.masked. fold cells.
  rewrite (filter_all (Loss.noobj_mask T) cells) by (apply Forall_forall; intros; apply Hn).
  rewrite (map_ext (Loss.tconf T) (fun _ => 0) Ht).
  rewrite Hf. cbn [bind Loss.iadd].
  f_equal. f_equal; [ring|]. f_equal; ring.
Qed.

(** C9 (witness): one image, one anchor, a 1 x 1 grid and confidence 0.5. *)
Lemma empty_target_loss_witness :
  let cells := Loss.cells anchors1 1 1 in
  exists noobj_conf,
    Loss.forward (Loss.mkFocal 0.25 2 Loss.mean)
      (map (fun _ => 0.5) cells) (map (fun _ => 0) cells) = Ok (Loss.Scalar noobj_conf) /\
    0 <= noobj_conf <= 75 * INR (length cells) /\
    Loss.ComputeLoss_call anchor_wh_iou_model anchors1 32 0.5 1 1 1 Loss.mean 1 1 1
      pred_boxes1 (fun _ => 0) (fun _ => 0.5) pred_cls1 []
    = Ok (1 * noobj_conf,
          {| Loss.item_loss := 1 * noobj_conf;
             Loss.item_reg_loss := 0;
             Loss.item_conf_loss := 1 * noobj_conf;
             Loss.item_cls_loss := 0 |}).
Proof.
  apply (empty_target_loss anchor_wh_iou_model anchors1 32 0.5 1 1 1 Loss.mean 1 1 1
           pred_boxes1 (fun _ => 0) (fun _ => 0.5) pred_cls1).
  - discriminate.
  - discriminate.
  - discriminate.
  - discriminate.
  - apply Forall_forall. intros i _. lra.
Defined.

(** * Further properties of the code *)

(** ** The axis-aligned ratio of [iou] *)

Lemma aa_iou_unfold (box1 box2 : rbox) :
  PostProcess.aa_iou box1 box2 =
  let ix := clamp_min0 (Rmin (bx box1 + bw box1 / 2) (bx box2 + bw box2 / 2)
                        - Rmax (bx box1 - bw box1 / 2) (bx box2 - bw box2 / 2)) in
  let iy := clamp_min0 (Rmin (by_ box1 + bh box1 / 2) (by_ box2 + bh box2 / 2)
                        - Rmax (by_ box1 - bh box1 / 2) (by_ box2 - bh box2 / 2)) in
  ix * iy / (bw box1 * bh box1 + bw box2 * bh box2 - ix * iy + 1e-15).
Proof. reflexivity. Qed.

(** X1: the axis-aligned ratio does not depend on the order of the two
    boxes. *)
Theorem aa_iou_symmetric (box1 box2 : rbox) :
  PostProcess.aa_iou box1 box2 = PostProcess.aa_iou box2 box1.
Proof.
  rewrite !aa_iou_unfold. cbv zeta.
  rewrite (Rmin_comm (bx box1 + _)), (Rmax_comm (bx box1 - _)),
          (Rmin_comm (by_ box1 + _)), (Rmax_comm (by_ box1 - _)).
  unfold Rdiv. f_equal. f_equal. ring.
Qed.

Lemma overlap_bounds (c1 w1 c2 w2 : R) :
  0 <= w1 -> 0 <= w2 ->
  let i := clamp_min0 (Rmin (c1 + w1 / 2) (c2 + w2 / 2) - Rmax (c1 - w1 / 2) (c2 - w2 / 2)) in
  0 <= i /\ i <= w1 /\ i <= w2.
Proof.
  intros H1 H2. unfold clamp_min0, Rmin, Rmax.
  destruct (Rle_dec (c1 + w1 / 2) (c2 + w2 / 2)), (Rle_dec (c1 - w1 / 2) (c2 - w2 / 2));
    match goal with |- context [Rle_dec ?a 0] => destruct (Rle_dec a 0) end; lra.
Qed.

Lemma aa_iou_nonneg (box1 box2 : rbox) :
  0 <= bw box1 -> 0 <= bh box1 -> 0 <= bw box2 -> 0 <= bh box2 ->
  0 <= PostProcess.aa_iou box1 box2.
Proof.
  intros Hw1 Hh1 Hw2 Hh2. rewrite aa_iou_unfold.
  pose proof (overlap_bounds (bx box1) (bw box1) (bx box2) (bw box2) Hw1 Hw2) as Hx.
  pose proof (overlap_bounds (by_ box1) (bh box1) (by_ box2) (bh box2) Hh1 Hh2) as Hy.
  cbv zeta in Hx, Hy |- *.
  set (ix := clamp_min0 (Rmin (bx box1 + _) _ - _)) in *.
  set (iy := clamp_min0 (Rmin (by_ box1 + _) _ - _)) in *.
  destruct Hx as [Hx0 [Hx1 Hx2]], Hy as [Hy0 [Hy1 Hy2]].
  assert (Hi : 0 <= ix * iy) by nra.
  assert (H1 : ix * iy <= bw box1 * bh box1) by nra.
  assert (H2 : ix * iy <= bw box2 * bh box2) by nra.
  apply Rmult_le_pos; [exact Hi|]. apply Rlt_le, Rinv_0_lt_compat. lra.
Qed.

Lemma existsb_all_false {A : Type} (f : A -> bool) (l : list A) :
  Forall (fun x => f x = false) l -> existsb (fun m => m) (map f l) = false.
Proof. induction 1 as [|x l Hx Hl IH]; simpl; auto. now rewrite Hx. Qed.

(** X3: when no candidate passes the prefilter, [iou] reports no overlap
    without building a polygon: the answer is the same for every
    implementation of the polygon operations, valid rings or not. *)
Theorem iou_skips_geometry_below_prefilter (G : Shapely) (box1 : rbox) (box2 : list rbox)
  (nms_thres : R) :
  box2 <> [] ->
  Forall (fun b => PostProcess.aa_iou box1 b <= 0.3) box2 ->
  PostProcess.iou G box1 box2 nms_thres = Ok (map (fun _ => false) box2).
Proof.
  intros Hne H. rewrite (iou_nonempty G nms_thres box1 box2 Hne). cbv zeta.
  rewrite existsb_all_false; [reflexivity|].
  eapply Forall_impl; [|exact H]. intros b Hb. now apply Rgtb_false.
Qed.

(** X3 (witness) *)
Lemma iou_skips_geometry_below_prefilter_witness :
  PostProcess.iou lenient boxA [boxB; boxFar] 0.4 = Ok (map (fun _ => false) [boxB; boxFar]).
Proof.
  apply (iou_skips_geometry_below_prefilter lenient boxA [boxB; boxFar] 0.4).
  - discriminate.
  - repeat constructor.
    + rewrite aa_iou_boxA_boxB. lra.
    + rewrite aa_iou_boxA_boxFar. lra.
Defined.

Lemma aa_iou_pos_area (box1 box2 : rbox) :
  0 <= bw box1 -> 0 <= bh box1 -> 0 <= bw box2 -> 0 <= bh box2 ->
  0 < PostProcess.aa_iou box1 box2 ->
  0 < bw box1 * bh box1 /\ 0 < bw box2 * bh box2.
Proof.
  intros Hw1 Hh1 Hw2 Hh2. rewrite aa_iou_unfold.
  pose proof (overlap_bounds (bx box1) (bw box1) (bx box2) (bw box2) Hw1 Hw2) as Hx.
  pose proof (overlap_bounds (by_ box1) (bh box1) (by_ box2) (bh box2) Hh1 Hh2) as Hy.
  cbv zeta in Hx, Hy |- *.
  set (ix := clamp_min0 (Rmin (bx box1 + _) _ - _)) in *.
  set (iy := clamp_min0 (Rmin (by_ box1 + _) _ - _)) in *.
  destruct Hx as [Hx0 [Hx1 Hx2]], Hy as [Hy0 [Hy1 Hy2]].
  assert (Hi : 0 <= ix * iy) by nra.
  assert (H1 : ix * iy <= bw box1 * bh box1) by nra.
  assert (H2 : ix * iy <= bw box2 * bh box2) by nra.
  intros Hpos.
  destruct (Rle_lt_or_eq_dec 0 (ix * iy) Hi) as [Hlt|Heq]; [lra|].
  rewrite <- Heq in Hpos. unfold Rdiv in Hpos. rewrite Rmult_0_l in Hpos. lra.
Qed.

Lemma skewiou_loop_no_assert (G : Shapely) (g : polygon) (box2 : list rbox) :
  is_valid G g = true ->
  Forall (fun b => is_valid G (PostProcess.rbox2polygon b) = true) box2 ->
  PostProcess.skewiou_loop G g box2 <> Err AssertionError.
Proof.
  intros Hg. induction 1 as [|b rest Hb Hrest IH]; cbn [PostProcess.skewiou_loop].
  - discriminate.
  - rewrite Hg, Hb. cbn [negb orb]. unfold PostProcess.get_iou.
    destruct (intersects G g (PostProcess.rbox2polygon b)); cbv zeta;
      try destruct (Req_dec_T _ 0); cbn [bind]; try discriminate;
      destruct (PostProcess.skewiou_loop G g rest) as [vs|e]; cbn [bind];
      try discriminate; intros [= ->]; now apply IH.
Qed.

Lemma select_passes {A : Type} (f : A -> bool) (l : list A) :
  Forall (fun x => f x = true) (select (map f l) l).
Proof.
  induction l as [|x l IH]; simpl; [constructor|].
  destruct (f x) eqn:E; [constructor|]; assumption.
Qed.

(** X4: the prefilter keeps boxes that enclose no area away from
    [skewiou]: with sizes that are not negative, and a polygon library that
    accepts every rectangle of non-zero area, [iou] never fails on the
    validity assertion. *)
Theorem iou_never_fails_validity (G : Shapely) (box1 : rbox) (box2 : list rbox)
  (nms_thres : R) :
  (forall b, bw b * bh b <> 0 -> is_valid G (PostProcess.rbox2polygon b) = true) ->
  0 <= bw box1 -> 0 <= bh box1 ->
  Forall (fun b => 0 <= bw b /\ 0 <= bh b) box2 ->
  PostProcess.iou G box1 box2 nms_thres <> Err AssertionError.
Proof.
  intros HG Hw1 Hh1 Hsz.
  destruct box2 as [|b0 rest] eqn:Ebox; [discriminate|]. rewrite <- Ebox in *.
  assert (Hne : box2 <> []) by (rewrite Ebox; discriminate).
  rewrite (iou_nonempty G nms_thres box1 box2 Hne). cbv zeta.
  set (m := fun x => Rgtb (PostProcess.aa_iou box1 x) 0.3).
  destruct (existsb (fun x => x) (map m box2)) eqn:He; [|discriminate].
  assert (Hsel : Forall (fun b => 0 < bw box1 * bh box1 /\ 0 < bw b * bh b)
                        (select (map m box2) box2)).
  { pose proof (select_passes m box2) as Hp.
    pose proof (select_Forall _ (map m box2) box2 Hsz) as Hs.
    rewrite Forall_forall in *. intros b Hb.
    destruct (Hs b Hb) as [Hw Hh]. specialize (Hp b Hb).
    apply Rgtb_true in Hp. apply aa_iou_pos_area; try assumption. lra. }
  assert (Hex : select (map m box2) box2 <> []).
  { rewrite select_filter. apply existsb_exists in He. destruct He as [v [Hin ->]].
    apply in_map_iff in Hin. destruct Hin as [b [Hb Hin]].
    intros E. assert (Hf : In b (filter m box2)) by (apply filter_In; auto).
    rewrite E in Hf. contradiction. }
  unfold PostProcess.skewiou.
  destruct (PostProcess.skewiou_loop G (PostProcess.rbox2polygon box1)
              (select (map m box2) box2)) as [s|e] eqn:El; cbn [bind].
  - destruct s; cbn [bind]; discriminate.
  - intros [= ->]. revert El. apply skewiou_loop_no_assert.
    + destruct (select (map m box2) box2) as [|y ys]; [contradiction|].
      inversion Hsel as [|? ? [H1 _] _]; subst. apply HG. lra.
    + eapply Forall_impl; [|exact Hsel]. intros b [_ Hb]. apply HG. lra.
Qed.

Lemma valid_convex_rectangle (b : rbox) :
  bw b * bh b <> 0 -> is_valid Convex.shapely (PostProcess.rbox2polygon b) = true.
Proof.
  intros H. cbn [is_valid Convex.shapely]. rewrite signed_area2_rbox2polygon.
  destruct (Req_dec_T _ 0) as [E|]; [|reflexivity]. exfalso. apply H.
  replace ((cos (ba b)) ^ 2 + (sin (ba b)) ^ 2) with 1 in E.
  - lra.
  - pose proof (sin2_cos2 (ba b)) as S. unfold Rsqr in S. lra.
Qed.

(** X4 (witness): a segment among the candidates. *)
Lemma iou_never_fails_validity_witness :
  PostProcess.iou Convex.shapely boxA [boxW; boxB] 0.4 <> Err AssertionError.
Proof.
  apply (iou_never_fails_validity Convex.shapely boxA [boxW; boxB] 0.4).
  - exact valid_convex_rectangle.
  - cbn; lra.
  - cbn; lra.
  - repeat constructor; cbn; lra.
Defined.

(** ** [skewiou] and [skewiou_2] *)

Lemma skewiou_shape (G : Shapely) (box1 : rbox) (box2 : list rbox) (s : list R) :
  PostProcess.skewiou G box1 box2 = Ok s -> box2 <> [] /\ length s = length box2.
Proof.
  intros H. destruct (skewiou_ok G box1 box2 s H) as [Hl Hne].
  pose proof (skewiou_loop_length G _ _ _ Hl) as Hlen. split; [|exact Hlen].
  intros ->. destruct s; [contradiction|discriminate].
Qed.

(** X5: a result of [skewiou] has one ratio per box of [box2], and [box2]
    was not empty. *)
Theorem skewiou_one_value_per_box (G : Shapely) (box1 : rbox) (box2 : list rbox)
  (s : list R) :
  PostProcess.skewiou G box1 box2 = Ok s -> box2 <> [] /\ length s = length box2.
Proof. exact (skewiou_shape G box1 box2 s). Qed.

(** X5 (witness) *)
Lemma skewiou_one_value_per_box_witness : [boxB] <> [] /\ length [1] = length [boxB].
Proof.
  exact (skewiou_one_value_per_box Convex.shapely boxA [boxB] [1] skewiou_boxA_boxB).
Defined.

Lemma mapM_length {A B : Type} (f : A -> result B) (l : list A) (l' : list B) :
  mapM f l = Ok l' -> length l' = length l.
Proof. intros H. apply mapM_Forall2 in H. symmetry. eapply Forall2_length; eauto. Qed.

(** X6: a result of [skewiou_2] is a matrix with one row per box of [box1]
    and one column per box of [box2], row [i] being [skewiou] of the
    [i]-th box against [box2]; neither list was empty. *)
Theorem skewiou_2_shape (G : Shapely) (box1 box2 : list rbox) (m : list (list R)) :
  skewiou_2 G box1 box2 = Ok m ->
  box1 <> [] /\ box2 <> [] /\ length m = length box1 /\
  Forall2 (fun b1 row => PostProcess.skewiou G b1 box2 = Ok row /\
                         length row = length box2) box1 m.
Proof.
  unfold skewiou_2. destruct box1 as [|b bs] eqn:E1; [discriminate|].
  destruct box2 as [|c cs] eqn:E2; [discriminate|]. rewrite <- E1, <- E2.
  intros H. repeat split; try (subst; discriminate).
  - exact (mapM_length _ _ _ H).
  - apply mapM_Forall2 in H. eapply Forall2_impl; [|exact H].
    intros b1 row Hrow. split; [exact Hrow|].
    now destruct (skewiou_shape G b1 box2 row Hrow).
Qed.

Lemma skewiou_2_boxA_boxB : skewiou_2 Convex.shapely [boxA] [boxB] = Ok [[1]].
Proof. unfold skewiou_2. cbn [mapM]. rewrite skewiou_boxA_boxB. reflexivity. Qed.

(** X6 (witness) *)
Lemma skewiou_2_shape_witness :
  [boxA] <> [] /\ [boxB] <> [] /\ length [[1]] = length [boxA] /\
  Forall2 (fun b1 row => PostProcess.skewiou Convex.shapely b1 [boxB] = Ok row /\
                         length row = length [boxB]) [boxA] [[1]].
Proof. exact (skewiou_2_shape Convex.shapely [boxA] [boxB] [[1]] skewiou_2_boxA_boxB). Defined.

(** ** [post_process] on one image *)

Lemma post_process_image_none_passes (G : Shapely) (nms_thres conf_thres : R)
  (image_pred : list candidate) :
  Forall (fun c => cconf c < conf_thres) image_pred ->
  NMS.post_process_image G nms_thres conf_thres image_pred = Ok [].
Proof.
  intros H. unfold NMS.post_process_image. rewrite filter_none; [reflexivity|].
  rewrite Forall_forall in H. intros c Hc. apply Rgeb_false. now apply H.
Qed.

(** X8: an image whose candidates are all below the confidence threshold
    gets the empty list, whatever the candidates hold otherwise (no class
    scores, boxes that enclose no area). *)
Theorem post_process_image_below_threshold (G : Shapely) (nms_thres conf_thres : R)
  (image_pred : list candidate) :
  Forall (fun c => cconf c < conf_thres) image_pred ->
  NMS.post_process_image G nms_thres conf_thres image_pred = Ok [].
Proof. exact (post_process_image_none_passes G nms_thres conf_thres image_pred). Qed.

(** X8 (witness) *)
Lemma post_process_image_below_threshold_witness :
  NMS.post_process_image Convex.shapely 0.4 0.5 [mkcand boxZ 0.3 []] = Ok [].
Proof.
  apply (post_process_image_below_threshold Convex.shapely 0.4 0.5 [mkcand boxZ 0.3 []]).
  repeat constructor. cbn. lra.
Defined.

(** X9: the detections returned for an image are at most [max_det] = 300,
    each has an object confidence of at least [conf_thres], and they come
    by ascending class and, within a class, by descending score
    [object_conf * class_conf]. *)
Theorem post_process_image_output (G : Shapely) (nms_thres conf_thres : R)
  (image_pred : list candidate) (out : list detection) :
  NMS.post_process_image G nms_thres conf_thres image_pred = Ok out ->
  (length out <= 300)%nat /\
  Forall (fun d => conf_thres <= dconf d) out /\
  StronglySorted ordered out.
Proof.
  intros H.
  destruct (post_process_image_keeps G nms_thres conf_thres image_pred out H) as [Hs [Hc Hl]].
  repeat split; assumption.
Qed.

(** X9 (witness) *)
Lemma post_process_image_output_witness :
  (length [dM; dC] <= 300)%nat /\
  Forall (fun d => 0.5 <= dconf d) [dM; dC] /\
  StronglySorted ordered [dM; dC].
Proof.
  exact (post_process_image_output Convex.shapely 0.4 0.5 [candA; candB; candC] [dM; dC]
           post_process_first_run).
Defined.

Lemma prepare_length (image_pred : list candidate) (detections : list detection) :
  NMS.prepare image_pred = Ok detections ->
  length detections = Nat.min NMS.max_nms (length image_pred).
Proof.
  unfold NMS.prepare.
  destruct (mapM _ image_pred) as [scored|e] eqn:E; cbn [bind]; [|discriminate].
  intros H. apply mapM_length in H. apply mapM_length in E.
  now rewrite H, length_firstn, length_map, sort_desc_length, E.
Qed.

Lemma nms_while_nonempty (G : Shapely) (nms_thres : R) (fuel : nat) (d : detection)
  (l keep : list detection) :
  NMS.nms_while G nms_thres (S fuel) (d :: l) = Ok keep -> keep <> [].
Proof.
  cbn [NMS.nms_while].
  destruct (NMS.nms_iter G nms_thres d l) as [r|e]; cbn [bind]; [|discriminate].
  destruct (NMS.nms_while G nms_thres fuel (snd r)) as [k|e]; cbn [bind]; [|discriminate].
  intros [= <-]. discriminate.
Qed.

Lemma firstn_nonempty {A : Type} (n : nat) (l : list A) :
  (0 < n)%nat -> l <> [] -> firstn n l <> [].
Proof. destruct n, l; simpl; intros; try lia; try contradiction; discriminate. Qed.

Lemma nms_nonempty (G : Shapely) (nms_thres : R) (detections out : list detection) :
  detections <> [] -> NMS.nms G nms_thres detections = Ok out -> out <> [].
Proof.
  intros Hne. unfold NMS.nms.
  destruct (unique (map dcls_pred detections)) as [|x labels] eqn:El.
  - destruct detections as [|d ds]; [contradiction|]. exfalso.
    assert (Hin : In (dcls_pred d) (unique (map dcls_pred (d :: ds))))
      by (apply unique_In; now left).
    rewrite El in Hin. contradiction.
  - cbn [NMS.nms_labels]. unfold NMS.nms_label at 1.
    assert (Hx : In x (map dcls_pred detections)) by (apply unique_In; rewrite El; now left).
    apply in_map_iff in Hx. destruct Hx as [d [Hd Hin]].
    assert (Hf : In d (filter (fun d0 => (dcls_pred d0 =? x)%nat) detections)).
    { apply filter_In. split; [exact Hin|]. now apply Nat.eqb_eq. }
    destruct (filter (fun d0 => (dcls_pred d0 =? x)%nat) detections) as [|y ys];
      [contradiction|].
    cbn [length].
    destruct (NMS.nms_while G nms_thres (S (length ys)) (y :: ys)) as [k|e] eqn:Ek;
      cbn [bind]; [|discriminate].
    apply nms_while_nonempty in Ek.
    destruct (NMS.nms_labels G nms_thres detections labels) as [ks|e]; cbn [bind];
      [|discriminate].
    intros H.
    assert (E : out = firstn NMS.max_det (k ++ ks))
      by (injection H; intros E; symmetry; exact E).
    rewrite E. apply firstn_nonempty; [unfold NMS.max_det; lia|].
    destruct k; [contradiction|discriminate].
Qed.

(** X10: when at least one candidate reaches the confidence threshold, the
    list returned for the image is not empty: the suppression keeps at
    least one box. *)
Theorem post_process_image_keeps_one (G : Shapely) (nms_thres conf_thres : R)
  (image_pred : list candidate) (out : list detection) (c : candidate) :
  NMS.post_process_image G nms_thres conf_thres image_pred = Ok out ->
  In c image_pred -> conf_thres <= cconf c ->
  out <> [].
Proof.
  unfold NMS.post_process_image. intros H Hin Hc.
  assert (Hf : In c (filter (fun c0 => Rgeb (cconf c0) conf_thres) image_pred)).
  { apply filter_In. split; [exact Hin|]. now apply Rgeb_true. }
  destruct (filter (fun c0 => Rgeb (cconf c0) conf_thres) image_pred) as [|y ys] eqn:Ef;
    [contradiction|].
  destruct (NMS.prepare (y :: ys)) as [dets|e] eqn:Ep; cbn [bind] in H; [|discriminate].
  apply nms_nonempty in H; [exact H|].
  apply prepare_length in Ep. intros ->. cbn [length] in Ep.
  unfold NMS.max_nms in Ep. lia.
Qed.

(** X10 (witness) *)
Lemma post_process_image_keeps_one_witness : [dM; dC] <> [].
Proof.
  apply (post_process_image_keeps_one Convex.shapely 0.4 0.5 [candA; candB; candC]
           [dM; dC] candA post_process_first_run).
  - now left.
  - cbn. lra.
Defined.

Lemma firstn_single {A : Type} (n : nat) (x : A) : (0 < n)%nat -> firstn n [x] = [x].
Proof. destruct n; [lia|]. intros _. simpl. now destruct n. Qed.

(** X11: an image with a single candidate that reaches the confidence
    threshold gets that candidate back, decoded and with its box
    untouched; no overlap is computed. *)
Theorem post_process_image_single (G : Shapely) (nms_thres conf_thres : R)
  (c : candidate) (d : detection) :
  conf_thres <= cconf c -> NMS.to_detection c = Ok d ->
  NMS.post_process_image G nms_thres conf_thres [c] = Ok [d] /\ dbox d = cbox c.
Proof.
  intros Hc Hd. unfold NMS.post_process_image. cbn [filter].
  apply Rgeb_true in Hc. rewrite Hc.
  unfold NMS.prepare, NMS.score. cbn [mapM].
  unfold NMS.to_detection in Hd.
  destruct (max_dim (ccls c)) as [m|e] eqn:Em; cbn [bind] in Hd |- *; [|discriminate].
  cbn [sort_desc fold_right insert_desc map fst].
  rewrite firstn_single by (unfold NMS.max_nms; lia).
  cbn [mapM]. unfold NMS.to_detection. rewrite Em.
  cbn [bind]. injection Hd as <-. cbn [dbox]. split; [|reflexivity].
  unfold NMS.nms. cbn [map dcls_pred unique fold_right insert_label NMS.nms_labels].
  unfold NMS.nms_label. cbn [filter dcls_pred]. rewrite Nat.eqb_refl.
  cbn [length NMS.nms_while NMS.nms_iter bind snd fst app].
  now rewrite firstn_single by (unfold NMS.max_det; lia).
Qed.

(** X11 (witness) *)
Lemma post_process_image_single_witness :
  NMS.post_process_image Convex.shapely 0.4 0.5 [candA] = Ok [dA] /\ dbox dA = cbox candA.
Proof.
  apply (post_process_image_single Convex.shapely 0.4 0.5 candA dA).
  - cbn. lra.
  - reflexivity.
Defined.

Lemma select_incl {A : Type} (mask : list bool) (l : list A) (x : A) :
  In x (select mask l) -> In x l.
Proof.
  intros H. assert (F : Forall (fun y => In y l) (select mask l)).
  { apply select_Forall. apply Forall_forall. auto. }
  rewrite Forall_forall in F. now apply F.
Qed.

(** A kept row and the candidate row it started from: same angle,
    confidence and class entries. *)
Lemma nms_iter_fixed (G : Shapely) (nms_thres : R) (best : detection)
  (detect : list detection) (best' : detection) (rest : list detection) :
  NMS.nms_iter G nms_thres best detect = Ok (best', rest) ->
  same_tag best' best /\ ba (dbox best') = ba (dbox best) /\
  forall x, In x rest -> In x detect.
Proof.
  intros H. destruct (nms_iter_shape G nms_thres _ _ _ _ H) as [Ht [mask ->]].
  repeat split; try apply Ht.
  - unfold NMS.nms_iter in H. destruct detect as [|d0 ds].
    + now injection H as <- _.
    + destruct (PostProcess.iou G (dbox best) (map dbox (d0 :: ds)) nms_thres);
        cbn [bind] in H; [|discriminate].
      now injection H as <- _.
  - intros x. apply select_incl.
Qed.

Lemma nms_while_from (G : Shapely) (nms_thres : R) (fuel : nat) :
  forall detect keep,
  NMS.nms_while G nms_thres fuel detect = Ok keep ->
  Forall (fun k => exists d, In d detect /\ same_tag k d /\ ba (dbox k) = ba (dbox d)) keep.
Proof.
  induction fuel as [|fuel IH]; intros detect keep; destruct detect as [|d l];
    cbn [NMS.nms_while]; try (intros [= <-]; constructor).
  destruct (NMS.nms_iter G nms_thres d l) as [[b' rest]|e] eqn:E; cbn [bind]; [|discriminate].
  cbn [snd fst].
  destruct (NMS.nms_while G nms_thres fuel rest) as [k|e] eqn:Ek; cbn [bind]; [|discriminate].
  intros [= <-]. destruct (nms_iter_fixed G nms_thres _ _ _ _ E) as [Ht [Ha Hin]].
  constructor.
  - exists d. repeat split; try apply Ht; try exact Ha. now left.
  - eapply Forall_impl; [|exact (IH rest k Ek)].
    intros a [d' [Hd' Hrel]]. exists d'. split; [right; now apply Hin|exact Hrel].
Qed.

Lemma nms_labels_from (G : Shapely) (nms_thres : R) (detections : list detection) :
  forall labels keep,
  NMS.nms_labels G nms_thres detections labels = Ok keep ->
  Forall (fun k => exists d, In d detections /\ same_tag k d /\ ba (dbox k) = ba (dbox d)) keep.
Proof.
  induction labels as [|x labels IH]; intros keep; cbn [NMS.nms_labels].
  - intros [= <-]. constructor.
  - unfold NMS.nms_label at 1.
    destruct (NMS.nms_while G nms_thres _ _) as [k|e] eqn:Ek; cbn [bind]; [|discriminate].
    destruct (NMS.nms_labels G nms_thres detections labels) as [ks|e]; cbn [bind];
      [|discriminate].
    intros [= <-]. apply Forall_app. split; [|now apply IH].
    eapply Forall_impl; [|exact (nms_while_from G nms_thres _ _ _ Ek)].
    intros a [d [Hd Hrel]]. exists d. split; [|exact Hrel].
    apply filter_In in Hd. apply Hd.
Qed.

Lemma prepare_decodes (image_pred : list candidate) (detections : list detection) :
  NMS.prepare image_pred = Ok detections ->
  Forall (fun d => exists c, In c image_pred /\ NMS.to_detection c = Ok d) detections.
Proof.
  unfold NMS.prepare.
  destruct (mapM _ image_pred) as [scored|e] eqn:E; cbn [bind]; [|discriminate].
  intros H. apply mapM_Forall2 in H.
  assert (Hsrc : forall c, In c (map fst scored) -> In c image_pred).
  { apply mapM_Forall2 in E. clear H. induction E as [|c p l l' Hp _ IH]; [auto|].
    destruct (NMS.score c); cbn [bind] in Hp; [|discriminate]. injection Hp as <-.
    cbn [map fst]. intros c' [<-|Hc']; [now left|right; now apply IH]. }
  assert (Hall : Forall (fun c => In c image_pred)
                        (firstn NMS.max_nms (map fst (sort_desc snd scored)))).
  { apply Forall_forall. intros c Hc. apply firstn_incl in Hc. apply Hsrc.
    apply in_map_iff in Hc. destruct Hc as [p [<- Hp]]. apply in_map.
    now apply sort_desc_In in Hp. }
  revert Hall. induction H as [|c d l l' Hd _ IH]; intros Hall; constructor.
  - exists c. split; [|exact Hd]. now inversion Hall.
  - apply IH. now inversion Hall.
Qed.

(** X12: every detection returned for an image carries the angle, the
    object confidence, the class confidence and the class of one of the
    candidates of that image: the suppression averages centres and sizes
    only. *)
Theorem post_process_image_rows_decoded (G : Shapely) (nms_thres conf_thres : R)
  (image_pred : list candidate) (out : list detection) :
  NMS.post_process_image G nms_thres conf_thres image_pred = Ok out ->
  Forall (decoded_from image_pred) out.
Proof.
  unfold NMS.post_process_image.
  set (passed := filter (fun c => Rgeb (cconf c) conf_thres) image_pred).
  assert (Hp : forall c, In c passed -> In c image_pred)
    by (intros c Hc; apply filter_In in Hc; apply Hc).
  destruct passed as [|y ys]; [intros [= <-]; constructor|].
  destruct (NMS.prepare (y :: ys)) as [dets|e] eqn:Ep; cbn [bind]; [|discriminate].
  apply prepare_decodes in Ep. rewrite Forall_forall in Ep.
  unfold NMS.nms.
  destruct (NMS.nms_labels G nms_thres dets _) as [keep|e] eqn:Ek; cbn [bind]; [|discriminate].
  intros H.
  assert (E : out = firstn NMS.max_det keep) by (injection H; intros E; symmetry; exact E).
  apply nms_labels_from in Ek. rewrite Forall_forall in Ek.
  apply Forall_forall. intros k Hk. rewrite E in Hk. apply firstn_incl in Hk.
  destruct (Ek k Hk) as [d [Hd [Ht Ha]]]. destruct (Ep d Hd) as [c [Hc Hcd]].
  exists c, d. repeat split; try apply Ht; try exact Ha; try exact Hcd. now apply Hp.
Qed.

(** X12 (witness) *)
Lemma post_process_image_rows_decoded_witness :
  Forall (decoded_from [candA; candB; candC]) [dM; dC].
Proof.
  exact (post_process_image_rows_decoded Convex.shapely 0.4 0.5 [candA; candB; candC]
           [dM; dC] post_process_first_run).
Defined.

(** ** [FocalLoss.forward] *)

Lemma unit_interval_forallb (inputs : list R) :
  forallb (fun x => Rgeb x 0 && Rgeb 1 x) inputs = true <->
  Forall (fun x => 0 <= x <= 1) inputs.
Proof.
  rewrite forallb_forall, Forall_forall. split; intros H x Hx; specialize (H x Hx).
  - apply andb_true_iff in H as [H1 H2]. apply Rgeb_true in H1, H2. lra.
  - apply andb_true_iff; split; apply Rgeb_true; lra.
Qed.

Lemma bce_nonneg (x t : R) : 0 <= x <= 1 -> 0 <= t <= 1 -> 0 <= Loss.bce x t.
Proof.
  intros Hx Ht. unfold Loss.bce.
  pose proof (log_clamp_bounds x) as H1. pose proof (log_clamp_bounds (1 - x)) as H2.
  assert (-100 <= Loss.log_clamp x <= 0) by (apply H1; lra).
  assert (-100 <= Loss.log_clamp (1 - x) <= 0) by (apply H2; lra).
  nra.
Qed.

Lemma focal_factor_bounds (a : R) (g : nat) (x t : R) :
  0 <= a <= 1 -> 0 <= x <= 1 -> 0 <= t <= 1 ->
  0 <= (t * a + (1 - t) * (1 - a)) * (1.0 - (t * x + (1 - t) * (1 - x))) ^ g <= 1.
Proof.
  intros Ha Hx Ht.
  assert (Hp : 0 <= 1.0 - (t * x + (1 - t) * (1 - x)) <= 1) by nra.
  assert (Hm : 0 <= (1.0 - (t * x + (1 - t) * (1 - x))) ^ g <= 1).
  { split; [apply pow_le; lra|].
    apply Rle_trans with (1 ^ g); [apply pow_incr; lra|rewrite pow1; lra]. }
  assert (Hf : 0 <= t * a + (1 - t) * (1 - a) <= 1) by nra.
  nra.
Qed.

(** X15: for a weight [alpha] and targets in [[0, 1]], the focal loss of
    each element lies between 0 and the binary cross-entropy of that
    element: the two factors only scale the cross-entropy down. *)
Theorem focal_between_zero_and_bce (a : R) (g : nat) (inputs targets : list R) :
  0 <= a <= 1 -> length inputs = length targets ->
  Forall (fun x => 0 <= x <= 1) inputs -> Forall (fun t => 0 <= t <= 1) targets ->
  exists l,
    Loss.forward (Loss.mkFocal a g Loss.none) inputs targets = Ok (Loss.Vector l) /\
    Forall2 (fun v xt => 0 <= v <= Loss.bce (fst xt) (snd xt)) l (combine inputs targets).
Proof.
  intros Ha Hl Hx Ht. unfold Loss.forward, Loss.binary_cross_entropy.
  pose proof Hl as Hl'. apply Nat.eqb_eq in Hl'. rewrite Hl'. cbn [negb].
  pose proof Hx as Hx'. apply unit_interval_forallb in Hx'. rewrite Hx'.
  cbn [negb bind Loss.alpha Loss.gamma Loss.reduction_ Loss.reduce].
  eexists. split; [reflexivity|].
  clear Hl' Hx'. revert targets Hl Ht.
  induction Hx as [|x inputs Hx0 Hx IH]; intros [|t targets] Hl Ht;
    cbn [map2 combine]; try discriminate; constructor.
  - inversion Ht as [|? ? Ht0 _]; subst. cbn [fst snd].
    pose proof (bce_nonneg x t Hx0 Ht0) as Hb.
    pose proof (focal_factor_bounds a g x t Ha Hx0 Ht0) as Hf.
    nra.
  - apply IH; [now injection Hl|now inversion Ht].
Qed.

(** X15 (witness) *)
Lemma focal_between_zero_and_bce_witness :
  exists l,
    Loss.forward (Loss.mkFocal 0.25 2 Loss.none) [0.5] [1] = Ok (Loss.Vector l) /\
    Forall2 (fun v xt => 0 <= v <= Loss.bce (fst xt) (snd xt)) l (combine [0.5] [1]).
Proof.
  apply (focal_between_zero_and_bce 0.25 2 [0.5] [1]).
  - lra.
  - reflexivity.
  - repeat constructor; lra.
  - repeat constructor; lra.
Defined.

Lemma bce_exact (t : R) : t = 0 \/ t = 1 -> Loss.bce t t = 0.
Proof.
  assert (H1 : Loss.log_clamp 1 = 0).
  { unfold Loss.log_clamp. destruct (Rle_dec 1 0); [lra|]. rewrite ln_1.
    unfold Rmax. destruct (Rle_dec 0 (-100)); lra. }
  intros [-> | ->]; unfold Loss.bce.
  - replace (1 - 0) with 1 by lra. rewrite H1. ring.
  - replace (1 - 1) with 0 by lra. rewrite H1. ring.
Qed.

Lemma Rsum_zeros {A : Type} (l : list A) : Rsum (map (fun _ => 0) l) = 0.
Proof. unfold Rsum. induction l as [|x l IH]; simpl; [reflexivity|]. rewrite IH. ring. Qed.

(** X16: when every target is 0 or 1 and the inputs equal the targets, the
    focal loss is 0 in every element, and so is its sum and its mean. *)
Theorem focal_zero_on_exact_prediction (a : R) (g : nat) (r : Loss.reduction)
  (targets : list R) :
  targets <> [] -> Forall (fun t => t = 0 \/ t = 1) targets ->
  Loss.forward (Loss.mkFocal a g r) targets targets
  = Ok (match r with
        | Loss.none => Loss.Vector (map (fun _ => 0) targets)
        | _ => Loss.Scalar 0
        end).
Proof.
  intros _ Ht. unfold Loss.forward, Loss.binary_cross_entropy.
  rewrite Nat.eqb_refl. cbn [negb].
  assert (Hu : forallb (fun x => Rgeb x 0 && Rgeb 1 x) targets = true).
  { apply unit_interval_forallb. eapply Forall_impl; [|exact Ht]. intros t [-> | ->]; lra. }
  rewrite Hu. cbn [negb bind Loss.alpha Loss.gamma Loss.reduction_].
  set (scaled := map2 _ _ _).
  assert (Hs : scaled = map (fun _ => 0) targets).
  { unfold scaled. clear Hu scaled. induction Ht as [|t l Ht0 Ht IH]; [reflexivity|].
    cbn [map map2 combine]. rewrite IH, (bce_exact t Ht0). f_equal. ring. }
  clearbody scaled. rewrite Hs. destruct r; cbn [Loss.reduce]; rewrite ?Rsum_zeros.
  - reflexivity.
  - do 2 f_equal. unfold Rdiv. ring.
  - reflexivity.
Qed.

(** X16 (witness) *)
Lemma focal_zero_on_exact_prediction_witness :
  Loss.forward (Loss.mkFocal 0.25 2 Loss.mean) [1; 0] [1; 0] = Ok (Loss.Scalar 0).
Proof.
  apply (focal_zero_on_exact_prediction 0.25 2 Loss.mean [1; 0]).
  - discriminate.
  - constructor; [now right|]. constructor; [now left|]. constructor.
Defined.

(** ** [bbox_xywha_ciou] on batches *)

(** X17: [bbox_xywha_ciou] fails on its assertion exactly when the two
    batches differ in length; a result holds one value per row in both of
    its tensors. *)
Theorem bbox_xywha_ciou_lengths (pred_boxes target_boxes : list rbox) :
  (Loss.bbox_xywha_ciou pred_boxes target_boxes = Err AssertionError <->
   length pred_boxes <> length target_boxes) /\
  (forall s c, Loss.bbox_xywha_ciou pred_boxes target_boxes = Ok (s, c) ->
     length pred_boxes = length target_boxes /\
     length s = length pred_boxes /\ length c = length pred_boxes).
Proof.
  unfold Loss.bbox_xywha_ciou.
  destruct (length pred_boxes =? length target_boxes)%nat eqn:E; cbn [negb].
  - apply Nat.eqb_eq in E. split; [split; [discriminate|congruence]|].
    intros s c [= <- <-]. rewrite !length_map, map2_length by exact E. auto.
  - apply Nat.eqb_neq in E. split; [split; auto|]. discriminate.
Qed.

(** X18: for boxes of non-negative width and height, each entry of the
    first tensor of [bbox_xywha_ciou] lies between 0 and the axis-aligned
    overlap ratio of its pair: the angle factor only scales the ratio
    down. *)
Theorem bbox_xywha_ciou_first_at_most_ratio (pred_boxes target_boxes : list rbox)
  (s c : list R) :
  Forall (fun b => 0 <= bw b /\ 0 <= bh b) pred_boxes ->
  Forall (fun b => 0 <= bw b /\ 0 <= bh b) target_boxes ->
  Loss.bbox_xywha_ciou pred_boxes target_boxes = Ok (s, c) ->
  Forall2 (fun v pt => 0 <= v <= PostProcess.aa_iou (fst pt) (snd pt))
          s (combine pred_boxes target_boxes).
Proof.
  intros Hp Ht. unfold Loss.bbox_xywha_ciou.
  destruct (negb _); [discriminate|]. intros [= <- _]. clear c.
  revert target_boxes Ht. induction Hp as [|p l Hp0 Hp IH]; intros [|t l'] Ht;
    cbn [map2 map combine]; constructor.
  - inversion Ht as [|? ? Ht0 _]; subst. cbn [fst snd]. rewrite ciou_pair_fst.
    destruct Hp0 as [Hpw Hph], Ht0 as [Htw Hth].
    pose proof (aa_iou_nonneg p t Hpw Hph Htw Hth) as Hr.
    pose proof (Rabs_pos (cos (ba p - ba t))) as Hc0.
    assert (Hc1 : Rabs (cos (ba p - ba t)) <= 1).
    { apply Rabs_le. pose proof (COS_bound (ba p - ba t)). lra. }
    nra.
  - apply IH. now inversion Ht.
Qed.

(** X18 (witness) *)
Lemma bbox_xywha_ciou_first_at_most_ratio_witness :
  Forall2 (fun v pt => 0 <= v <= PostProcess.aa_iou (fst pt) (snd pt))
          (map fst (map2 Loss.ciou_pair [boxP] [boxT])) (combine [boxP] [boxT]).
Proof.
  apply (bbox_xywha_ciou_first_at_most_ratio [boxP] [boxT]
           (map fst (map2 Loss.ciou_pair [boxP] [boxT]))
           (map snd (map2 Loss.ciou_pair [boxP] [boxT]))).
  - repeat constructor; cbn; lra.
  - repeat constructor; cbn; lra.
  - reflexivity.
Defined.

(** ** [build_targets]: when it returns *)

Lemma max_from_index (l : list R) :
  forall best bi i, (bi < i)%nat -> (snd (max_from best bi i l) < i + length l)%nat.
Proof.
  induction l as [|x l IH]; intros best bi i H; cbn [max_from length].
  - cbn [snd]. lia.
  - destruct (Rgtb x best).
    + specialize (IH x i (S i)). lia.
    + specialize (IH best bi (S i)). lia.
Qed.

Lemma best_n_lt (anchor_wh_iou : R * R -> R * R -> R) (masked_anchors : list anchor)
  (tb : rbox) :
  masked_anchors <> [] ->
  (Loss.best_n anchor_wh_iou masked_anchors tb < length masked_anchors)%nat.
Proof.
  intros H. unfold Loss.best_n, Loss.anchor_ious.
  destruct masked_anchors as [|a l]; [congruence|]. cbn [map length].
  match goal with |- (snd (max_from ?x 0 1 ?r) < _)%nat =>
    pose proof (max_from_index r x 0%nat 1%nat) as Hm end.
  rewrite length_map in Hm. lia.
Qed.

Lemma gt_idx_in_bounds (anchor_wh_iou : R * R -> R * R -> R) (masked_anchors : list anchor)
  (nB nG : nat) (t : gt) :
  masked_anchors <> [] -> (0 < nG)%nat -> (gb t < nB)%nat ->
  Loss.in_bounds masked_anchors nB nG (Loss.gt_idx anchor_wh_iou masked_anchors nG t) = true.
Proof.
  intros Ha HG Hb. unfold Loss.in_bounds, Loss.gt_idx, Loss.nA. cbv zeta.
  rewrite !andb_true_iff. repeat split; apply Nat.ltb_lt; auto using cell_lt, best_n_lt.
Qed.

(** X20: [build_targets] returns whenever there is an anchor, a class and
    a grid cell, every ground truth carries a batch index below [nB] and a
    class below [nC], and [pred_cls] has [nC] scores per cell. *)
Theorem build_targets_succeeds (anchor_wh_iou : R * R -> R * R -> R)
  (masked_anchors : list anchor) (stride ignore_thresh : R) (nB nG nC : nat)
  (pred_boxes : idx -> rbox) (pred_cls : idx -> list R) (target : list gt) :
  masked_anchors <> [] -> nC <> O -> (0 < nG)%nat ->
  Forall (fun t => (gb t < nB)%nat /\ (glabel t < nC)%nat) target ->
  (forall i, length (pred_cls i) = nC) ->
  exists T,
    Loss.build_targets anchor_wh_iou masked_anchors stride ignore_thresh nB nG nC
      pred_boxes pred_cls target = Ok T.
Proof.
  intros Ha HnC HG Ht Hc. rewrite Forall_forall in Ht. apply build_targets_ok; auto.
  - apply forallb_forall. intros i Hi. apply in_map_iff in Hi as [t [<- Hin]].
    apply gt_idx_in_bounds; auto. now apply Ht.
  - apply forallb_forall. intros t Hin. apply Nat.ltb_lt. now apply Ht.
  - intros t _ E. specialize (Hc (Loss.gt_idx anchor_wh_iou masked_anchors nG t)).
    rewrite E in Hc. cbn [length] in Hc. congruence.
Qed.

(** X20 (witness) *)
Lemma build_targets_succeeds_witness :
  exists T,
    Loss.build_targets anchor_wh_iou_model anchors1 32 0.5 2 1 1 pred_boxes1 pred_cls1 [gt1]
    = Ok T.
Proof.
  apply (build_targets_succeeds anchor_wh_iou_model anchors1 32 0.5 2 1 1 pred_boxes1
           pred_cls1 [gt1]).
  - discriminate.
  - discriminate.
  - lia.
  - repeat constructor; cbn; lia.
  - reflexivity.
Defined.

(** X21: with at least one anchor, a ground truth whose batch index is not
    below [nB], or whose class is not below [nC], makes [build_targets]
    fail with [IndexError]. *)
Theorem build_targets_index_error (anchor_wh_iou : R * R -> R * R -> R)
  (masked_anchors : list anchor) (stride ignore_thresh : R) (nB nG nC : nat)
  (pred_boxes : idx -> rbox) (pred_cls : idx -> list R) (target : list gt) :
  masked_anchors <> [] ->
  Exists (fun t => (nB <= gb t)%nat \/ (nC <= glabel t)%nat) target ->
  Loss.build_targets anchor_wh_iou masked_anchors stride ignore_thresh nB nG nC
    pred_boxes pred_cls target = Err IndexError.
Proof.
  intros Ha Hx. unfold Loss.build_targets.
  destruct masked_anchors as [|a0 anchors] eqn:Ea; [congruence|]. rewrite <- Ea.
  destruct (forallb _ (map _ target)) eqn:E1; cbn [negb]; [|reflexivity].
  destruct (forallb _ target) eqn:E2; cbn [negb]; [|reflexivity].
  exfalso. apply Exists_exists in Hx as [t [Hin Ht]].
  rewrite forallb_forall in E1, E2.
  specialize (E2 t Hin). apply Nat.ltb_lt in E2.
  specialize (E1 _ (in_map _ _ _ Hin)).
  unfold Loss.in_bounds, Loss.gt_idx in E1. cbv zeta in E1.
  rewrite !andb_true_iff in E1. destruct E1 as [[[E1 _] _] _]. apply Nat.ltb_lt in E1.
  lia.
Qed.

(** X21 (witness): a ground truth of image 5 in a batch of one image. *)
Lemma build_targets_index_error_witness :
  Loss.build_targets anchor_wh_iou_model anchors1 32 0.5 1 1 1 pred_boxes1 pred_cls1
    [mkgt 5 0 0.5 0.5 1 1 0] = Err IndexError.
Proof.
  apply (build_targets_index_error anchor_wh_iou_model anchors1 32 0.5 1 1 1 pred_boxes1
           pred_cls1 [mkgt 5 0 0.5 0.5 1 1 0]).
  - discriminate.
  - constructor. left. cbn. lia.
Defined.

(** ** [build_targets]: the masks *)

Lemma idx_in_dec (i : idx) (l : list idx) : {In i l} + {~ In i l}.
Proof. apply in_dec. intros a b. repeat decide equality. Qed.

Lemma matched_cells (gt_idx : gt -> idx) (target : list gt) (i : idx) :
  In i (map gt_idx target) <-> exists t, In t target /\ gt_idx t = i.
Proof.
  rewrite in_map_iff. split; intros [t [H1 H2]]; exists t; auto.
Qed.

(** X22: [obj_mask] is set exactly at the cells [(b, best_n, gj, gi)] of
    the ground truths, and [tconf] is 1 there and 0 elsewhere. *)
Theorem obj_mask_marks_matched_cells (anchor_wh_iou : R * R -> R * R -> R)
  (masked_anchors : list anchor) (stride ignore_thresh : R) (nB nG nC : nat)
  (pred_boxes : idx -> rbox) (pred_cls : idx -> list R) (target : list gt)
  (T : Loss.targets) (i : idx) :
  Loss.build_targets anchor_wh_iou masked_anchors stride ignore_thresh nB nG nC
    pred_boxes pred_cls target = Ok T ->
  (Loss.obj_mask T i = true <->
   exists t, In t target /\ Loss.gt_idx anchor_wh_iou masked_anchors nG t = i) /\
  Loss.tconf T i = (if Loss.obj_mask T i then 1 else 0).
Proof.
  intros H. destruct (build_targets_inv _ _ _ _ _ _ _ _ _ _ _ H) as (Ho & _ & _ & _ & Hc).
  rewrite Ho, Hc. clear Ho Hc H. rewrite <- matched_cells.
  set (idxs := map (Loss.gt_idx anchor_wh_iou masked_anchors nG) target).
  unfold Loss.to_bool. destruct (idx_in_dec i idxs) as [Hi|Hi].
  - rewrite (index_put_in 1 idxs) by
      (auto using map_const_Forall; unfold idxs; now rewrite !length_map).
    destruct (Req_dec_T 1 0); [lra|]. tauto.
  - rewrite index_put_notin by exact Hi.
    destruct (Req_dec_T 0 0); [|lra]. split; [|reflexivity].
    split; [discriminate|contradiction].
Qed.

(** X22 (witness) *)
Lemma obj_mask_marks_matched_cells_witness :
  (Loss.obj_mask targets1 (0, 0, 0, 0)%nat = true <->
   exists t, In t [gt1] /\ Loss.gt_idx anchor_wh_iou_model anchors1 1 t = (0, 0, 0, 0)%nat) /\
  Loss.tconf targets1 (0, 0, 0, 0)%nat
  = (if Loss.obj_mask targets1 (0, 0, 0, 0)%nat then 1 else 0).
Proof.
  exact (obj_mask_marks_matched_cells anchor_wh_iou_model anchors1 32 0.5 1 1 1 pred_boxes1
           pred_cls1 [gt1] targets1 (0, 0, 0, 0)%nat build1_ok).
Defined.

Lemma select_seq_nth (mask : list bool) :
  forall k n, In n (select mask (seq k (length mask))) ->
  exists m, n = (k + m)%nat /\ nth_error mask m = Some true.
Proof.
  induction mask as [|a mask IH]; intros k n H; simpl in H; [contradiction|].
  destruct a.
  - destruct H as [<-|H]; [exists O; split; [lia|reflexivity]|].
    destruct (IH (S k) n H) as [m [-> Hm]]. exists (S m). split; [lia|exact Hm].
  - destruct (IH (S k) n H) as [m [-> Hm]]. exists (S m). split; [lia|exact Hm].
Qed.

Lemma mask_put_changed {A : Type} (t : idx -> A) (b : nat) (mask : list bool)
  (gj gi : nat) (v : A) (i : idx) :
  Loss.mask_put t b mask gj gi v i <> t i ->
  exists n, nth_error mask n = Some true /\ i = (b, n, gj, gi).
Proof.
  unfold Loss.mask_put. intros H. apply index_put_changed in H.
  apply in_map_iff in H as [n [<- Hn]].
  destruct (select_seq_nth mask 0 n Hn) as [m [-> Hm]]. now exists m.
Qed.

Section IgnoreBand.

Variable anchor_wh_iou : R * R -> R * R -> R.
Variable masked_anchors : list anchor.
Variable ignore_thresh : R.
Variable nG : nat.

Let ignore_step := Loss.ignore_step anchor_wh_iou masked_anchors ignore_thresh nG.
Let band := in_band anchor_wh_iou masked_anchors ignore_thresh nG.

Lemma band_mask_1 (tb : rbox) (n : nat) :
  nth_error (map (fun v => Rgtb v ignore_thresh)
               (Loss.anchor_ious anchor_wh_iou masked_anchors tb)) n = Some true <->
  exists a, nth_error masked_anchors n = Some a /\
    anchor_wh_iou (aw a, ah a) (bw tb, bh tb) * Rabs (cos (aa a - ba tb)) > ignore_thresh.
Proof.
  unfold Loss.anchor_ious. rewrite !nth_error_map.
  destruct (nth_error masked_anchors n) as [a|]; cbn [option_map].
  - split.
    + intros [= H]. apply Rgtb_true in H. now exists a.
    + intros [a' [[= <-] H]]. f_equal. now apply Rgtb_true.
  - split; [discriminate|]. intros [a [H _]]. discriminate.
Qed.

Lemma band_mask_2 (tb : rbox) (n : nat) :
  nth_error (map2 (fun v o => Rgtb v 0.4 && Rltb o (PI / 12))
               (Loss.anchor_ious anchor_wh_iou masked_anchors tb)
               (Loss.angle_offset masked_anchors tb)) n = Some true <->
  exists a, nth_error masked_anchors n = Some a /\
    anchor_wh_iou (aw a, ah a) (bw tb, bh tb) * Rabs (cos (aa a - ba tb)) > 0.4 /\
    Rabs (aa a - ba tb) < PI / 12.
Proof.
  unfold Loss.anchor_ious, Loss.angle_offset. rewrite map2_map_map, nth_error_map.
  destruct (nth_error masked_anchors n) as [a|]; cbn [option_map].
  - split.
    + intros [= H]. apply andb_true_iff in H as [H1 H2].
      apply Rgtb_true in H1. unfold Rltb in H2. apply Rgtb_true in H2. now exists a.
    + intros [a' [[= <-] [H1 H2]]]. f_equal. apply andb_true_iff.
      split; [now apply Rgtb_true|]. unfold Rltb. now apply Rgtb_true.
  - split; [discriminate|]. intros [a [H _]]. discriminate.
Qed.

Lemma ignore_step_changed (t : idx -> R) (g : gt) (i : idx) :
  ignore_step t g i <> t i -> band g i.
Proof.
  unfold ignore_step, Loss.ignore_step, Loss.gt_idx. cbv beta iota zeta.
  set (tb := Loss.target_box nG g).
  set (inner := Loss.mask_put t (gb g) _ _ _ 0).
  intros H. destruct (Req_dec (inner i) (t i)) as [E|E].
  - rewrite <- E in H. apply mask_put_changed in H as [n [Hn ->]].
    apply band_mask_2 in Hn as [a [Ha [H1 H2]]].
    exists n, a. split; [exact Ha|]. split; [reflexivity|]. right. split; assumption.
  - apply mask_put_changed in E as [n [Hn ->]].
    apply band_mask_1 in Hn as [a [Ha H1]].
    exists n, a. split; [exact Ha|]. split; [reflexivity|]. left. exact H1.
Qed.

Lemma fold_ignore_changed (target : list gt) :
  forall (t : idx -> R) (i : idx),
  fold_left ignore_step target t i <> t i -> exists g, In g target /\ band g i.
Proof.
  induction target as [|g target IH]; intros t i H; cbn [fold_left] in H.
  - congruence.
  - destruct (Req_dec (ignore_step t g i) (t i)) as [E|E].
    + rewrite <- E in H. destruct (IH _ _ H) as [g' [Hin Hb]].
      exists g'. split; [now right|exact Hb].
    + exists g. split; [now left|]. exact (ignore_step_changed t g i E).
Qed.

Lemma band_clears (target : list gt) (g : gt) (t : idx -> R) (i : idx) :
  In g target -> band g i -> fold_left ignore_step target t i = 0.
Proof.
  intros Hin [n [a [Ha [-> Hc]]]]. cbv zeta in Hc.
  apply in_split in Hin as [l1 [l2 ->]].
  rewrite fold_left_app. cbn [fold_left]. apply fold_ignore_zero.
  unfold ignore_step, Loss.ignore_step, Loss.gt_idx. cbv beta iota zeta.
  destruct Hc as [Hc|[Hc Ho]].
  - apply mask_put_zero. apply mask_put_hit. apply band_mask_1. now exists a.
  - apply mask_put_hit. apply band_mask_2. now exists a.
Qed.

End IgnoreBand.

Lemma build2_ok : build2 = Ok targets2.
Proof.
  unfold targets2.
  destruct (build_targets_ok anchor_wh_iou_model anchors1 32 0.5 2 1 1 pred_boxes1 pred_cls1 [gt1])
    as [T HT].
  - discriminate.
  - discriminate.
  - cbn [map forallb]. rewrite gt_idx1. reflexivity.
  - reflexivity.
  - intros t _. discriminate.
  - fold build2 in HT. now rewrite HT.
Qed.

(** X23: [noobj_mask] is cleared exactly at the cells of the ground truths
    and at the cells of their ignore bands: a cell that no ground truth
    matches and that lies in no band keeps [noobj_mask] set. *)
Theorem noobj_mask_cleared_iff (anchor_wh_iou : R * R -> R * R -> R)
  (masked_anchors : list anchor) (stride ignore_thresh : R) (nB nG nC : nat)
  (pred_boxes : idx -> rbox) (pred_cls : idx -> list R) (target : list gt)
  (T : Loss.targets) (i : idx) :
  Loss.build_targets anchor_wh_iou masked_anchors stride ignore_thresh nB nG nC
    pred_boxes pred_cls target = Ok T ->
  (Loss.noobj_mask T i = false <->
   exists t, In t target /\
     (Loss.gt_idx anchor_wh_iou masked_anchors nG t = i \/
      in_band anchor_wh_iou masked_anchors ignore_thresh nG t i)).
Proof.
  intros H. destruct (build_targets_inv _ _ _ _ _ _ _ _ _ _ _ H) as (_ & Hn & _).
  rewrite Hn. clear Hn H.
  set (idxs := map (Loss.gt_idx anchor_wh_iou masked_anchors nG) target).
  set (init := index_put (fun _ => 1) idxs (map (fun _ => 0) target)).
  split.
  - intros Hz. unfold Loss.to_bool in Hz.
    destruct (Req_dec_T _ 0) as [Hz0|]; [clear Hz|discriminate].
    destruct (idx_in_dec i idxs) as [Hi|Hi].
    + apply matched_cells in Hi as [t [Ht Hi]]. exists t. auto.
    + assert (Hinit : init i = 1) by (unfold init; now rewrite index_put_notin).
      destruct (fold_ignore_changed anchor_wh_iou masked_anchors ignore_thresh nG
                  target init i) as [g [Hg Hb]]; [rewrite Hz0, Hinit; lra|].
      exists g. auto.
  - intros [t [Ht [Hi|Hb]]]; apply to_bool_zero.
    + apply fold_ignore_zero. unfold init. apply index_put_in.
      * apply map_const_Forall.
      * unfold idxs. now rewrite !length_map.
      * apply matched_cells. now exists t.
    + now apply (band_clears anchor_wh_iou masked_anchors ignore_thresh nG target t).
Qed.

(** X23 (witness): the cell of the second image of [build2], which no
    ground truth addresses. *)
Lemma noobj_mask_cleared_iff_witness :
  Loss.noobj_mask targets2 (1, 0, 0, 0)%nat = false <->
  exists t, In t [gt1] /\
    (Loss.gt_idx anchor_wh_iou_model anchors1 1 t = (1, 0, 0, 0)%nat \/
     in_band anchor_wh_iou_model anchors1 0.5 1 t (1, 0, 0, 0)%nat).
Proof.
  apply (noobj_mask_cleared_iff anchor_wh_iou_model anchors1 32 0.5 2 1 1 pred_boxes1
           pred_cls1 [gt1] targets2 (1, 0, 0, 0)%nat).
  exact build2_ok.
Defined.

(** ** [build_targets]: the stored targets *)

(** The remaining tensors of a successful call. *)
Lemma build_targets_inv2 (anchor_wh_iou : R * R -> R * R -> R) (masked_anchors : list anchor)
  (stride ignore_thresh : R) (nB nG nC : nat)
  (pred_boxes : idx -> rbox) (pred_cls : idx -> list R)
  (target : list gt) (T : Loss.targets) :
  Loss.build_targets anchor_wh_iou masked_anchors stride ignore_thresh nB nG nC
    pred_boxes pred_cls target = Ok T ->
  let gt_idx := Loss.gt_idx anchor_wh_iou masked_anchors nG in
  let idxs := map gt_idx target in
  forallb (fun t => (glabel t <? nC)%nat) target = true /\
  Loss.ta T
  = index_put (fun _ => 0) idxs
      (map (fun t => ga t - aa (nth (Loss.best_n anchor_wh_iou masked_anchors
                                       (Loss.target_box nG t))
                                    masked_anchors (mkanchor 0 0 0))) target) /\
  Loss.tcls T
  = fold_left (fun tcls t => upd tcls (gt_idx t) (set_nth (glabel t) 1 (tcls (gt_idx t))))
      target (fun _ => repeat 0 nC) /\
  Loss.iou_scores T
  = index_put (fun _ => 0) idxs
      (map (fun t => fst (Loss.ciou_pair (pred_boxes (gt_idx t)) (Loss.target_box nG t)))
           target) /\
  exists cm,
    mapM (fun t => m <- max_dim (pred_cls (gt_idx t)) ;;
                   Ok (if (snd m =? glabel t)%nat then 1 else 0)) target = Ok cm /\
    Loss.class_mask T = index_put (fun _ => 0) idxs cm.
Proof.
  unfold Loss.build_targets.
  destruct masked_anchors as [|a0 anchors] eqn:Ea; [discriminate|]. rewrite <- Ea.
  destruct (negb (forallb _ (map _ target))); [discriminate|].
  destruct (forallb _ target) eqn:El; cbn [negb]; [|discriminate].
  unfold Loss.bbox_xywha_ciou. rewrite !length_map, Nat.eqb_refl. cbn [negb bind].
  destruct (nC =? 0)%nat; [discriminate|].
  destruct (mapM _ target) as [cm|e] eqn:Ec; cbn [bind]; [|discriminate].
  intros [= <-]. cbn [Loss.ta Loss.tcls Loss.iou_scores Loss.class_mask].
  cbv zeta. rewrite (map_map (Loss.gt_idx _ _ _) pred_boxes), map2_map_map, !map_map.
  do 4 (split; [reflexivity|]). exists cm. split; reflexivity.
Qed.

Lemma set_nth_length {A : Type} (n : nat) (v : A) (l : list A) :
  length (set_nth n v l) = length l.
Proof.
  revert n; induction l as [|x l IH]; intros [|n]; simpl; auto.
Qed.

Lemma nth_set_nth {A : Type} (n k : nat) (v d : A) (l : list A) :
  nth k (set_nth n v l) d
  = if ((k =? n) && (n <? length l))%nat then v else nth k l d.
Proof.
  revert n k; induction l as [|x l IH]; intros [|n] [|k]; simpl; auto;
    now rewrite ?andb_false_r.
Qed.

Lemma fold_tcls_spec (gidx : gt -> idx) (nC : nat) (target : list gt) :
  forall init : idx -> list R,
  (forall i, length (init i) = nC) ->
  Forall (fun t => (glabel t < nC)%nat) target ->
  let T := fold_left (fun tcls t => upd tcls (gidx t) (set_nth (glabel t) 1 (tcls (gidx t))))
             target init in
  (forall i, length (T i) = nC) /\
  (forall i k, nth k (T i) 0 = 1 <->
     nth k (init i) 0 = 1 \/ exists t, In t target /\ gidx t = i /\ glabel t = k).
Proof.
  induction target as [|t target IH]; intros init Hlen Hlab; cbn [fold_left].
  - split; [exact Hlen|]. intros i k. split; [auto|]. intros [H|[t [[] _]]]. exact H.
  - inversion Hlab as [|? ? Ht Hrest]; subst.
    set (init' := upd init (gidx t) (set_nth (glabel t) 1 (init (gidx t)))).
    assert (Hlen' : forall i, length (init' i) = nC).
    { intros i. unfold init', upd. destruct (idx_eqb i (gidx t)); [|apply Hlen].
      rewrite set_nth_length. apply Hlen. }
    destruct (IH init' Hlen' Hrest) as [IH1 IH2]. split; [exact IH1|].
    intros i k. rewrite IH2.
    assert (Hstep : nth k (init' i) 0 = 1 <->
                    nth k (init i) 0 = 1 \/ (gidx t = i /\ glabel t = k)).
    { unfold init', upd. destruct (idx_eqb i (gidx t)) eqn:E.
      - apply idx_eqb_eq in E. subst i. rewrite nth_set_nth, Hlen.
        apply Nat.ltb_lt in Ht. rewrite Ht, andb_true_r.
        destruct (k =? glabel t)%nat eqn:Ek.
        + apply Nat.eqb_eq in Ek. subst k. tauto.
        + apply Nat.eqb_neq in Ek. split; [auto|]. intros [H|[_ H]]; [exact H|congruence].
      - apply idx_eqb_neq in E. split; [auto|]. intros [H|[H _]]; [exact H|congruence]. }
    rewrite Hstep. split.
    + intros [[H|[H1 H2]]|[t' [Hin H]]].
      * left. exact H.
      * right. exists t. split; [now left|split; assumption].
      * right. exists t'. split; [now right|exact H].
    + intros [H|[t' [[E|Hin] H]]].
      * left. left. exact H.
      * subst t'. left. right. exact H.
      * right. exists t'. split; assumption.
Qed.

(** X24: [tcls] has [nC] entries per cell, and entry [k] of a cell is 1
    exactly when some ground truth of class [k] is matched to that cell:
    ground truths of different classes that share a cell leave one bit
    each. *)
Theorem tcls_marks_labels (anchor_wh_iou : R * R -> R * R -> R)
  (masked_anchors : list anchor) (stride ignore_thresh : R) (nB nG nC : nat)
  (pred_boxes : idx -> rbox) (pred_cls : idx -> list R) (target : list gt)
  (T : Loss.targets) (i : idx) (k : nat) :
  Loss.build_targets anchor_wh_iou masked_anchors stride ignore_thresh nB nG nC
    pred_boxes pred_cls target = Ok T ->
  length (Loss.tcls T i) = nC /\
  (nth k (Loss.tcls T i) 0 = 1 <->
   exists t, In t target /\
     Loss.gt_idx anchor_wh_iou masked_anchors nG t = i /\ glabel t = k).
Proof.
  intros H. destruct (build_targets_inv2 _ _ _ _ _ _ _ _ _ _ _ H) as (Hl & _ & Ht & _).
  rewrite Ht. clear Ht H.
  destruct (fold_tcls_spec (Loss.gt_idx anchor_wh_iou masked_anchors nG) nC target
              (fun _ => repeat 0 nC)) as [H1 H2].
  - intros _. apply repeat_length.
  - apply Forall_forall. intros t Hin. rewrite forallb_forall in Hl.
    apply Nat.ltb_lt. now apply Hl.
  - split; [apply H1|]. rewrite H2. split; [|auto].
    intros [Hz|Hx]; [|exact Hx]. rewrite nth_repeat in Hz. lra.
Qed.

(** X24 (witness) *)
Lemma tcls_marks_labels_witness :
  length (Loss.tcls targets1 (0, 0, 0, 0)%nat) = 1%nat /\
  (nth 0 (Loss.tcls targets1 (0, 0, 0, 0)%nat) 0 = 1 <->
   exists t, In t [gt1] /\
     Loss.gt_idx anchor_wh_iou_model anchors1 1 t = (0, 0, 0, 0)%nat /\ glabel t = 0%nat).
Proof.
  exact (tcls_marks_labels anchor_wh_iou_model anchors1 32 0.5 1 1 1 pred_boxes1
           pred_cls1 [gt1] targets1 (0, 0, 0, 0)%nat 0%nat build1_ok).
Defined.

Lemma mapM_app_inv {A B : Type} (f : A -> result B) (l1 l2 : list A) (x : A) (r : list B) :
  mapM f (l1 ++ x :: l2) = Ok r ->
  exists r1 v r2, r = r1 ++ v :: r2 /\ length l1 = length r1 /\ f x = Ok v.
Proof.
  intros H. apply mapM_Forall2 in H. apply Forall2_app_inv_l in H.
  destruct H as [r1 [r' [H1 [H2 ->]]]]. inversion H2 as [|? v ? r2 Hv _]; subst.
  exists r1, v, r2. repeat split; auto. eapply Forall2_length; eauto.
Qed.

(** X25: at the cell of a ground truth that no later ground truth
    addresses, [ta] holds the angle of the ground truth minus the angle of
    the matched anchor, [iou_scores] holds the first value of
    [bbox_xywha_ciou] on the matched pair as it is, and [class_mask] is 1
    when the first maximal class score of the cell is that of the class of
    the ground truth and 0 otherwise. *)
Theorem stored_assignment (anchor_wh_iou : R * R -> R * R -> R)
  (masked_anchors : list anchor) (stride ignore_thresh : R) (nB nG nC : nat)
  (pred_boxes : idx -> rbox) (pred_cls : idx -> list R)
  (l1 l2 : list gt) (t : gt) (T : Loss.targets) :
  let gt_idx := Loss.gt_idx anchor_wh_iou masked_anchors nG in
  let tb := Loss.target_box nG t in
  Loss.build_targets anchor_wh_iou masked_anchors stride ignore_thresh nB nG nC
    pred_boxes pred_cls (l1 ++ t :: l2) = Ok T ->
  Forall (fun t' => gt_idx t' <> gt_idx t) l2 ->
  Loss.ta T (gt_idx t)
  = ga t - aa (nth (Loss.best_n anchor_wh_iou masked_anchors tb) masked_anchors
                   (mkanchor 0 0 0)) /\
  Loss.iou_scores T (gt_idx t) = fst (Loss.ciou_pair (pred_boxes (gt_idx t)) tb) /\
  exists m, max_dim (pred_cls (gt_idx t)) = Ok m /\
    Loss.class_mask T (gt_idx t) = (if (snd m =? glabel t)%nat then 1 else 0).
Proof.
  intros gt_idx tb H Hl.
  destruct (build_targets_inv2 _ _ _ _ _ _ _ _ _ _ _ H) as (_ & Ha & _ & Hi & [cm [Hcm Hc]]).
  rewrite Ha, Hi, Hc. clear Ha Hi Hc H. fold gt_idx in Hcm |- *.
  rewrite !map_app. cbn [map].
  assert (Hn : ~ In (gt_idx t) (map gt_idx l2)).
  { intros Hin. apply in_map_iff in Hin as [t' [E Hin]].
    rewrite Forall_forall in Hl. now apply (Hl t' Hin). }
  split; [|split].
  - apply index_put_last; auto. now rewrite !length_map.
  - apply index_put_last; auto. now rewrite !length_map.
  - destruct (mapM_app_inv _ _ _ _ _ Hcm) as [r1 [v [r2 [-> [Hlen Hv]]]]].
    destruct (max_dim (pred_cls (gt_idx t))) as [m|e]; cbn [bind] in Hv; [|discriminate].
    injection Hv as <-. exists m. split; [reflexivity|].
    apply index_put_last; auto. now rewrite length_map.
Qed.

(** X25 (witness) *)
Lemma stored_assignment_witness :
  let gt_idx := Loss.gt_idx anchor_wh_iou_model anchors1 1 in
  let tb := Loss.target_box 1 gt1 in
  Loss.ta targets1 (gt_idx gt1)
  = ga gt1 - aa (nth (Loss.best_n anchor_wh_iou_model anchors1 tb) anchors1
                     (mkanchor 0 0 0)) /\
  Loss.iou_scores targets1 (gt_idx gt1) = fst (Loss.ciou_pair (pred_boxes1 (gt_idx gt1)) tb) /\
  exists m, max_dim (pred_cls1 (gt_idx gt1)) = Ok m /\
    Loss.class_mask targets1 (gt_idx gt1) = (if (snd m =? glabel gt1)%nat then 1 else 0).
Proof.
  apply (stored_assignment anchor_wh_iou_model anchors1 32 0.5 1 1 1 pred_boxes1 pred_cls1
           [] [] gt1 targets1).
  - exact build1_ok.
  - constructor.
Defined.

Lemma fold_tcls_other (gidx : gt -> idx) (target : list gt) (i : idx) :
  ~ In i (map gidx target) ->
  forall init : idx -> list R,
  fold_left (fun tcls t => upd tcls (gidx t) (set_nth (glabel t) 1 (tcls (gidx t))))
    target init i = init i.
Proof.
  induction target as [|t target IH]; intros Hn init; cbn [fold_left]; [reflexivity|].
  rewrite IH by (intros Hin; apply Hn; now right).
  apply upd_other. intros ->. apply Hn. now left.
Qed.

(** X26: a cell that no ground truth is matched to keeps the initial
    value in every target tensor: [obj_mask] unset, all-zero class
    targets, and 0 for [tconf], [ta], [iou_scores], [skew_iou],
    [ciou_loss] and [class_mask]. *)
Theorem unmatched_cells_keep_defaults (anchor_wh_iou : R * R -> R * R -> R)
  (masked_anchors : list anchor) (stride ignore_thresh : R) (nB nG nC : nat)
  (pred_boxes : idx -> rbox) (pred_cls : idx -> list R) (target : list gt)
  (T : Loss.targets) (i : idx) :
  Loss.build_targets anchor_wh_iou masked_anchors stride ignore_thresh nB nG nC
    pred_boxes pred_cls target = Ok T ->
  Forall (fun t => Loss.gt_idx anchor_wh_iou masked_anchors nG t <> i) target ->
  Loss.obj_mask T i = false /\ Loss.tcls T i = repeat 0 nC /\
  Loss.tconf T i = 0 /\ Loss.ta T i = 0 /\ Loss.iou_scores T i = 0 /\
  Loss.skew_iou T i = 0 /\ Loss.ciou_loss T i = 0 /\ Loss.class_mask T i = 0.
Proof.
  intros H Hf.
  assert (Hn : ~ In i (map (Loss.gt_idx anchor_wh_iou masked_anchors nG) target)).
  { intros Hin. apply in_map_iff in Hin as [t [E Hin]].
    rewrite Forall_forall in Hf. now apply (Hf t Hin). }
  destruct (build_targets_inv _ _ _ _ _ _ _ _ _ _ _ H) as (Ho & _ & Hs & Hc & Htc).
  destruct (build_targets_inv2 _ _ _ _ _ _ _ _ _ _ _ H) as (_ & Ha & Ht & Hi & [cm [_ Hm]]).
  rewrite Ho, Hs, Hc, Htc, Ha, Ht, Hi, Hm.
  rewrite !(index_put_notin _ _ _ i Hn). rewrite (fold_tcls_other (Loss.gt_idx anchor_wh_iou masked_anchors nG) target i Hn
             (fun _ => repeat 0 nC)).
  repeat split. apply to_bool_zero. now rewrite (index_put_notin _ _ _ i Hn).
Qed.

(** X26 (witness): the cell of the second image of [build2]. *)
Lemma unmatched_cells_keep_defaults_witness :
  Loss.obj_mask targets2 (1, 0, 0, 0)%nat = false /\
  Loss.tcls targets2 (1, 0, 0, 0)%nat = repeat 0 1 /\
  Loss.tconf targets2 (1, 0, 0, 0)%nat = 0 /\ Loss.ta targets2 (1, 0, 0, 0)%nat = 0 /\
  Loss.iou_scores targets2 (1, 0, 0, 0)%nat = 0 /\
  Loss.skew_iou targets2 (1, 0, 0, 0)%nat = 0 /\ Loss.ciou_loss targets2 (1, 0, 0, 0)%nat = 0 /\
  Loss.class_mask targets2 (1, 0, 0, 0)%nat = 0.
Proof.
  apply (unmatched_cells_keep_defaults anchor_wh_iou_model anchors1 32 0.5 2 1 1 pred_boxes1
           pred_cls1 [gt1] targets2 (1, 0, 0, 0)%nat).
  - exact build2_ok.
  - constructor; [|constructor]. rewrite gt_idx1. discriminate.
Defined.

(** ** The number of detections *)

Lemma nms_while_length (G : Shapely) (nms_thres : R) (fuel : nat) :
  forall detect keep,
  NMS.nms_while G nms_thres fuel detect = Ok keep -> (length keep <= length detect)%nat.
Proof.
  induction fuel as [|fuel IH]; intros detect keep; destruct detect as [|d l];
    cbn [NMS.nms_while]; try (intros [= <-]; cbn [length]; lia).
  destruct (NMS.nms_iter G nms_thres d l) as [[b' rest]|e] eqn:E; cbn [bind]; [|discriminate].
  cbn [snd fst].
  destruct (NMS.nms_while G nms_thres fuel rest) as [k|e] eqn:Ek; cbn [bind]; [|discriminate].
  intros [= <-]. destruct (nms_iter_shape G nms_thres _ _ _ _ E) as [_ [mask ->]].
  specialize (IH _ _ Ek). pose proof (select_length mask l). cbn [length]. lia.
Qed.

Lemma filter_filter_label {A : Type} (lab : A -> nat) (x y : nat) (l : list A) :
  x <> y ->
  filter (fun d => (lab d =? y)%nat) (filter (fun d => negb (lab d =? x)%nat) l)
  = filter (fun d => (lab d =? y)%nat) l.
Proof.
  intros Hxy. induction l as [|d l IH]; [reflexivity|]. cbn [filter].
  destruct (lab d =? x)%nat eqn:Ex; cbn [negb filter].
  - apply Nat.eqb_eq in Ex.
    assert (Ey : (lab d =? y)%nat = false) by (apply Nat.eqb_neq; lia).
    now rewrite Ey.
  - destruct (lab d =? y)%nat; now rewrite IH.
Qed.

Lemma groups_length {A : Type} (lab : A -> nat) (labels : list nat) :
  NoDup labels ->
  forall l : list A,
  (length (concat (map (fun x => filter (fun d => (lab d =? x)%nat) l) labels))
   <= length l)%nat.
Proof.
  induction 1 as [|x labels Hx Hnd IH]; intros l; cbn [map concat length]; [lia|].
  rewrite length_app.
  pose proof (filter_length (fun d => (lab d =? x)%nat) l) as Hp.
  specialize (IH (filter (fun d => negb (lab d =? x)%nat) l)).
  rewrite (map_ext_in _ (fun y => filter (fun d => (lab d =? y)%nat) l)) in IH.
  - lia.
  - intros y Hy. apply filter_filter_label. intros ->. contradiction.
Qed.

Lemma nms_labels_length (G : Shapely) (nms_thres : R) (detections : list detection) :
  forall labels keep,
  NMS.nms_labels G nms_thres detections labels = Ok keep ->
  (length keep
   <= length (concat (map (fun x => filter (fun d => (dcls_pred d =? x)%nat) detections)
                          labels)))%nat.
Proof.
  induction labels as [|x labels IH]; intros keep; cbn [NMS.nms_labels map concat].
  - intros [= <-]. cbn [length]. lia.
  - unfold NMS.nms_label at 1.
    destruct (NMS.nms_while G nms_thres _ _) as [k|e] eqn:Ek; cbn [bind]; [|discriminate].
    destruct (NMS.nms_labels G nms_thres detections labels) as [ks|e] eqn:Eks; cbn [bind];
      [|discriminate].
    intros [= <-]. rewrite !length_app.
    apply nms_while_length in Ek. specialize (IH ks eq_refl). lia.
Qed.

Lemma sorted_lt_NoDup (l : list nat) : StronglySorted lt l -> NoDup l.
Proof.
  induction 1 as [|x l Hs IH Hx]; constructor; [|exact IH].
  intros Hin. rewrite Forall_forall in Hx. specialize (Hx x Hin). lia.
Qed.

(** X27: the list returned for an image is never longer than the number
    of candidates of that image that reach the confidence threshold. *)
Theorem post_process_image_no_more_than_candidates (G : Shapely) (nms_thres conf_thres : R)
  (image_pred : list candidate) (out : list detection) :
  NMS.post_process_image G nms_thres conf_thres image_pred = Ok out ->
  (length out <= length (filter (fun c => Rgeb (cconf c) conf_thres) image_pred))%nat.
Proof.
  unfold NMS.post_process_image.
  destruct (filter _ image_pred) as [|y ys]; [intros [= <-]; cbn [length]; lia|].
  destruct (NMS.prepare (y :: ys)) as [dets|e] eqn:Ep; cbn [bind]; [|discriminate].
  apply prepare_length in Ep. unfold NMS.nms.
  destruct (NMS.nms_labels G nms_thres dets _) as [keep|e] eqn:Ek; cbn [bind]; [|discriminate].
  intros H.
  assert (E : out = firstn NMS.max_det keep) by (injection H; intros E; symmetry; exact E).
  apply nms_labels_length in Ek.
  pose proof (groups_length dcls_pred (unique (map dcls_pred dets))
                (sorted_lt_NoDup _ (unique_sorted _)) dets) as Hg.
  rewrite E, length_firstn. lia.
Qed.

(** X27 (witness): three candidates, two detections. *)
Lemma post_process_image_no_more_than_candidates_witness :
  (length [dM; dC]
   <= length (filter (fun c => Rgeb (cconf c) 0.5) [candA; candB; candC]))%nat.
Proof.
  exact (post_process_image_no_more_than_candidates Convex.shapely 0.4 0.5
           [candA; candB; candC] [dM; dC] post_process_first_run).
Defined.

(** ** [ComputeLoss.__call__] with [reduction = 'none'] *)

(** X28: with the reduction ['none'] and an empty ground-truth list, the
    call fails with [RuntimeError] unless the confidence tensor has
    exactly one cell: the vector of focal terms is added in place to a
    tensor of shape [1]. *)
Theorem compute_loss_reduction_none (anchor_wh_iou : R * R -> R * R -> R)
  (masked_anchors : list anchor) (stride ignore_thresh : R) (nB nG nC : nat)
  (lambda_coord lambda_conf_scale lambda_cls_scale : R)
  (pred_boxes : idx -> rbox) (pred_a pred_conf : idx -> R) (pred_cls : idx -> list R) :
  masked_anchors <> [] -> nC <> O ->
  length (Loss.cells masked_anchors nB nG) <> 1%nat ->
  Loss.ComputeLoss_call anchor_wh_iou masked_anchors stride ignore_thresh nB nG nC
    Loss.none lambda_coord lambda_conf_scale lambda_cls_scale
    pred_boxes pred_a pred_conf pred_cls [] = Err RuntimeError.
Proof.
  intros Ha HnC Hlen.
  destruct (build_targets_empty anchor_wh_iou masked_anchors stride ignore_thresh nB nG nC
              pred_boxes pred_cls Ha HnC) as [T [HT [Hn Ht]]].
  unfold Loss.ComputeLoss_call. rewrite HT. cbn [bind length Nat.ltb Nat.leb].
  unfold Loss.masked. set (cells := Loss.cells masked_anchors nB nG) in *.
  rewrite (filter_all (Loss.noobj_mask T) cells) by (apply Forall_forall; intros; apply Hn).
  unfold Loss.forward, Loss.binary_cross_entropy.
  rewrite !length_map, Nat.eqb_refl. cbn [negb].
  destruct (forallb _ (map pred_conf cells)); cbn [negb bind]; [|reflexivity].
  cbn [Loss.reduction_ Loss.reduce].
  set (scaled := map2 _ _ _).
  assert (Hs : length scaled = length cells).
  { unfold scaled. rewrite map2_length; rewrite map2_length;
      rewrite ?length_combine, ?length_map; lia. }
  clearbody scaled. destruct scaled as [|v [|v' scaled]]; cbn [Loss.iadd bind];
    try reflexivity.
  cbn [length] in Hs. congruence.
Qed.

(** X28 (witness): one anchor on a 1 x 1 grid, a batch of two images. *)
Lemma compute_loss_reduction_none_witness :
  Loss.ComputeLoss_call anchor_wh_iou_model anchors1 32 0.5 2 1 1
    Loss.none 1 1 1 pred_boxes1 (fun _ => 0) (fun _ => 0.5) pred_cls1 [] = Err RuntimeError.
Proof.
  apply (compute_loss_reduction_none anchor_wh_iou_model anchors1 32 0.5 2 1 1 1 1 1
           pred_boxes1 (fun _ => 0) (fun _ => 0.5) pred_cls1).
  - discriminate.
  - discriminate.
  - cbn. discriminate.
Defined.

(** ** [fitness] of [train.py] *)

(** X29: on the four metrics [P, R, mAP@0.5, mAP@0.5:0.95], [fitness]
    evaluates [0.1 * mAP@0.5 + 0.9 * mAP@0.5:0.95]: precision and recall
    carry the weight 0 and do not enter the result. *)
Theorem fitness_weighs_map_only (p r map50 map5095 : R) :
  Train.fitness [p; r; map50; map5095] = Ok (0.1 * map50 + 0.9 * map5095) /\
  forall p' r', Train.fitness [p'; r'; map50; map5095] = Train.fitness [p; r; map50; map5095].
Proof.
  assert (E : forall p' r', Train.fitness [p'; r'; map50; map5095]
                            = Ok (0.1 * map50 + 0.9 * map5095)).
  { intros p' r'. unfold Train.fitness, Train.w, Rsum. cbn [map2 fold_right].
    f_equal. lra. }
  split; [apply E|]. intros p' r'. now rewrite !E.
Qed.
